(** * A shallow embedding of the template compiler front-end

    The development follows the three source modules:

    - the code generator ([generate], [genElement] and its helpers),
    - the text-interpolation parser ([parseText]),
    - the markup tokenizer ([parseHTML]) and the AST builder ([parse]).

    JavaScript strings are sequences of UTF-16 code units ([list N]);
    AST elements are mutable objects that are reachable through several
    paths (the [parent] back-reference, the first entry of an element's own
    conditional group), so they live in a store addressed by index and the
    generator threads that store. *)

From Stdlib Require Import NArith String Ascii DecimalString Lia.
From stdpp Require Import base option list.

Set Default Proof Using "Type".

(** ** Strings *)

Abbreviation str := (list N).

(** A string literal as code units. *)
Definition lit (s : string) : str :=
  (fun a => N_of_ascii a) <$> list_ascii_of_string s.
Arguments lit s%_string : simpl never.

(** Decimal rendering of a non-negative integer, as a template literal
    prints it. *)
Definition num (n : nat) : str :=
  lit (NilZero.string_of_uint (Nat.to_uint n)).

(** JavaScript truthiness of a value that is either [undefined] or a string. *)
Definition truthy (o : option str) : bool :=
  match o with
  | Some (_ :: _) => true
  | _ => false
  end.

(** Truthiness of a plain string, and of the length of an array. *)
Definition nonempty {A} (s : list A) : bool :=
  match s with
  | [] => false
  | _ => true
  end.

(** [`${o}`] and [String(o)]: an absent value prints as "undefined". *)
Definition show (o : option str) : str :=
  default (lit "undefined") o.

(** [a || d] for a string-or-undefined [a]. *)
Definition or_else (o : option str) (d : str) : str :=
  if truthy o then default d o else d.

(** [Array.prototype.join]. *)
Fixpoint join (sep : str) (l : list str) : str :=
  match l with
  | [] => []
  | [x] => x
  | x :: rest => x ++ sep ++ join sep rest
  end.

(** [s.slice(0, -1)]: all but the last code unit. *)
Definition drop_last (s : str) : str := take (length s - 1) s.

(** [s.replace(/,$/, '')]. *)
Definition strip_trailing_comma (s : str) : str :=
  match last s with
  | Some 44%N => drop_last s
  | _ => s
  end.

Fixpoint starts_with (p s : str) : bool :=
  match p, s with
  | [], _ => true
  | a :: p', b :: s' => N.eqb a b && starts_with p' s'
  | _ :: _, [] => false
  end.

(** Lower-case hexadecimal digit. *)
Definition hexdigit (n : N) : N :=
  if (n <? 10)%N then (48 + n)%N else (87 + n)%N.

Definition hex4 (c : N) : str :=
  [hexdigit (N.land (N.shiftr c 12) 15); hexdigit (N.land (N.shiftr c 8) 15);
   hexdigit (N.land (N.shiftr c 4) 15); hexdigit (N.land c 15)].

Definition is_high_surrogate (c : N) : bool := (55296 <=? c)%N && (c <=? 56319)%N.
Definition is_low_surrogate (c : N) : bool := (56320 <=? c)%N && (c <=? 57343)%N.

(** The body of [JSON.stringify] on a string (QuoteJSONString): the two
    quote-like characters and the control characters are escaped, a
    surrogate that is not part of a pair is written as a [\u] escape. *)
Fixpoint json_body (s : str) : str :=
  match s with
  | [] => []
  | c :: rest =>
    if N.eqb c 34 then [92; 34]%N ++ json_body rest
    else if N.eqb c 92 then lit "\\" ++ json_body rest
    else if N.eqb c 8 then lit "\b" ++ json_body rest
    else if N.eqb c 12 then lit "\f" ++ json_body rest
    else if N.eqb c 10 then lit "\n" ++ json_body rest
    else if N.eqb c 13 then lit "\r" ++ json_body rest
    else if N.eqb c 9 then lit "\t" ++ json_body rest
    else if (c <? 32)%N then lit "\u" ++ hex4 c ++ json_body rest
    else if is_high_surrogate c then
      match rest with
      | d :: rest' =>
        if is_low_surrogate d then c :: d :: json_body rest'
        else lit "\u" ++ hex4 c ++ json_body rest
      | [] => lit "\u" ++ hex4 c
      end
    else if is_low_surrogate c then lit "\u" ++ hex4 c ++ json_body rest
    else c :: json_body rest
  end.

Definition JSON_stringify (s : str) : str :=
  [34%N] ++ json_body s ++ [34%N].

(** [transformSpecialNewlines]: the line and paragraph separators are not
    allowed inside a script string literal and are written as escapes. *)
Fixpoint transformSpecialNewlines (text : str) : str :=
  match text with
  | [] => []
  | c :: rest =>
    if N.eqb c 8232 then lit "\u2028" ++ transformSpecialNewlines rest
    else if N.eqb c 8233 then lit "\u2029" ++ transformSpecialNewlines rest
    else c :: transformSpecialNewlines rest
  end.

(** *** Own-property order of an object used as a map

    [Object.keys] and [JSON.stringify] enumerate integer-like keys first,
    in ascending numeric order, then the other keys in insertion order. *)

Definition is_digit (c : N) : bool := (48 <=? c)%N && (c <=? 57)%N.

Fixpoint digits_value (acc : N) (s : str) : N :=
  match s with
  | [] => acc
  | c :: rest => digits_value (10 * acc + (c - 48))%N rest
  end.

(** A canonical array index: "0", or digits without a leading zero whose
    value is below 2^32 - 1. *)
Definition array_index (k : str) : option N :=
  match k with
  | [] => None
  | c :: rest =>
    if forallb is_digit k && (negb (N.eqb c 48) || bool_decide (rest = []))
       && (length k <=? 10)%nat && (digits_value 0 k <? 4294967295)%N
    then Some (digits_value 0 k) else None
  end.

Fixpoint insert_index {A} (n : N) (x : A) (l : list (N * A)) : list (N * A) :=
  match l with
  | [] => [(n, x)]
  | (m, y) :: rest =>
    if (n <? m)%N then (n, x) :: l else (m, y) :: insert_index n x rest
  end.

Definition own_order {A} (props : list (str * A)) : list (str * A) :=
  let idx := foldr (fun p acc =>
                      match array_index p.1 with
                      | Some n => insert_index n p acc
                      | None => acc
                      end) [] props in
  (snd <$> idx) ++ filter (fun p => array_index p.1 = None) props.

(** Property assignment [o[k] = v]: an existing key keeps its place. *)
Fixpoint obj_set {A} (k : str) (v : A) (o : list (str * A)) : list (str * A) :=
  match o with
  | [] => [(k, v)]
  | (k', v') :: rest =>
    if bool_decide (k = k') then (k, v) :: rest else (k', v') :: obj_set k v rest
  end.

Fixpoint obj_get {A} (k : str) (o : list (str * A)) : option A :=
  match o with
  | [] => None
  | (k', v) :: rest => if bool_decide (k = k') then Some v else obj_get k rest
  end.

(** *** What a plain object inherits

    An object written [{}] inherits the members of [Object.prototype].
    The lists above hold the own properties; a read of a name that is not
    an own property finds the inherited member, if there is one, and every
    one of them is truthy.  All of them are writable data properties, so
    that an assignment makes an own property, but [__proto__], which is an
    accessor: an assignment to it makes no own property. *)
Definition object_members : list str :=
  [lit "constructor"; lit "hasOwnProperty"; lit "isPrototypeOf";
   lit "propertyIsEnumerable"; lit "toLocaleString"; lit "toString"; lit "valueOf";
   lit "__defineGetter__"; lit "__defineSetter__"; lit "__lookupGetter__";
   lit "__lookupSetter__"; lit "__proto__"].

Definition inherited (k : str) : bool := bool_decide (k ∈ object_members).

(** [o[k] = v] on a plain object. *)
Definition obj_assign {A} (k : str) (v : A) (o : list (str * A)) : list (str * A) :=
  if bool_decide (k = lit "__proto__") then o else obj_set k v o.

(** Truthiness of [o[k]] on a plain object whose own values are strings. *)
Definition member_truthy (k : str) (o : list (str * str)) : bool :=
  match obj_get k o with
  | Some v => nonempty v
  | None => inherited k
  end.

(** The inherited members that throw when they are called as a function,
    without a receiver, on an element: all but [constructor], which
    returns the element, and [toString], which returns a string. *)
Definition throwing_members : list str :=
  [lit "hasOwnProperty"; lit "isPrototypeOf"; lit "propertyIsEnumerable";
   lit "toLocaleString"; lit "valueOf"; lit "__defineGetter__"; lit "__defineSetter__";
   lit "__lookupGetter__"; lit "__lookupSetter__"; lit "__proto__"].

(** ** The abstract syntax tree *)

Record Attr := mkAttr { attr_name : str; attr_value : str }.

Record ASTDirective := mkDirective {
  dir_name : str;
  dir_rawName : str;
  dir_value : str;
  dir_arg : option str;
  dir_modifiers : option (list (str * bool))
}.

Record ASTElementHandler := mkHandler {
  handler_value : str;
  handler_modifiers : option (list (str * bool))
}.

(** The event map of an element: event name to its handlers, in order. *)
Abbreviation ASTElementHandlers := (list (str * list ASTElementHandler)).

Record ASTModel := mkModel {
  model_value : str;
  model_callback : str;
  model_expression : str
}.

(** A raw token of an interpolated text: a literal segment or a
    [{'@binding': e}] marker. *)
Inductive Token :=
| TokString (s : str)
| TokBinding (e : str).

(** A child node.  Elements are objects of the store; expression (type 2)
    and text or comment (type 3) nodes are never updated after creation
    and are kept by value. *)
Inductive ASTNode :=
| NElement (r : nat)
| NExpression (expression : str) (tokens : list Token) (text : str)
| NText (text : str) (isComment : bool).

(** One branch of a conditional group. *)
Record ASTIfCondition := mkCond { exp : option str; block : nat }.

Record ASTElement := mkEl {
  tag : str;
  attrsList : list Attr;
  attrsMap : list (str * str);
  parent : option nat;
  children : list ASTNode;
  ns : option str;
  forbidden : bool;
  processed : bool;
  pre : bool;
  plain : bool;
  key : option str;
  ref : option str;
  refInFor : bool;
  for_ : option str;
  alias : option str;
  iterator1 : option str;
  iterator2 : option str;
  forProcessed : bool;
  if_ : option str;
  ifProcessed : bool;
  else_ : bool;
  elseif : option str;
  ifConditions : option (list ASTIfCondition);
  once : bool;
  onceProcessed : bool;
  staticRoot : bool;
  staticProcessed : bool;
  staticInFor : bool;
  slotName : option str;
  slotTarget : option str;
  slotScope : option str;
  scopedSlots : option (list (str * nat));
  component : option str;
  inlineTemplate : bool;
  hasBindings : bool;
  attrs : option (list Attr);
  props : option (list Attr);
  events : option ASTElementHandlers;
  nativeEvents : option ASTElementHandlers;
  directives : option (list ASTDirective);
  model : option ASTModel;
  wrapData : option (str -> str);
  wrapListeners : option (str -> str)
}.

(** Field assignment [el.f = v]: the record rebuilt with the projection [f]
    replaced. *)
Ltac make_setter proj :=
  let body := constr:(fun e : ASTElement =>
    mkEl (tag e) (attrsList e) (attrsMap e) (parent e) (children e) (ns e)
         (forbidden e) (processed e) (pre e) (plain e) (key e) (ref e)
         (refInFor e) (for_ e) (alias e) (iterator1 e) (iterator2 e)
         (forProcessed e) (if_ e) (ifProcessed e) (else_ e) (elseif e)
         (ifConditions e) (once e) (onceProcessed e) (staticRoot e)
         (staticProcessed e) (staticInFor e) (slotName e) (slotTarget e)
         (slotScope e) (scopedSlots e) (component e) (inlineTemplate e)
         (hasBindings e) (attrs e) (props e) (events e) (nativeEvents e)
         (directives e) (model e) (wrapData e) (wrapListeners e)) in
  match eval pattern proj in body with
  | ?g _ => let t := eval cbv beta in (fun v e => g (fun _ => v) e) in exact t
  end.

Definition set_attrsList : list Attr -> ASTElement -> ASTElement := ltac:(make_setter attrsList).
Definition set_parent : option nat -> ASTElement -> ASTElement := ltac:(make_setter parent).
Definition set_children : list ASTNode -> ASTElement -> ASTElement := ltac:(make_setter children).
Definition set_ns : option str -> ASTElement -> ASTElement := ltac:(make_setter ns).
Definition set_forbidden : bool -> ASTElement -> ASTElement := ltac:(make_setter forbidden).
Definition set_pre : bool -> ASTElement -> ASTElement := ltac:(make_setter pre).
Definition set_plain : bool -> ASTElement -> ASTElement := ltac:(make_setter plain).
Definition set_key : option str -> ASTElement -> ASTElement := ltac:(make_setter key).
Definition set_ref : option str -> ASTElement -> ASTElement := ltac:(make_setter ref).
Definition set_refInFor : bool -> ASTElement -> ASTElement := ltac:(make_setter refInFor).
Definition set_for : option str -> ASTElement -> ASTElement := ltac:(make_setter for_).
Definition set_alias : option str -> ASTElement -> ASTElement := ltac:(make_setter alias).
Definition set_iterator1 : option str -> ASTElement -> ASTElement := ltac:(make_setter iterator1).
Definition set_iterator2 : option str -> ASTElement -> ASTElement := ltac:(make_setter iterator2).
Definition set_forProcessed : bool -> ASTElement -> ASTElement := ltac:(make_setter forProcessed).
Definition set_if : option str -> ASTElement -> ASTElement := ltac:(make_setter if_).
Definition set_ifProcessed : bool -> ASTElement -> ASTElement := ltac:(make_setter ifProcessed).
Definition set_else : bool -> ASTElement -> ASTElement := ltac:(make_setter else_).
Definition set_elseif : option str -> ASTElement -> ASTElement := ltac:(make_setter elseif).
Definition set_ifConditions : option (list ASTIfCondition) -> ASTElement -> ASTElement := ltac:(make_setter ifConditions).
Definition set_once : bool -> ASTElement -> ASTElement := ltac:(make_setter once).
Definition set_onceProcessed : bool -> ASTElement -> ASTElement := ltac:(make_setter onceProcessed).
Definition set_staticRoot : bool -> ASTElement -> ASTElement := ltac:(make_setter staticRoot).
Definition set_staticProcessed : bool -> ASTElement -> ASTElement := ltac:(make_setter staticProcessed).
Definition set_staticInFor : bool -> ASTElement -> ASTElement := ltac:(make_setter staticInFor).
Definition set_slotName : option str -> ASTElement -> ASTElement := ltac:(make_setter slotName).
Definition set_slotTarget : option str -> ASTElement -> ASTElement := ltac:(make_setter slotTarget).
Definition set_slotScope : option str -> ASTElement -> ASTElement := ltac:(make_setter slotScope).
Definition set_scopedSlots : option (list (str * nat)) -> ASTElement -> ASTElement := ltac:(make_setter scopedSlots).
Definition set_component : option str -> ASTElement -> ASTElement := ltac:(make_setter component).
Definition set_inlineTemplate : bool -> ASTElement -> ASTElement := ltac:(make_setter inlineTemplate).
Definition set_hasBindings : bool -> ASTElement -> ASTElement := ltac:(make_setter hasBindings).
Definition set_attrs : option (list Attr) -> ASTElement -> ASTElement := ltac:(make_setter attrs).
Definition set_wrapData : option (str -> str) -> ASTElement -> ASTElement := ltac:(make_setter wrapData).

(** [makeAttrsMap] without its duplicate diagnostic: the last value of a
    name wins, the name keeps its first position. *)
Definition attrs_map_of (l : list Attr) : list (str * str) :=
  foldl (fun m a => obj_assign (attr_name a) (attr_value a) m) [] l.

(** [createASTElement]: every optional field starts absent. *)
Definition createASTElement (t : str) (l : list Attr) (p : option nat) : ASTElement :=
  {| tag := t; attrsList := l; attrsMap := attrs_map_of l; parent := p;
     children := []; ns := None; forbidden := false; processed := false;
     pre := false; plain := false; key := None; ref := None; refInFor := false;
     for_ := None; alias := None; iterator1 := None; iterator2 := None;
     forProcessed := false; if_ := None; ifProcessed := false; else_ := false;
     elseif := None; ifConditions := None; once := false;
     onceProcessed := false; staticRoot := false; staticProcessed := false;
     staticInFor := false; slotName := None; slotTarget := None;
     slotScope := None; scopedSlots := None; component := None;
     inlineTemplate := false; hasBindings := false; attrs := None;
     props := None; events := None; nativeEvents := None; directives := None;
     model := None; wrapData := None; wrapListeners := None |}.

Definition is_tag (e : ASTElement) (s : string) : bool :=
  bool_decide (tag e = lit s).
Arguments is_tag e s%_string.

(** ** The store, the options and the environment *)

(** A diagnostic handed to the sink [warn(msg, tip)]. *)
Record Diag := mkDiag { diag_msg : str; diag_tip : bool }.

(** The objects shared between the passes: the AST elements, addressed by
    index, and what the diagnostic sink has received so far. *)
Record Store := mkStore { heap : list ASTElement; log : list Diag }.

(** A compile-time directive: it may update the element (and diagnose) and
    tells whether a runtime descriptor is still needed. *)
Abbreviation DirectiveFunction := (nat -> ASTDirective -> Store -> bool * Store).

(** A pre-transform or transform hook may return a replacement element. *)
Abbreviation NodeTransform := (nat -> Store -> option nat * Store).

Record CompilerOptions := mkOptions {
  opt_expectHTML : bool;
  opt_isUnaryTag : option (str -> bool);
  opt_canBeLeftOpenTag : option (str -> bool);
  opt_isReservedTag : option (str -> bool);
  opt_isPreTag : option (str -> bool);
  opt_mustUseProp : option (str -> option str -> str -> bool);
  opt_getTagNamespace : option (str -> option str);
  opt_shouldDecodeNewlines : bool;
  opt_shouldDecodeNewlinesForHref : bool;
  opt_comments : bool;
  opt_delimiters : option (str * str);
  opt_preserveWhitespace : option bool;
  opt_preTransformNode : list NodeTransform;
  opt_transformNode : list NodeTransform;
  opt_postTransformNode : list (nat -> Store -> Store);
  opt_genData : list (ASTElement -> str);
  opt_transformCode : list (ASTElement -> str -> str);
  opt_directives : list (str * DirectiveFunction)
}.

(** What the modules under verification import from the rest of the
    repository and from the platform, and the build constants. *)
Record Env := mkEnv {
  production : bool;
  WEEX : bool;
  isIE : bool;
  isEdge : bool;
  isServerRendering : bool;
  genHandlers : ASTElementHandlers -> bool -> str;
  camelize : str -> str;
  baseDirectives : list (str * DirectiveFunction);
  parseFilters : str -> str;
  genAssignmentCode : str -> str -> str;
  decodeHTML : str -> str;
  isNonPhrasingTag : str -> bool;
  getAndRemoveAttr : ASTElement -> str -> option str * ASTElement;
  getBindingAttr : ASTElement -> str -> option str * ASTElement;
  addAttr : ASTElement -> str -> str -> ASTElement;
  addProp : ASTElement -> str -> str -> ASTElement;
  addHandler : ASTElement -> str -> str -> option (list (str * bool)) ->
               ASTElement * list Diag;
  addDirective : ASTElement -> str -> str -> str -> option str ->
                 option (list (str * bool)) -> ASTElement
}.

(** ** The code generator *)

Record CodegenState := mkState {
  options : CompilerOptions;
  transforms : list (ASTElement -> str -> str);
  dataGenFns : list (ASTElement -> str);
  state_directives : list (str * DirectiveFunction);
  maybeComponent : ASTElement -> bool;
  onceId : nat;
  staticRenderFns : list str;
  state_pre : bool
}.

Definition set_onceId (v : nat) (st : CodegenState) : CodegenState :=
  mkState (options st) (transforms st) (dataGenFns st) (state_directives st)
          (maybeComponent st) v (staticRenderFns st) (state_pre st).

Definition set_staticRenderFns (v : list str) (st : CodegenState) : CodegenState :=
  mkState (options st) (transforms st) (dataGenFns st) (state_directives st)
          (maybeComponent st) (onceId st) v (state_pre st).

Definition set_state_pre (v : bool) (st : CodegenState) : CodegenState :=
  mkState (options st) (transforms st) (dataGenFns st) (state_directives st)
          (maybeComponent st) (onceId st) (staticRenderFns st) v.

Record CodegenResult := mkResult { render : str; result_staticRenderFns : list str }.

(** A generator step reads and updates the codegen state and the store;
    [None] is the absence of a result (a thrown TypeError, or the recursion
    budget of the embedding used up). *)
Definition G (A : Type) : Type :=
  CodegenState -> Store -> option (A * CodegenState * Store).

#[global] Instance G_ret : MRet G := fun A a st s => Some (a, st, s).
#[global] Instance G_bind : MBind G := fun A B f m st s =>
  match m st s with
  | Some (a, st', s') => f a st' s'
  | None => None
  end.

Definition failG {A} : G A := fun _ _ => None.
Definition getState : G CodegenState := fun st s => Some (st, st, s).
Definition modState (f : CodegenState -> CodegenState) : G unit :=
  fun st s => Some (tt, f st, s).
Definition getStore : G Store := fun st s => Some (s, st, s).

(** [state.onceId++]. *)
Definition nextOnceId : G nat :=
  fun st s => Some (onceId st, set_onceId (S (onceId st)) st, s).

(** [state.staticRenderFns.push(code)]. *)
Definition pushStaticRenderFn (code : str) : G unit :=
  fun st s => Some (tt, set_staticRenderFns (staticRenderFns st ++ [code]) st, s).
Definition getEl (r : nat) : G ASTElement :=
  fun st s => match heap s !! r with Some e => Some (e, st, s) | None => None end.
Definition modEl (r : nat) (f : ASTElement -> ASTElement) : G unit :=
  fun st s =>
    match heap s !! r with
    | Some e => Some (tt, st, mkStore (<[r := f e]> (heap s)) (log s))
    | None => None
    end.
Definition liftS {A} (f : Store -> A * Store) : G A :=
  fun st s => let '(a, s') := f s in Some (a, st, s').

(** A nested compile: it gets the options of the current state, works on
    the store, and has a codegen state of its own. *)
Definition nestedG {A} (f : CompilerOptions -> Store -> option (A * Store)) : G A :=
  fun st s =>
    match f (options st) s with
    | Some (r, s') => Some (r, st, s')
    | None => None
    end.

Fixpoint mapG {A B} (f : A -> G B) (l : list A) : G (list B) :=
  match l with
  | [] => mret []
  | x :: rest => y ← f x; ys ← mapG f rest; mret (y :: ys)
  end.

Definition whenG (b : bool) (m : G unit) : G unit := if b then m else mret tt.

Definition dq : str := [34%N].

Section Codegen.
Context (env : Env).

(** [state.warn(msg, tip)]; the call sites are guarded by the build mode. *)
Definition warnG (m : str) (t : bool) : G unit :=
  fun st s => Some (tt, st, mkStore (heap s) (log s ++ [mkDiag m t])).

Definition devWarn (m : str) (t : bool) : G unit :=
  whenG (negb (production env)) (warnG m t).

(** [new CodegenState(options)].  Modelled from the spec: [extend] of
    shared/util, which is not part of the sources at hand, as the registry
    of the base directives in which the directives of the options replace
    or follow them name by name. *)
Definition newCodegenState (o : CompilerOptions) : CodegenState :=
  let isReservedTag := default (fun _ => false) (opt_isReservedTag o) in
  {| options := o;
     transforms := opt_transformCode o;
     dataGenFns := opt_genData o;
     state_directives :=
       foldl (fun m p => obj_set p.1 p.2 m) (baseDirectives env) (opt_directives o);
     maybeComponent := fun el => negb (isReservedTag (tag el) && negb (truthy (component el)));
     onceId := 0;
     staticRenderFns := [];
     state_pre := false |}.

(** [genText]; an element has no [text] to quote. *)
Definition genText (n : ASTNode) : option str :=
  match n with
  | NExpression e _ _ => Some (lit "_v(" ++ e ++ lit ")")
  | NText t _ => Some (lit "_v(" ++ transformSpecialNewlines (JSON_stringify t) ++ lit ")")
  | NElement _ => None
  end.

Definition genComment (t : str) : str :=
  lit "_e(" ++ JSON_stringify t ++ lit ")".

Definition generateValue (v : str) : str := transformSpecialNewlines v.

Definition genProps (props : list Attr) : str :=
  drop_last
    (foldl (fun res prop =>
              res ++ dq ++ attr_name prop ++ dq ++ lit ":" ++
              (if WEEX env then generateValue (attr_value prop)
               else transformSpecialNewlines (attr_value prop)) ++ lit ",")
           [] props).

(** [needsNormalization]. *)
Definition needsNormalization (el : ASTElement) : bool :=
  bool_decide (for_ el <> None) || is_tag el "template" || is_tag el "slot".

(** [conditions.some(c => p(c.block))] over the store. *)
Fixpoint some_block (h : list ASTElement) (p : ASTElement -> bool)
    (conds : list ASTIfCondition) : option bool :=
  match conds with
  | [] => Some false
  | c :: rest =>
    match h !! block c with
    | Some b => if p b then Some true else some_block h p rest
    | None => None
    end
  end.

(** [p(el) || (el.ifConditions && el.ifConditions.some(c => p(c.block)))]. *)
Definition el_or_branch (h : list ASTElement) (p : ASTElement -> bool)
    (el : ASTElement) : option bool :=
  if p el then Some true
  else match ifConditions el with
       | Some conds => some_block h p conds
       | None => Some false
       end.

(** [getNormalizationType], the loop from index [i] with the running [res]:
    a child that needs full normalization ends the loop with 2. *)
Fixpoint getNormalizationType_from (h : list ASTElement)
    (mc : ASTElement -> bool) (cs : list ASTNode) (res : nat) : option nat :=
  match cs with
  | [] => Some res
  | NElement r :: rest =>
    match h !! r with
    | None => None
    | Some el =>
      match el_or_branch h needsNormalization el with
      | None => None
      | Some true => Some 2
      | Some false =>
        match el_or_branch h mc el with
        | None => None
        | Some true => getNormalizationType_from h mc rest 1
        | Some false => getNormalizationType_from h mc rest res
        end
      end
    end
  | _ :: rest => getNormalizationType_from h mc rest res
  end.

Definition getNormalizationType (h : list ASTElement) (cs : list ASTNode)
    (mc : ASTElement -> bool) : option nat :=
  getNormalizationType_from h mc cs 0.

(** The ancestor walk of [genOnce]: the key of the nearest ancestor that
    carries an iteration binding, the initial [''] when there is none.  A
    chain longer than the store is cyclic: the loop does not end. *)
Fixpoint nearestForKey (budget : nat) (h : list ASTElement) (p : option nat)
    : option (option str) :=
  match p with
  | None => Some (Some [])
  | Some r =>
    match budget with
    | 0 => None
    | S k =>
      match h !! r with
      | None => None
      | Some e => if truthy (for_ e) then Some (key e) else nearestForKey k h (parent e)
      end
    end
  end.

(** [if (el.parent) el.pre = el.pre || el.parent.pre], the first statement
    of [genElement]. *)
Definition inheritPre (el : nat) : G unit :=
  e ← getEl el;
  match parent e with
  | Some p => pe ← getEl p; modEl el (set_pre (pre e || pre pe))
  | None => mret tt
  end.

Definition json_modifiers (m : list (str * bool)) : str :=
  lit "{" ++
  join (lit ",")
       ((fun p : str * bool =>
           JSON_stringify p.1 ++ lit ":" ++ (if p.2 then lit "true" else lit "false"))
          <$> own_order m) ++
  lit "}".

Definition directive_text (dir : ASTDirective) : str :=
  lit "{name:" ++ dq ++ dir_name dir ++ dq ++ lit ",rawName:" ++ dq ++
  dir_rawName dir ++ dq ++
  (if nonempty (dir_value dir)
   then lit ",value:(" ++ dir_value dir ++ lit "),expression:" ++
        JSON_stringify (dir_value dir)
   else []) ++
  (if truthy (dir_arg dir) then lit ",arg:" ++ dq ++ show (dir_arg dir) ++ dq else []) ++
  (match dir_modifiers dir with
   | Some m => lit ",modifiers:" ++ json_modifiers m
   | None => []
   end) ++
  lit "},".

(** The loop of [genDirectives].  The table is built on [{}]: a name that
    is not in it may still find an inherited member, which is then called
    in place of a directive function. *)
Fixpoint genDirectives_loop (el : nat) (dirs : list ASTDirective) (res : str)
    (hasRuntime : bool) : G (str * bool) :=
  match dirs with
  | [] => mret (res, hasRuntime)
  | dir :: rest =>
    st ← getState;
    needRuntime ← match obj_get (dir_name dir) (state_directives st) with
                  | Some gen => liftS (gen el dir)
                  | None =>
                    if bool_decide (dir_name dir ∈ throwing_members) then failG
                    else mret true
                  end;
    if needRuntime : bool
    then genDirectives_loop el rest (res ++ directive_text dir) true
    else genDirectives_loop el rest res hasRuntime
  end.

Definition genDirectives (el : nat) : G (option str) :=
  e ← getEl el;
  match directives e with
  | None => mret None
  | Some dirs =>
    '(res, hasRuntime) ← genDirectives_loop el dirs (lit "directives:[") false;
    if hasRuntime : bool then mret (Some (drop_last res ++ lit "]")) else mret None
  end.

(** The key warning of [genFor]. *)
Definition forKeyWarning (e : ASTElement) : str :=
  lit "<" ++ tag e ++ lit " v-for=" ++ dq ++ show (alias e) ++ lit " in " ++
  show (for_ e) ++ dq ++ lit ">: component lists rendered with " ++
  lit "v-for should have explicit keys. " ++
  lit "See https://vuejs.org/guide/list.html#key for more info.".

Definition text_if (b : bool) (s : str) : str := if b then s else [].

(** The fields of the data object that are read off the element between
    the directives and the scoped slots. *)
Definition genData_fields (st : CodegenState) (e : ASTElement) : str :=
  text_if (truthy (key e)) (lit "key:" ++ show (key e) ++ lit ",") ++
  text_if (truthy (ref e)) (lit "ref:" ++ show (ref e) ++ lit ",") ++
  text_if (refInFor e) (lit "refInFor:true,") ++
  text_if (pre e) (lit "pre:true,") ++
  text_if (truthy (component e)) (lit "tag:" ++ dq ++ tag e ++ dq ++ lit ",") ++
  foldl (fun data f => data ++ f e) [] (dataGenFns st) ++
  match attrs e with
  | Some a => lit "attrs:{" ++ genProps a ++ lit "},"
  | None => []
  end ++
  match props e with
  | Some a => lit "domProps:{" ++ genProps a ++ lit "},"
  | None => []
  end ++
  match events e with
  | Some ev => genHandlers env ev false ++ lit ","
  | None => []
  end ++
  match nativeEvents e with
  | Some ev => genHandlers env ev true ++ lit ","
  | None => []
  end ++
  text_if (truthy (slotTarget e) && negb (truthy (slotScope e)))
          (lit "slot:" ++ show (slotTarget e) ++ lit ",").

Definition genData_model (e : ASTElement) : str :=
  match model e with
  | Some m => lit "model:{value:" ++ model_value m ++ lit ",callback:" ++
              model_callback m ++ lit ",expression:" ++ model_expression m ++
              lit "},"
  | None => []
  end.

(** The tail of [genSlot], once the fallback children are compiled. *)
Definition genSlot_tail (e : ASTElement) (res : str) (children : option str) : str :=
  let attrs_ :=
    match attrs e with
    | Some a => Some (lit "{" ++
                      join (lit ",") ((fun a => camelize env (attr_name a) ++ lit ":" ++ attr_value a) <$> a) ++
                      lit "}")
    | None => None
    end in
  let bind := obj_get (lit "v-bind") (attrsMap e) in
  let res1 := res ++ text_if ((truthy attrs_ || truthy bind) && negb (truthy children)) (lit ",null") in
  let res2 := res1 ++ text_if (truthy attrs_) (lit "," ++ show attrs_) in
  let res3 := res2 ++ text_if (truthy bind)
                              ((if truthy attrs_ then [] else lit ",null") ++ lit "," ++ show bind) in
  res3 ++ lit ")".

(** The mutually recursive generators.  Every call of the source is a call
    here and spends one unit of the recursion budget [fuel]. *)
Fixpoint genElement (fuel : nat) (el : nat) {struct fuel} : G str :=
  match fuel with
  | 0 => failG
  | S n =>
    _ ← inheritPre el;
    e ← getEl el;
    st ← getState;
    if staticRoot e && negb (staticProcessed e) then genStatic n el
    else if once e && negb (onceProcessed e) then genOnce n el
    else if truthy (for_ e) && negb (forProcessed e) then genFor n el None None
    else if truthy (if_ e) && negb (ifProcessed e) then genIf n el None None
    else if is_tag e "template" && negb (truthy (slotTarget e)) && negb (state_pre st)
    then c ← genChildren n el false None None; mret (or_else c (lit "void 0"))
    else if is_tag e "slot" then genSlot n el
    else
      code ← (if truthy (component e)
              then genComponent n (show (component e)) el
              else
                data ← (if negb (plain e) || (pre e && maybeComponent st e)
                        then d ← genData n el; mret (Some d)
                        else mret None);
                e1 ← getEl el;
                children ← (if inlineTemplate e1 then mret None
                            else genChildren n el true None None);
                e2 ← getEl el;
                mret (lit "_c('" ++ tag e2 ++ lit "'" ++
                      text_if (truthy data) (lit "," ++ show data) ++
                      text_if (truthy children) (lit "," ++ show children) ++
                      lit ")"));
      e3 ← getEl el;
      mret (foldl (fun c t => t e3 c) code (transforms st))
  end

with genStatic (fuel : nat) (el : nat) {struct fuel} : G str :=
  match fuel with
  | 0 => failG
  | S n =>
    _ ← modEl el (set_staticProcessed true);
    st ← getState;
    let originalPreState := state_pre st in
    e ← getEl el;
    _ ← whenG (pre e) (modState (set_state_pre (pre e)));
    code ← genElement n el;
    _ ← pushStaticRenderFn (lit "with(this){return " ++ code ++ lit "}");
    _ ← modState (set_state_pre originalPreState);
    st' ← getState;
    e' ← getEl el;
    mret (lit "_m(" ++ num (length (staticRenderFns st') - 1) ++
          text_if (staticInFor e') (lit ",true") ++ lit ")")
  end

with genOnce (fuel : nat) (el : nat) {struct fuel} : G str :=
  match fuel with
  | 0 => failG
  | S n =>
    _ ← modEl el (set_onceProcessed true);
    e ← getEl el;
    if truthy (if_ e) && negb (ifProcessed e) then genIf n el None None
    else if staticInFor e then
      s ← getStore;
      match nearestForKey (length (heap s)) (heap s) (parent e) with
      | None => failG
      | Some key =>
        if negb (truthy key)
        then
          _ ← devWarn (lit "v-once can only be used inside v-for that is keyed. ") false;
          genElement n el
        else
          code ← genElement n el;
          id ← nextOnceId;
          mret (lit "_o(" ++ code ++ lit "," ++ num id ++ lit "," ++
                show key ++ lit ")")
      end
    else genStatic n el
  end

with genIf (fuel : nat) (el : nat) (altGen : option (nat -> G str))
    (altEmpty : option str) {struct fuel} : G str :=
  match fuel with
  | 0 => failG
  | S n =>
    _ ← modEl el (set_ifProcessed true);
    e ← getEl el;
    match ifConditions e with
    | Some conditions => genIfConditions n conditions altGen altEmpty
    | None => failG
    end
  end

with genIfConditions (fuel : nat) (conditions : list ASTIfCondition)
    (altGen : option (nat -> G str)) (altEmpty : option str) {struct fuel} : G str :=
  match fuel with
  | 0 => failG
  | S n =>
    match conditions with
    | [] => mret (or_else altEmpty (lit "_e()"))
    | condition :: rest =>
      if truthy (exp condition)
      then
        a ← genTernaryExp n (block condition) altGen;
        b ← genIfConditions n rest altGen altEmpty;
        mret (lit "(" ++ show (exp condition) ++ lit ")?" ++ a ++ lit ":" ++ b)
      else genTernaryExp n (block condition) altGen
    end
  end

with genTernaryExp (fuel : nat) (el : nat) (altGen : option (nat -> G str))
    {struct fuel} : G str :=
  match fuel with
  | 0 => failG
  | S n =>
    match altGen with
    | Some g => g el
    | None => e ← getEl el; if once e then genOnce n el else genElement n el
    end
  end

with genFor (fuel : nat) (el : nat) (altGen : option (nat -> G str))
    (altHelper : option str) {struct fuel} : G str :=
  match fuel with
  | 0 => failG
  | S n =>
    e ← getEl el;
    st ← getState;
    let exp := show (for_ e) in
    let alias := show (alias e) in
    let iterator1 := text_if (truthy (iterator1 e)) (lit "," ++ show (iterator1 e)) in
    let iterator2 := text_if (truthy (iterator2 e)) (lit "," ++ show (iterator2 e)) in
    _ ← whenG (negb (production env) && maybeComponent st e &&
               negb (is_tag e "slot") && negb (is_tag e "template") &&
               negb (truthy (key e)))
              (warnG (forKeyWarning e) true);
    _ ← modEl el (set_forProcessed true);
    code ← match altGen with Some g => g el | None => genElement n el end;
    mret (or_else altHelper (lit "_l") ++ lit "((" ++ exp ++ lit ")," ++
          lit "function(" ++ alias ++ iterator1 ++ iterator2 ++ lit "){" ++
          lit "return " ++ code ++ lit "})")
  end

with genData (fuel : nat) (el : nat) {struct fuel} : G str :=
  match fuel with
  | 0 => failG
  | S n =>
    dirs ← genDirectives el;
    e ← getEl el;
    st ← getState;
    let data := lit "{" ++ text_if (truthy dirs) (show dirs ++ lit ",") ++
                genData_fields st e in
    slots ← match scopedSlots e with
            | Some sl => t ← genScopedSlots n sl; mret (t ++ lit ",")
            | None => mret []
            end;
    e1 ← getEl el;
    inline ← (if inlineTemplate e1
              then r ← genInlineTemplate n el;
                   mret (text_if (truthy r) (show r ++ lit ","))
              else mret []);
    let data := strip_trailing_comma (data ++ slots ++ genData_model e1 ++ inline) ++ lit "}" in
    e2 ← getEl el;
    let data := match wrapData e2 with Some w => w data | None => data end in
    let data := match wrapListeners e2 with Some w => w data | None => data end in
    mret data
  end

with genInlineTemplate (fuel : nat) (el : nat) {struct fuel} : G (option str) :=
  match fuel with
  | 0 => failG
  | S n =>
    e ← getEl el;
    match children e with
    | [] => failG
    | ast :: rest =>
      _ ← whenG (negb (production env) &&
                 (negb (bool_decide (rest = [])) ||
                  match ast with NElement _ => false | _ => true end))
                (warnG (lit "Inline-template components must have exactly one child element.") false);
      match ast with
      | NElement r =>
        inlineRenderFns ← nestedG (generate n (Some r));
        mret (Some (lit "inlineTemplate:{render:function(){" ++
                    render inlineRenderFns ++ lit "},staticRenderFns:[" ++
                    join (lit ",")
                         ((fun code => lit "function(){" ++ code ++ lit "}") <$>
                            result_staticRenderFns inlineRenderFns) ++
                    lit "]}"))
      | _ => mret None
      end
    end
  end

with generate (fuel : nat) (ast : option nat) (o : CompilerOptions) (s : Store)
    {struct fuel} : option (CodegenResult * Store) :=
  match fuel with
  | 0 => None
  | S n =>
    let state := newCodegenState o in
    match ast with
    | Some r =>
      match genElement n r state s with
      | Some (code, state', s') =>
        Some (mkResult (lit "with(this){return " ++ code ++ lit "}")
                       (staticRenderFns state'), s')
      | None => None
      end
    | None =>
      Some (mkResult (lit "with(this){return _c(" ++ dq ++ lit "div" ++ dq ++ lit ")}")
                     (staticRenderFns state), s)
    end
  end

with genScopedSlots (fuel : nat) (slots : list (str * nat)) {struct fuel} : G str :=
  match fuel with
  | 0 => failG
  | S n =>
    parts ← mapG (fun p : str * nat => genScopedSlot n p.1 p.2) (own_order slots);
    mret (lit "scopedSlots:_u([" ++ join (lit ",") parts ++ lit "])")
  end

with genScopedSlot (fuel : nat) (key : str) (el : nat) {struct fuel} : G str :=
  match fuel with
  | 0 => failG
  | S n =>
    e ← getEl el;
    if truthy (for_ e) && negb (forProcessed e) then genForScopedSlot n key el
    else
      let head := lit "function(" ++ show (slotScope e) ++ lit "){" in
      body ← (if is_tag e "template"
              then
                if truthy (if_ e)
                then c ← genChildren n el false None None;
                     mret (show (if_ e) ++ lit "?" ++ or_else c (lit "undefined") ++
                           lit ":undefined")
                else c ← genChildren n el false None None;
                     mret (or_else c (lit "undefined"))
              else genElement n el);
      mret (lit "{key:" ++ key ++ lit ",fn:" ++ head ++ lit "return " ++ body ++
            lit "}" ++ lit "}")
  end

with genForScopedSlot (fuel : nat) (key : str) (el : nat) {struct fuel} : G str :=
  match fuel with
  | 0 => failG
  | S n =>
    e ← getEl el;
    let exp := show (for_ e) in
    let alias := show (alias e) in
    let iterator1 := text_if (truthy (iterator1 e)) (lit "," ++ show (iterator1 e)) in
    let iterator2 := text_if (truthy (iterator2 e)) (lit "," ++ show (iterator2 e)) in
    _ ← modEl el (set_forProcessed true);
    body ← genScopedSlot n key el;
    mret (lit "_l((" ++ exp ++ lit ")," ++
          lit "function(" ++ alias ++ iterator1 ++ iterator2 ++ lit "){" ++
          lit "return " ++ body ++ lit "})")
  end

with genChildren (fuel : nat) (el : nat) (checkSkip : bool)
    (altGenElement : option (nat -> G str)) (altGenNode : option (ASTNode -> G str))
    {struct fuel} : G (option str) :=
  match fuel with
  | 0 => failG
  | S n =>
    e ← getEl el;
    match children e with
    | [] => mret None
    | c0 :: rest =>
      single ← match c0, rest with
               | NElement r, [] =>
                 c ← getEl r;
                 mret (if truthy (for_ c) && negb (is_tag c "template") &&
                          negb (is_tag c "slot")
                       then Some (r, c) else None)
               | _, _ => mret None
               end;
      match single with
      | Some (r, c) =>
        st ← getState;
        let normalizationType := text_if (maybeComponent st c) (lit ",1") in
        code ← match altGenElement with Some g => g r | None => genElement n r end;
        mret (Some (code ++ normalizationType))
      | None =>
        st ← getState;
        s ← getStore;
        normalizationType ←
          (if checkSkip
           then match getNormalizationType (heap s) (children e) (maybeComponent st) with
                | Some k => mret k
                | None => failG
                end
           else mret 0);
        codes ← mapG (fun c => match altGenNode with
                               | Some g => g c
                               | None => genNode n c
                               end) (children e);
        mret (Some (lit "[" ++ join (lit ",") codes ++ lit "]" ++
                    text_if (negb (normalizationType =? 0))
                            (lit "," ++ num normalizationType)))
      end
    end
  end

with genNode (fuel : nat) (node : ASTNode) {struct fuel} : G str :=
  match fuel with
  | 0 => failG
  | S n =>
    match node with
    | NElement r => genElement n r
    | NText t true => mret (genComment t)
    | _ => match genText node with Some c => mret c | None => failG end
    end
  end

with genSlot (fuel : nat) (el : nat) {struct fuel} : G str :=
  match fuel with
  | 0 => failG
  | S n =>
    e ← getEl el;
    let slotName := or_else (slotName e) (dq ++ lit "default" ++ dq) in
    children ← genChildren n el false None None;
    let res := lit "_t(" ++ slotName ++ text_if (truthy children) (lit "," ++ show children) in
    e' ← getEl el;
    mret (genSlot_tail e' res children)
  end

with genComponent (fuel : nat) (componentName : str) (el : nat) {struct fuel} : G str :=
  match fuel with
  | 0 => failG
  | S n =>
    e ← getEl el;
    children ← (if inlineTemplate e then mret None else genChildren n el true None None);
    data ← genData n el;
    mret (lit "_c(" ++ componentName ++ lit "," ++ data ++
          text_if (truthy children) (lit "," ++ show children) ++ lit ")")
  end.

End Codegen.

(** ** Character classes and string primitives of the parsers *)

(** [\s]: white space and line terminators. *)
Definition is_ws (c : N) : bool :=
  ((9 <=? c) && (c <=? 13) || N.eqb c 32 || N.eqb c 160 || N.eqb c 5760 ||
   (8192 <=? c) && (c <=? 8202) || N.eqb c 8232 || N.eqb c 8233 ||
   N.eqb c 8239 || N.eqb c 8287 || N.eqb c 12288 || N.eqb c 65279)%N.

(** What [.] rejects. *)
Definition is_line_terminator (c : N) : bool :=
  N.eqb c 10 || N.eqb c 13 || N.eqb c 8232 || N.eqb c 8233.

Definition is_upper (c : N) : bool := (65 <=? c)%N && (c <=? 90)%N.
Definition is_lower (c : N) : bool := (97 <=? c)%N && (c <=? 122)%N.

(** [\w]. *)
Definition is_word (c : N) : bool :=
  is_upper c || is_lower c || is_digit c || N.eqb c 95.

(** [toLowerCase] on the letters a tag name can contain (the tag patterns
    admit ASCII only). *)
Definition lower_char (c : N) : N := if is_upper c then (c + 32)%N else c.
Definition toLowerCase (s : str) : str := lower_char <$> s.

(** Length of the longest prefix whose code units satisfy [p]. *)
Fixpoint span (p : N -> bool) (s : str) : nat :=
  match s with
  | c :: rest => if p c then S (span p rest) else 0
  | [] => 0
  end.

(** [s.indexOf(p)], [None] for -1. *)
Fixpoint index_of (p s : str) : option nat :=
  if starts_with p s then Some 0
  else match s with
       | [] => None
       | _ :: rest => S <$> index_of p rest
       end.

(** [s.indexOf(p, from)]. *)
Definition index_of_from (p s : str) (from : nat) : option nat :=
  (fun k => from + k) <$> index_of p (drop from s).

(** [s.substring(a, b)]: the arguments are swapped when out of order. *)
Definition substring (a b : nat) (s : str) : str :=
  take (Nat.max a b - Nat.min a b) (drop (Nat.min a b) s).

(** [s.trim()]. *)
Definition trim_start (s : str) : str := drop (span is_ws s) s.
Definition trim (s : str) : str := reverse (trim_start (reverse (trim_start s))).

(** Prefix test that ignores the case of ASCII letters (the [i] flag on a
    pattern made of ASCII letters). *)
Fixpoint starts_with_ci (p s : str) : bool :=
  match p, s with
  | [], _ => true
  | a :: p', b :: s' => N.eqb (lower_char a) (lower_char b) && starts_with_ci p' s'
  | _ :: _, [] => false
  end.

(** [makeMap(list, true)]: membership after lower-casing. *)
Definition makeMap_lower (names : list str) (v : str) : bool :=
  bool_decide (toLowerCase v ∈ names).

(** ** The text-interpolation parser *)

(** A delimiter pattern [open((?:.|\n)+?)close]; the default pattern reads
    [\r?\n] where a custom one reads [\n].  Escaping the delimiters makes
    them literal. *)
Record TagRE := mkTagRE { re_open : str; re_close : str; re_cr : bool }.

(** A pattern object with the [g] flag carries the position where the next
    search starts. *)
Record RegExpObj := mkRegExp { re_source : TagRE; lastIndex : nat }.

Definition defaultTagRE : TagRE := mkTagRE (lit "{{") (lit "}}") true.

Definition buildRegex (delimiters : str * str) : TagRE :=
  mkTagRE delimiters.1 delimiters.2 false.

(** The lazy body [(?:.|\r?\n)+?] followed by the closing delimiter: the
    number of code units of the shortest body, at least one unit long,
    after which the closing delimiter matches.  [started] tells that one
    unit has been read. *)
Fixpoint match_body (cr : bool) (close : str) (s : str) (started : bool)
    : option nat :=
  if started && starts_with close s then Some 0
  else
    match s with
    | [] => None
    | c :: rest =>
      if negb (is_line_terminator c) then S <$> match_body cr close rest true
      else if N.eqb c 10 then S <$> match_body cr close rest true
      else if cr && N.eqb c 13 then
        match rest with
        | d :: rest' =>
          if N.eqb d 10 then (fun k => S (S k)) <$> match_body cr close rest' true
          else None
        | [] => None
        end
      else None
    end.

(** The pattern anchored at the start of [s]: the length of the body. *)
Definition match_at (re : TagRE) (s : str) : option nat :=
  if starts_with (re_open re) s
  then match_body (re_cr re) (re_close re) (drop (length (re_open re)) s) false
  else None.

(** The leftmost match in [s]: its offset and the length of its body. *)
Fixpoint search (re : TagRE) (s : str) : option (nat * nat) :=
  match match_at re s with
  | Some b => Some (0, b)
  | None =>
    match s with
    | [] => None
    | _ :: rest => (fun r : nat * nat => (S r.1, r.2)) <$> search re rest
    end
  end.

Record Match := mkMatch { match_index : nat; match_0 : str; match_1 : str }.

(** [re.exec(text)] for a pattern with the [g] flag: the search starts at
    [lastIndex], which is moved past a match and reset on failure. *)
Definition exec (re : RegExpObj) (text : str) : option Match * RegExpObj :=
  if length text <? lastIndex re then (None, mkRegExp (re_source re) 0)
  else
    match search (re_source re) (drop (lastIndex re) text) with
    | Some (off, b) =>
      let i := lastIndex re + off in
      let src := re_source re in
      let len := length (re_open src) + b + length (re_close src) in
      (Some (mkMatch i (take len (drop i text))
                     (take b (drop (i + length (re_open src)) text))),
       mkRegExp src (i + len))
    | None => (None, mkRegExp (re_source re) 0)
    end.

Record TextParseResult := mkTextResult { expression : str; tokens : list Token }.

(** The module state of the text parser: the default pattern object and
    the patterns built so far for custom delimiters. *)
Record TextGlobals := mkTextGlobals {
  defaultTagRE_obj : RegExpObj;
  buildRegex_cache : list (str * str * RegExpObj)
}.

Fixpoint pair_lookup {A} (k : str * str) (c : list (str * str * A)) : option A :=
  match c with
  | [] => None
  | (k', v) :: rest => if bool_decide (k = k') then Some v else pair_lookup k rest
  end.

Fixpoint pair_store {A} (k : str * str) (v : A) (c : list (str * str * A))
    : list (str * str * A) :=
  match c with
  | [] => [(k, v)]
  | (k', v') :: rest =>
    if bool_decide (k = k') then (k, v) :: rest else (k', v') :: pair_store k v rest
  end.

(** Modelled from the spec: [cached], the memoizing wrapper of shared/util
    that is not part of the sources at hand: "a cached compiled pattern per
    distinct delimiter pair".  Here: the pattern object in use and the
    function that writes its state back. *)
Definition tagRE_of (delimiters : option (str * str)) (g : TextGlobals)
    : RegExpObj * TextGlobals :=
  match delimiters with
  | None => (defaultTagRE_obj g, g)
  | Some d =>
    match pair_lookup d (buildRegex_cache g) with
    | Some re => (re, g)
    | None =>
      let re := mkRegExp (buildRegex d) 0 in
      (re, mkTextGlobals (defaultTagRE_obj g) (pair_store d re (buildRegex_cache g)))
    end
  end.

Definition put_tagRE (delimiters : option (str * str)) (re : RegExpObj)
    (g : TextGlobals) : TextGlobals :=
  match delimiters with
  | None => mkTextGlobals re (buildRegex_cache g)
  | Some d => mkTextGlobals (defaultTagRE_obj g) (pair_store d re (buildRegex_cache g))
  end.

Section TextParser.
Context (env : Env).

(** The [while ((match = tagRE.exec(text)))] loop of [parseText]; every
    match is at least one unit long, so [length text + 1] rounds suffice
    for the budget. *)
Fixpoint parseText_loop (budget : nat) (text : str) (re : RegExpObj)
    (tokens : list str) (rawTokens : list Token) (lastIdx : nat)
    : option (list str * list Token * nat * RegExpObj) :=
  match budget with
  | 0 => None
  | S k =>
    match exec re text with
    | (Some m, re') =>
      let index := match_index m in
      let '(tokens1, rawTokens1) :=
        if lastIdx <? index
        then
          let tokenValue := take (index - lastIdx) (drop lastIdx text) in
          (tokens ++ [JSON_stringify tokenValue], rawTokens ++ [TokString tokenValue])
        else (tokens, rawTokens) in
      let exp := parseFilters env (trim (match_1 m)) in
      parseText_loop k text re'
        (tokens1 ++ [lit "_s(" ++ exp ++ lit ")"])
        (rawTokens1 ++ [TokBinding exp])
        (index + length (match_0 m))
    | (None, re') => Some (tokens, rawTokens, lastIdx, re')
    end
  end.

Definition parseText (text : str) (delimiters : option (str * str))
    (g : TextGlobals) : option (option TextParseResult * TextGlobals) :=
  let '(tagRE, g0) := tagRE_of delimiters g in
  match exec tagRE text with
  | (None, re1) => Some (None, put_tagRE delimiters re1 g0)
  | (Some _, re1) =>
    let re2 := mkRegExp (re_source re1) 0 in
    match parseText_loop (S (length text)) text re2 [] [] 0 with
    | None => None
    | Some (tokens, rawTokens, lastIdx, re3) =>
      let '(tokens, rawTokens) :=
        if lastIdx <? length text
        then
          let tokenValue := drop lastIdx text in
          (tokens ++ [JSON_stringify tokenValue], rawTokens ++ [TokString tokenValue])
        else (tokens, rawTokens) in
      Some (Some (mkTextResult (join (lit "+") tokens) rawTokens),
            put_tagRE delimiters re3 g0)
    end
  end.

End TextParser.

(** ** The markup tokenizer *)

(** *** The patterns *)

Definition is_ncname_start (c : N) : bool := is_upper c || is_lower c || N.eqb c 95.
Definition is_ncname_char (c : N) : bool := is_word c || N.eqb c 45 || N.eqb c 46.

(** [ncname]: the length of the name at the start of [s]. *)
Definition match_ncname (s : str) : option nat :=
  match s with
  | c :: rest => if is_ncname_start c then Some (S (span is_ncname_char rest)) else None
  | [] => None
  end.

(** [qnameCapture]: a name, with a prefix and a colon before it when a
    second name follows the colon. *)
Definition match_qname (s : str) : option nat :=
  match match_ncname s with
  | None => None
  | Some k1 =>
    match drop k1 s with
    | 58%N :: rest =>
      match match_ncname rest with
      | Some k2 => Some (k1 + 1 + k2)
      | None => Some k1
      end
    | _ => Some k1
    end
  end.

(** [startTagOpen]: the tag name and the length of the match. *)
Definition match_startTagOpen (s : str) : option (str * nat) :=
  match s with
  | 60%N :: rest =>
    match match_qname rest with
    | Some k => Some (take k rest, S k)
    | None => None
    end
  | _ => None
  end.

(** [startTagClose]: the captured slash and the length of the match. *)
Definition match_startTagClose (s : str) : option (str * nat) :=
  let w := span is_ws s in
  match drop w s with
  | 47%N :: 62%N :: _ => Some (lit "/", w + 2)
  | 62%N :: _ => Some ([], w + 1)
  | _ => None
  end.

(** [endTag]: the tag name and the length of the match. *)
Definition match_endTag (s : str) : option (str * nat) :=
  match s with
  | 60%N :: 47%N :: rest =>
    match match_qname rest with
    | Some k =>
      let after := drop k rest in
      let j := span (fun c => negb (N.eqb c 62)) after in
      match drop j after with
      | 62%N :: _ => Some (take k rest, 2 + k + j + 1)
      | _ => None
      end
    | None => None
    end
  | _ => None
  end.

(** [doctype]: the length of the match. *)
Definition match_doctype (s : str) : option nat :=
  if starts_with_ci (lit "<!DOCTYPE ") s
  then
    let after := drop 10 s in
    let j := span (fun c => negb (N.eqb c 62)) after in
    match j, drop j after with
    | S _, 62%N :: _ => Some (10 + j + 1)
    | _, _ => None
    end
  else None.

Definition test_comment (s : str) : bool := starts_with (lit "<!--") s.
Definition test_conditionalComment (s : str) : bool := starts_with (lit "<![") s.

(** A match of the [attribute] pattern: the length of the whole match, the
    name, and the three alternative value captures. *)
Record AttrMatch := mkAttrMatch {
  am_length : nat;
  am_name : str;
  am_quoted : option str;
  am_single : option str;
  am_bare : option str
}.

Definition is_attr_name_char (c : N) : bool :=
  negb (is_ws c || N.eqb c 34 || N.eqb c 39 || N.eqb c 60 || N.eqb c 62 ||
        N.eqb c 47 || N.eqb c 61).

Definition is_bare_value_char (c : N) : bool :=
  negb (is_ws c || N.eqb c 34 || N.eqb c 39 || N.eqb c 61 || N.eqb c 60 ||
        N.eqb c 62 || N.eqb c 96).

(** A value between two [q] quotes, the closing quote possibly repeated:
    the value and the length read after the opening quote. *)
Definition match_quoted (q : N) (s : str) : option (str * nat) :=
  let k := span (fun c => negb (N.eqb c q)) s in
  match span (N.eqb q) (drop k s) with
  | 0 => None
  | S n => Some (take k s, k + S n)
  end.

Definition match_attribute (s : str) : option AttrMatch :=
  let w := span is_ws s in
  let s1 := drop w s in
  match span is_attr_name_char s1 with
  | 0 => None
  | S n' =>
    let n := S n' in
    let name := take n s1 in
    let s2 := drop n s1 in
    let bare := mkAttrMatch (w + n) name None None None in
    let w2 := span is_ws s2 in
    match drop w2 s2 with
    | 61%N :: s3 =>
      let w3 := span is_ws s3 in
      let s4 := drop w3 s3 in
      let pre := w + n + w2 + 1 + w3 in
      match s4 with
      | 34%N :: s5 =>
        match match_quoted 34 s5 with
        | Some (v, k) => Some (mkAttrMatch (pre + 1 + k) name (Some v) None None)
        | None => Some bare
        end
      | 39%N :: s5 =>
        match match_quoted 39 s5 with
        | Some (v, k) => Some (mkAttrMatch (pre + 1 + k) name None (Some v) None)
        | None => Some bare
        end
      | _ =>
        match span is_bare_value_char s4 with
        | 0 => Some bare
        | S k' => Some (mkAttrMatch (pre + S k') name None None (Some (take (S k') s4)))
        end
      end
    | _ => Some bare
    end
  end.

(** [decodeAttr]: the replacement of the encoded entities, left to right. *)
Definition decodingMap : list (str * str) :=
  [(lit "&lt;", lit "<"); (lit "&gt;", lit ">"); (lit "&quot;", dq);
   (lit "&amp;", lit "&")].
Definition decodingMapNewlines : list (str * str) :=
  decodingMap ++ [(lit "&#10;", [10%N]); (lit "&#9;", [9%N])].

Fixpoint decode_first (m : list (str * str)) (s : str) : option (str * nat) :=
  match m with
  | [] => None
  | (k, v) :: rest => if starts_with k s then Some (v, length k) else decode_first rest s
  end.

Fixpoint decode_with (budget : nat) (m : list (str * str)) (s : str) : str :=
  match budget with
  | 0 => s
  | S b =>
    match s with
    | [] => []
    | c :: rest =>
      match decode_first m s with
      | Some (v, k) => v ++ decode_with b m (drop k s)
      | None => c :: decode_with b m rest
      end
    end
  end.

Definition decodeAttr (value : str) (shouldDecodeNewlines : bool) : str :=
  decode_with (length value)
              (if shouldDecodeNewlines then decodingMapNewlines else decodingMap) value.

Definition isPlainTextElement : str -> bool :=
  makeMap_lower [lit "script"; lit "style"; lit "textarea"].
Definition isIgnoreNewlineTag : str -> bool :=
  makeMap_lower [lit "pre"; lit "textarea"].

(** [shouldIgnoreFirstNewline(tag, html)]. *)
Definition shouldIgnoreFirstNewline (tag : option str) (html : str) : bool :=
  truthy tag && isIgnoreNewlineTag (show tag) && bool_decide (head html = Some 10%N).

(** The pattern of a raw-text element, ["([\s\S]*?)(</" + tag + "[^>]*>)"]
    with the [i] flag, is kept by the tag it was built from. *)
Definition match_stackedEnd (tag : str) (s : str) : option nat :=
  if starts_with_ci (lit "</" ++ tag) s
  then
    let after := drop (2 + length tag) s in
    let j := span (fun c => negb (N.eqb c 62)) after in
    match drop j after with
    | 62%N :: _ => Some (2 + length tag + j + 1)
    | _ => None
    end
  else None.

(** The leftmost match of the raw-text pattern: the length of the text
    before the end tag and the length of the end tag. *)
Fixpoint search_stackedEnd (tag : str) (s : str) : option (nat * nat) :=
  match match_stackedEnd tag s with
  | Some len => Some (0, len)
  | None =>
    match s with
    | [] => None
    | _ :: rest => (fun r : nat * nat => (S r.1, r.2)) <$> search_stackedEnd tag rest
    end
  end.

(** [text.replace(/<!\--([\s\S]*?)-->/g, "$1")] and the same for CDATA
    sections: every leftmost span between [o] and the nearest [c] loses
    its two markers. *)
Fixpoint unwrap_spans (budget : nat) (o c : str) (s : str) : str :=
  match budget with
  | 0 => s
  | S b =>
    match s with
    | [] => []
    | x :: rest =>
      if starts_with o s
      then
        match index_of c (drop (length o) s) with
        | Some k =>
          take k (drop (length o) s) ++
          unwrap_spans b o c (drop (length o + k + length c) s)
        | None => x :: unwrap_spans b o c rest
        end
      else x :: unwrap_spans b o c rest
    end
  end.

(** *** The tokenizer state and its callbacks *)

(** The callbacks act on a state [U] of their owner; a callback that is
    absent from the options is [None], a callback that throws returns
    [None]. *)
Record HTMLParserOptions (U : Type) := mkHTMLOptions {
  hp_warn : option (str -> U -> option U);
  hp_expectHTML : bool;
  hp_isUnaryTag : option (str -> bool);
  hp_canBeLeftOpenTag : option (str -> bool);
  hp_shouldDecodeNewlines : bool;
  hp_shouldDecodeNewlinesForHref : bool;
  hp_shouldKeepComment : bool;
  hp_start : option (str -> list Attr -> bool -> nat -> nat -> U -> option U);
  hp_end : option (str -> nat -> nat -> U -> option U);
  hp_chars : option (str -> U -> option U);
  hp_comment : option (str -> U -> option U)
}.
Arguments mkHTMLOptions {U}.
Arguments hp_warn {U}.
Arguments hp_expectHTML {U}.
Arguments hp_isUnaryTag {U}.
Arguments hp_canBeLeftOpenTag {U}.
Arguments hp_shouldDecodeNewlines {U}.
Arguments hp_shouldDecodeNewlinesForHref {U}.
Arguments hp_shouldKeepComment {U}.
Arguments hp_start {U}.
Arguments hp_end {U}.
Arguments hp_chars {U}.
Arguments hp_comment {U}.

Record StackEntry := mkEntry {
  entry_tag : str;
  entry_lowerCasedTag : str;
  entry_attrs : list Attr
}.

(** The variables of one [parseHTML] call.  The open-tag stack is kept
    with its top (the array's last element) first.  [lastTag] is absent
    both when it is [undefined] and when it is the number 0.  [reCache] is
    the module-level cache of raw-text patterns. *)
Record TState (U : Type) := mkTState {
  html : str;
  index : nat;
  lastTag : option str;
  stack : list StackEntry;
  reCache : list (str * str);
  user : U
}.
Arguments mkTState {U}.
Arguments html {U}.
Arguments index {U}.
Arguments lastTag {U}.
Arguments stack {U}.
Arguments reCache {U}.
Arguments user {U}.

Definition T (U A : Type) : Type := TState U -> option (A * TState U).

#[global] Instance T_ret U : MRet (T U) := fun A a ts => Some (a, ts).
#[global] Instance T_bind U : MBind (T U) := fun A B f m ts =>
  match m ts with
  | Some (a, ts') => f a ts'
  | None => None
  end.

(** Reading one variable of the tokenizer. *)
Definition readT {U A} (f : TState U -> A) : T U A := fun ts => Some (f ts, ts).
Definition modT {U} (f : TState U -> TState U) : T U unit := fun ts => Some (tt, f ts).
Definition failT {U A} : T U A := fun _ => None.
Definition whenT {U} (b : bool) (m : T U unit) : T U unit := if b then m else mret tt.

(** A callback, run on the owner's state. *)
Definition callT {U} (f : U -> option U) : T U unit :=
  fun ts =>
    match f (user ts) with
    | Some u => Some (tt, mkTState (html ts) (index ts) (lastTag ts) (stack ts) (reCache ts) u)
    | None => None
    end.

(** A callback that is invoked only when the options provide it. *)
Definition callT_opt {U} (f : option (U -> option U)) : T U unit :=
  match f with
  | Some g => callT g
  | None => mret tt
  end.

Definition set_html {U} (h : str) (ts : TState U) : TState U :=
  mkTState h (index ts) (lastTag ts) (stack ts) (reCache ts) (user ts).
Definition set_index {U} (i : nat) (ts : TState U) : TState U :=
  mkTState (html ts) i (lastTag ts) (stack ts) (reCache ts) (user ts).
Definition set_lastTag {U} (t : option str) (ts : TState U) : TState U :=
  mkTState (html ts) (index ts) t (stack ts) (reCache ts) (user ts).
Definition set_stack {U} (st : list StackEntry) (ts : TState U) : TState U :=
  mkTState (html ts) (index ts) (lastTag ts) st (reCache ts) (user ts).
Definition set_reCache {U} (c : list (str * str)) (ts : TState U) : TState U :=
  mkTState (html ts) (index ts) (lastTag ts) (stack ts) c (user ts).

Record StartTagMatch := mkStartTagMatch {
  m_tagName : str;
  m_attrs : list AttrMatch;
  m_start : nat;
  m_unarySlash : str;
  m_end : nat
}.

Section HTMLParser.
Context (env : Env) {U : Type} (o : HTMLParserOptions U).

(** [advance(n)]. *)
Definition advance (n : nat) : T U unit :=
  modT (fun ts => set_html (drop n (html ts)) (set_index (index ts + n) ts)).

Definition noMatchingEndTag (tag : str) : str :=
  lit "tag <" ++ tag ++ lit "> has no matching end tag.".

(** The closing loop of [parseEndTag], from the top of the stack down to
    the entry at [pos], which is the last of [entries]: every entry above
    [pos], and every entry when no tag name was given, is diagnosed; each
    one gets its end event. *)
Fixpoint closeTags (named : bool) (start end_ : nat) (entries : list StackEntry)
    : T U unit :=
  match entries with
  | [] => mret tt
  | e :: rest =>
    _ ← whenT (negb (production env) &&
               (negb (bool_decide (rest = [])) || negb named))
              (callT_opt ((fun w => w (noMatchingEndTag (entry_tag e))) <$> hp_warn o));
    _ ← callT_opt ((fun f => f (entry_tag e) start end_) <$> hp_end o);
    closeTags named start end_ rest
  end.

(** [parseEndTag(tagName, start, end)]; each argument may be omitted. *)
Definition parseEndTag (tagName : option str) (start end_ : option nat) : T U unit :=
  index_ ← readT index;
  stack_ ← readT stack;
  let start := default index_ start in
  let end_ := default index_ end_ in
  let lowerCasedTagName :=
    if truthy tagName then Some (toLowerCase (show tagName)) else None in
  (* the number of entries from the top down to [pos], when [pos >= 0] *)
  let closing :=
    if truthy tagName
    then (fun r : nat * StackEntry => S r.1) <$>
           list_find (fun e => Some (entry_lowerCasedTag e) = lowerCasedTagName) stack_
    else Some (length stack_) in
  match closing with
  | Some cnt =>
    _ ← closeTags (truthy tagName) start end_ (take cnt stack_);
    modT (fun ts => set_lastTag (entry_tag <$> head (drop cnt stack_))
                      (set_stack (drop cnt stack_) ts))
  | None =>
    if bool_decide (lowerCasedTagName = Some (lit "br"))
    then callT_opt ((fun f => f (show tagName) [] true start end_) <$> hp_start o)
    else if bool_decide (lowerCasedTagName = Some (lit "p"))
    then
      _ ← callT_opt ((fun f => f (show tagName) [] false start end_) <$> hp_start o);
      callT_opt ((fun f => f (show tagName) start end_) <$> hp_end o)
    else mret tt
  end.

(** The attribute loop of [parseStartTag]: it stops at the closing of the
    start tag or where no attribute matches. *)
Fixpoint parseStartTag_attrs (budget : nat) (acc : list AttrMatch)
    : T U (option (str * nat) * list AttrMatch) :=
  match budget with
  | 0 => failT
  | S b =>
    h ← readT html;
    match match_startTagClose h with
    | Some e => mret (Some e, acc)
    | None =>
      match match_attribute h with
      | Some attr =>
        _ ← advance (am_length attr);
        parseStartTag_attrs b (acc ++ [attr])
      | None => mret (None, acc)
      end
    end
  end.

(** [parseStartTag]: the text is consumed also when no closing is found. *)
Definition parseStartTag : T U (option StartTagMatch) :=
  h ← readT html;
  match match_startTagOpen h with
  | None => mret None
  | Some (tagName, len) =>
    start ← readT index;
    _ ← advance len;
    h1 ← readT html;
    '(e, attrs) ← parseStartTag_attrs (S (length h1)) [];
    match e with
    | Some (unarySlash, elen) =>
      _ ← advance elen;
      end_ ← readT index;
      mret (Some (mkStartTagMatch tagName attrs start unarySlash end_))
    | None => mret None
    end
  end.

(** [args[3] || args[4] || args[5] || ""]. *)
Definition attr_value_of (a : AttrMatch) : str :=
  if truthy (am_quoted a) then show (am_quoted a)
  else if truthy (am_single a) then show (am_single a)
  else if truthy (am_bare a) then show (am_bare a)
  else [].

Definition handleStartTag_attr (tagName : str) (a : AttrMatch) : Attr :=
  let shouldDecodeNewlines :=
    if bool_decide (tagName = lit "a") && bool_decide (am_name a = lit "href")
    then hp_shouldDecodeNewlinesForHref o
    else hp_shouldDecodeNewlines o in
  mkAttr (am_name a) (decodeAttr (attr_value_of a) shouldDecodeNewlines).

(** [handleStartTag(match)]. *)
Definition handleStartTag (m : StartTagMatch) : T U unit :=
  let tagName := m_tagName m in
  let unarySlash := m_unarySlash m in
  _ ← whenT (hp_expectHTML o)
        (lastTag_ ← readT lastTag;
         _ ← whenT (bool_decide (lastTag_ = Some (lit "p")) &&
                    isNonPhrasingTag env tagName)
                   (parseEndTag lastTag_ None None);
         lastTag_ ← readT lastTag;
         whenT (default (fun _ => false) (hp_canBeLeftOpenTag o) tagName &&
                bool_decide (lastTag_ = Some tagName))
               (parseEndTag (Some tagName) None None));
  let unary := default (fun _ => false) (hp_isUnaryTag o) tagName || nonempty unarySlash in
  let attrs := handleStartTag_attr tagName <$> m_attrs m in
  _ ← whenT (negb unary)
        (modT (fun ts => set_lastTag (Some tagName)
                           (set_stack (mkEntry tagName (toLowerCase tagName) attrs :: stack ts) ts)));
  callT_opt ((fun f => f tagName attrs unary (m_start m) (m_end m)) <$> hp_start o).

(** The tag alternatives tried when the text starts with [<]; [true] when
    one of them has consumed its match ([continue]). *)
Definition parseTag : T U bool :=
  h ← readT html;
  match (if test_comment h then index_of (lit "-->") h else None) with
  | Some commentEnd =>
    _ ← whenT (hp_shouldKeepComment o)
          (match hp_comment o with
           | Some f => callT (f (substring 4 commentEnd h))
           | None => failT
           end);
    _ ← advance (commentEnd + 3);
    mret true
  | None =>
    match (if test_conditionalComment h then index_of (lit "]>") h else None) with
    | Some conditionalEnd => _ ← advance (conditionalEnd + 2); mret true
    | None =>
      match match_doctype h with
      | Some len => _ ← advance len; mret true
      | None =>
        match match_endTag h with
        | Some (name, len) =>
          curIndex ← readT index;
          _ ← advance len;
          index_ ← readT index;
          _ ← parseEndTag (Some name) (Some curIndex) (Some index_);
          mret true
        | None =>
          startTagMatch ← parseStartTag;
          match startTagMatch with
          | Some m =>
            _ ← handleStartTag m;
            lastTag_ ← readT lastTag;
            h' ← readT html;
            _ ← whenT (shouldIgnoreFirstNewline lastTag_ h') (advance 1);
            mret true
          | None => mret false
          end
        end
      end
    end
  end.

(** The forgiving scan for the end of a text: a [<] that starts neither a
    tag nor a comment is text. *)
Fixpoint textEnd_scan (budget : nat) (h : str) (textEnd : nat) : option nat :=
  match budget with
  | 0 => None
  | S b =>
    let rest := drop textEnd h in
    if negb (bool_decide (match_endTag rest <> None)) &&
       negb (bool_decide (match_startTagOpen rest <> None)) &&
       negb (test_comment rest) && negb (test_conditionalComment rest)
    then
      match index_of_from (lit "<") rest 1 with
      | Some next => textEnd_scan b h (textEnd + next)
      | None => Some textEnd
      end
    else Some textEnd
  end.

(** The text branch of the loop body. *)
Definition parseTextPart (textEnd : option nat) : T U unit :=
  h ← readT html;
  text ← match textEnd with
         | Some te =>
           match textEnd_scan (S (length h)) h te with
           | Some te' => _ ← advance te'; mret (substring 0 te' h)
           | None => failT
           end
         | None => _ ← modT (set_html []); mret h
         end;
  whenT (nonempty text) (callT_opt ((fun f => f text) <$> hp_chars o)).

(** [reCache[stackedTag] || (reCache[stackedTag] = new RegExp(...))]. *)
Definition stackedPattern (stackedTag : str) : T U str :=
  fun ts =>
    match obj_get stackedTag (reCache ts) with
    | Some re => Some (re, ts)
    | None => Some (stackedTag, set_reCache (obj_set stackedTag stackedTag (reCache ts)) ts)
    end.

(** The branch of the loop body for the content of a raw-text element. *)
Definition parsePlainText : T U unit :=
  lastTag_ ← readT lastTag;
  let stackedTag := toLowerCase (show lastTag_) in
  reStackedTag ← stackedPattern stackedTag;
  h ← readT html;
  '(rest, endTagLength) ←
    match search_stackedEnd reStackedTag h with
    | Some (k, len) =>
      let text := take k h in
      let text :=
        if negb (isPlainTextElement stackedTag) &&
           negb (bool_decide (stackedTag = lit "noscript"))
        then unwrap_spans (length text) (lit "<![CDATA[") (lit "]]>")
               (unwrap_spans (length text) (lit "<!--") (lit "-->") text)
        else text in
      let text := if shouldIgnoreFirstNewline (Some stackedTag) text
                  then drop 1 text else text in
      _ ← callT_opt ((fun f => f text) <$> hp_chars o);
      mret (drop (k + len) h, len)
    | None => mret (h, 0)
    end;
  _ ← modT (fun ts => set_html rest (set_index (index ts + (length h - length rest)) ts));
  index_ ← readT index;
  parseEndTag (Some stackedTag) (Some (index_ - endTagLength)) (Some index_).

Definition malformedTag (h : str) : str :=
  lit "Mal-formatted tag at end of template: " ++ dq ++ h ++ dq.

(** One round of the [while (html)] loop; [false] is [break]. *)
Definition parseHTML_step : T U bool :=
  last ← readT html;
  lastTag_ ← readT lastTag;
  handled ←
    (if negb (truthy lastTag_) || negb (isPlainTextElement (show lastTag_))
     then
       let textEnd := index_of (lit "<") last in
       tagged ← (if bool_decide (textEnd = Some 0) then parseTag else mret false);
       if tagged : bool then mret true
       else _ ← parseTextPart textEnd; mret false
     else _ ← parsePlainText; mret false);
  if handled : bool then mret true
  else
    h ← readT html;
    if bool_decide (h = last)
    then
      _ ← callT_opt ((fun f => f h) <$> hp_chars o);
      stack_ ← readT stack;
      _ ← whenT (negb (production env) && negb (nonempty stack_))
            (callT_opt ((fun w => w (malformedTag h)) <$> hp_warn o));
      mret false
    else mret true.

(** The loop; a round that does not stop shortens the text, so
    [length html + 1] rounds suffice for the budget. *)
Fixpoint parseHTML_loop (budget : nat) : T U unit :=
  match budget with
  | 0 => failT
  | S b =>
    h ← readT html;
    if nonempty h
    then continue ← parseHTML_step; if continue : bool then parseHTML_loop b else mret tt
    else mret tt
  end.

(** [parseHTML(html, options)], with the module-level pattern cache and
    the owner's state passed in and out. *)
Definition parseHTML (h : str) (cache : list (str * str)) (u : U)
    : option (list (str * str) * U) :=
  match (_ ← parseHTML_loop (S (length h)); parseEndTag None None None)
          (mkTState h 0 None [] cache u) with
  | Some (_, ts) => Some (reCache ts, user ts)
  | None => None
  end.

End HTMLParser.

(** ** The AST builder *)

(** The module-level variables that [parse] assigns from its options
    before anything else. *)
Record ParserConfig := mkConfig {
  delimiters : option (str * str);
  cfg_transforms : list NodeTransform;
  preTransforms : list NodeTransform;
  postTransforms : list (nat -> Store -> Store);
  platformIsPreTag : str -> bool;
  platformMustUseProp : str -> option str -> str -> bool;
  platformGetTagNamespace : str -> option str
}.

(** The state around one [parse] call: the store, the module state of the
    parser and of the text parser (they outlive the call), and the local
    variables of [parse] that its callbacks share. *)
Record PState := mkPState {
  store : Store;
  textGlobals : TextGlobals;
  decodeCache : list (str * str);
  config : option ParserConfig;
  pstack : list nat;
  root : option nat;
  currentParent : option nat;
  inVPre : bool;
  inPre : bool;
  warned : bool
}.

Definition set_store (v : Store) (p : PState) : PState :=
  mkPState v (textGlobals p) (decodeCache p) (config p) (pstack p) (root p)
           (currentParent p) (inVPre p) (inPre p) (warned p).
Definition set_textGlobals (v : TextGlobals) (p : PState) : PState :=
  mkPState (store p) v (decodeCache p) (config p) (pstack p) (root p)
           (currentParent p) (inVPre p) (inPre p) (warned p).
Definition set_decodeCache (v : list (str * str)) (p : PState) : PState :=
  mkPState (store p) (textGlobals p) v (config p) (pstack p) (root p)
           (currentParent p) (inVPre p) (inPre p) (warned p).
Definition set_config (v : option ParserConfig) (p : PState) : PState :=
  mkPState (store p) (textGlobals p) (decodeCache p) v (pstack p) (root p)
           (currentParent p) (inVPre p) (inPre p) (warned p).
Definition set_pstack (v : list nat) (p : PState) : PState :=
  mkPState (store p) (textGlobals p) (decodeCache p) (config p) v (root p)
           (currentParent p) (inVPre p) (inPre p) (warned p).
Definition set_root (v : option nat) (p : PState) : PState :=
  mkPState (store p) (textGlobals p) (decodeCache p) (config p) (pstack p) v
           (currentParent p) (inVPre p) (inPre p) (warned p).
Definition set_currentParent (v : option nat) (p : PState) : PState :=
  mkPState (store p) (textGlobals p) (decodeCache p) (config p) (pstack p) (root p)
           v (inVPre p) (inPre p) (warned p).
Definition set_inVPre (v : bool) (p : PState) : PState :=
  mkPState (store p) (textGlobals p) (decodeCache p) (config p) (pstack p) (root p)
           (currentParent p) v (inPre p) (warned p).
Definition set_inPre (v : bool) (p : PState) : PState :=
  mkPState (store p) (textGlobals p) (decodeCache p) (config p) (pstack p) (root p)
           (currentParent p) (inVPre p) v (warned p).
Definition set_warned (v : bool) (p : PState) : PState :=
  mkPState (store p) (textGlobals p) (decodeCache p) (config p) (pstack p) (root p)
           (currentParent p) (inVPre p) (inPre p) v.

Definition P (A : Type) : Type := PState -> option (A * PState).

#[global] Instance P_ret : MRet P := fun A a p => Some (a, p).
#[global] Instance P_bind : MBind P := fun A B f m p =>
  match m p with
  | Some (a, p') => f a p'
  | None => None
  end.

Definition failP {A} : P A := fun _ => None.
(** Reading one variable of the parser. *)
Definition readP {A} (f : PState -> A) : P A := fun p => Some (f p, p).
Definition readHeap : P (list ASTElement) := readP (fun p => heap (store p)).
Definition modP (f : PState -> PState) : P unit := fun p => Some (tt, f p).
Definition whenP (b : bool) (m : P unit) : P unit := if b then m else mret tt.

Definition getConfig : P ParserConfig :=
  fun p => match config p with Some c => Some (c, p) | None => None end.

(** Reading, updating and creating an element of the store. *)
Definition getElP (r : nat) : P ASTElement :=
  fun p => match heap (store p) !! r with Some e => Some (e, p) | None => None end.
Definition setElP (r : nat) (e : ASTElement) : P unit :=
  fun p =>
    if bool_decide (r < length (heap (store p)))
    then Some (tt, set_store (mkStore (<[r := e]> (heap (store p))) (log (store p))) p)
    else None.
Definition modElP (r : nat) (f : ASTElement -> ASTElement) : P unit :=
  e ← getElP r; setElP r (f e).
Definition allocP (e : ASTElement) : P nat :=
  fun p => Some (length (heap (store p)),
                 set_store (mkStore (heap (store p) ++ [e]) (log (store p))) p).

(** The diagnostic sink [warn]. *)
Definition warnP (m : str) (t : bool) : P unit :=
  modP (fun p => set_store (mkStore (heap (store p)) (log (store p) ++ [mkDiag m t])) p).

Fixpoint forP {A} (f : A -> P unit) (l : list A) : P unit :=
  match l with
  | [] => mret tt
  | x :: rest => _ ← f x; forP f rest
  end.

(** [s.replace(stripParensRE, '')]. *)
Definition stripParens (s : str) : str :=
  let s1 := match s with 40%N :: rest => rest | _ => s end in
  match last s1 with
  | Some 41%N => drop_last s1
  | _ => s1
  end.

(** [forAliasRE]: the two captures around the first [in] or [of] that
    stands between white space. *)
Fixpoint match_forAlias (s : str) (k : nat) (whole : str) : option (str * str) :=
  let w := span is_ws s in
  let after := drop w s in
  let hit :=
    match w with
    | 0 => None
    | S _ =>
      if starts_with (lit "in") after || starts_with (lit "of") after
      then
        match span is_ws (drop 2 after) with
        | 0 => None
        | S w2 => Some (take k whole, drop (2 + S w2) after)
        end
      else None
    end in
  match hit with
  | Some r => Some r
  | None =>
    match s with
    | [] => None
    | _ :: rest => match_forAlias rest (S k) whole
    end
  end.

Definition is_iterator_char (c : N) : bool :=
  negb (N.eqb c 44 || N.eqb c 125 || N.eqb c 93).

(** [forIteratorRE]: the offset of the match and its two captures. *)
Fixpoint match_forIterator (s : str) (k : nat) : option (nat * str * option str) :=
  let hit :=
    match s with
    | 44%N :: rest =>
      let r1 := span is_iterator_char rest in
      match drop r1 rest with
      | [] => Some (k, take r1 rest, None)
      | 44%N :: rest2 =>
        let r2 := span is_iterator_char rest2 in
        match drop r2 rest2 with
        | [] => Some (k, take r1 rest, Some (take r2 rest2))
        | _ => None
        end
      | _ => None
      end
    | _ => None
    end in
  match hit with
  | Some r => Some r
  | None =>
    match s with
    | [] => None
    | _ :: rest => match_forIterator rest (S k)
    end
  end.

Record ForParseResult := mkForResult {
  res_for : str;
  res_alias : str;
  res_iterator1 : option str;
  res_iterator2 : option str
}.

(** [parseFor]. *)
Definition parseFor (exp : str) : option ForParseResult :=
  match match_forAlias exp 0 exp with
  | None => None
  | Some (m1, m2) =>
    let for_ := trim m2 in
    let alias := stripParens (trim m1) in
    match match_forIterator alias 0 with
    | Some (k, i1, i2) =>
      Some (mkForResult for_ (trim (take k alias)) (Some (trim i1))
              (if truthy i2 then Some (trim (show i2)) else None))
    | None => Some (mkForResult for_ alias None None)
    end
  end.

(** [extend(el, res)] for a [parseFor] result: absent iterators are not
    assigned. *)
Definition extend_for (res : ForParseResult) (el : ASTElement) : ASTElement :=
  let el := set_alias (Some (res_alias res)) (set_for (Some (res_for res)) el) in
  let el := match res_iterator1 res with
            | Some i => set_iterator1 (Some i) el
            | None => el
            end in
  match res_iterator2 res with
  | Some i => set_iterator2 (Some i) el
  | None => el
  end.

(** [addIfCondition]. *)
Definition addIfCondition (condition : ASTIfCondition) (el : ASTElement) : ASTElement :=
  set_ifConditions (Some (default [] (ifConditions el) ++ [condition])) el.

(** [modifierRE], every match: a dot and what follows up to the next dot. *)
Fixpoint modifier_matches (budget : nat) (s : str) : list str :=
  match budget with
  | 0 => []
  | S b =>
    match s with
    | [] => []
    | 46%N :: rest =>
      match span (fun c => negb (N.eqb c 46)) rest with
      | 0 => modifier_matches b rest
      | S k => take (S k) rest :: modifier_matches b (drop (S k) rest)
      end
    | _ :: rest => modifier_matches b rest
    end
  end.

(** [name.replace(modifierRE, '')]. *)
Fixpoint strip_modifiers (budget : nat) (s : str) : str :=
  match budget with
  | 0 => s
  | S b =>
    match s with
    | [] => []
    | 46%N :: rest =>
      match span (fun c => negb (N.eqb c 46)) rest with
      | 0 => 46%N :: strip_modifiers b rest
      | S k => strip_modifiers b (drop (S k) rest)
      end
    | c :: rest => c :: strip_modifiers b rest
    end
  end.

(** [parseModifiers]. *)
Definition parseModifiers (name : str) : option (list (str * bool)) :=
  match modifier_matches (length name) name with
  | [] => None
  | ms => Some (foldl (fun ret m => obj_assign m true ret) [] ms)
  end.

(** [dirRE], [bindRE] and [onRE]: the length of the matched prefix. *)
Definition test_dirRE (name : str) : bool :=
  starts_with (lit "v-") name || starts_with (lit "@") name || starts_with (lit ":") name.
Definition match_bindRE (name : str) : option nat :=
  if starts_with (lit ":") name then Some 1
  else if starts_with (lit "v-bind:") name then Some 7 else None.
Definition match_onRE (name : str) : option nat :=
  if starts_with (lit "@") name then Some 1
  else if starts_with (lit "v-on:") name then Some 5 else None.
Definition strip_dirRE (name : str) : str :=
  if starts_with (lit "v-") name then drop 2 name
  else if starts_with (lit "@") name || starts_with (lit ":") name then drop 1 name
  else name.

(** [argRE]: what follows the first colon after which no line terminator
    occurs. *)
Fixpoint match_argRE (s : str) : option str :=
  match s with
  | [] => None
  | c :: rest =>
    if N.eqb c 58 && forallb (fun c => negb (is_line_terminator c)) rest
    then Some rest
    else match_argRE rest
  end.

(** [ieNSBug] and [ieNSPrefix]. *)
Definition test_ieNSBug (name : str) : bool :=
  starts_with (lit "xmlns:NS") name &&
  match span is_digit (drop 8 name) with 0 => false | _ => true end.

Definition strip_ieNSPrefix (name : str) : str :=
  if starts_with (lit "NS") name
  then
    match span is_digit (drop 2 name) with
    | 0 => name
    | S k =>
      match drop (2 + S k) name with
      | 58%N :: rest => rest
      | _ => name
      end
    end
  else name.

Definition guardIESVGBug (attrs : list Attr) : list Attr :=
  (fun a => mkAttr (strip_ieNSPrefix (attr_name a)) (attr_value a)) <$>
    filter (fun a => test_ieNSBug (attr_name a) = false) attrs.

Definition isTextTag (el : ASTElement) : bool := is_tag el "script" || is_tag el "style".

Definition isForbiddenTag (el : ASTElement) : bool :=
  is_tag el "style" ||
  (is_tag el "script" &&
   (negb (truthy (obj_get (lit "type") (attrsMap el))) ||
    bool_decide (obj_get (lit "type") (attrsMap el) = Some (lit "text/javascript")))).

Section Parser.
Context (env : Env).

Definition devWarnP (m : str) : P unit :=
  whenP (negb (production env)) (warnP m false).

(** [makeAttrsMap]: the map is [attrs_map_of], built on [{}]; a name
    under which the map holds something truthy, an earlier value or an
    inherited member, is diagnosed. *)
Fixpoint makeAttrsMap_warn (m : list (str * str)) (attrs : list Attr) : P unit :=
  match attrs with
  | [] => mret tt
  | a :: rest =>
    _ ← whenP (negb (production env) && member_truthy (attr_name a) m &&
               negb (isIE env) && negb (isEdge env))
              (warnP (lit "duplicate attribute: " ++ attr_name a) false);
    makeAttrsMap_warn (obj_assign (attr_name a) (attr_value a) m) rest
  end.

(** [createASTElement] as [parse] uses it: a new object of the store. *)
Definition createASTElementP (t : str) (attrs : list Attr) (p : option nat) : P nat :=
  _ ← makeAttrsMap_warn [] attrs;
  allocP (createASTElement t attrs p).

(** [warnOnce]. *)
Definition warnOnce (m : str) : P unit :=
  warned_ ← readP warned;
  whenP (negb warned_) (_ ← modP (set_warned true); warnP m false).

(** Running a hook of the platform on the store. *)
Definition runTransform (t : NodeTransform) (el : nat) : P (option nat) :=
  fun p => let '(r, s) := t el (store p) in Some (r, set_store s p).

(** [for (...) element = hooks[i](element, options) || element]. *)
Fixpoint applyTransforms (ts : list NodeTransform) (el : nat) : P nat :=
  match ts with
  | [] => mret el
  | t :: rest => r ← runTransform t el; applyTransforms rest (default el r)
  end.

(** [closeElement]. *)
Definition closeElement (element : nat) : P unit :=
  e ← getElP element;
  c ← getConfig;
  _ ← whenP (pre e) (modP (set_inVPre false));
  _ ← whenP (platformIsPreTag c (tag e)) (modP (set_inPre false));
  forP (fun f : nat -> Store -> Store => modP (fun p => set_store (f element (store p)) p))
       (postTransforms c).

(** [processPre]. *)
Definition processPre (el : nat) : P unit :=
  e ← getElP el;
  let '(v, e') := getAndRemoveAttr env e (lit "v-pre") in
  setElP el (if bool_decide (v <> None) then set_pre true e' else e').

(** [processRawAttrs]. *)
Definition processRawAttrs (el : nat) : P unit :=
  e ← getElP el;
  match attrsList e with
  | [] => whenP (negb (pre e)) (setElP el (set_plain true e))
  | l => setElP el (set_attrs
                      (Some ((fun a => mkAttr (attr_name a) (JSON_stringify (attr_value a))) <$> l))
                      e)
  end.

(** [processFor]. *)
Definition processFor (el : nat) : P unit :=
  e ← getElP el;
  let '(exp, e') := getAndRemoveAttr env e (lit "v-for") in
  _ ← setElP el e';
  if truthy exp
  then
    match parseFor (show exp) with
    | Some res => setElP el (extend_for res e')
    | None => devWarnP (lit "Invalid v-for expression: " ++ show exp)
    end
  else mret tt.

(** [processIf]. *)
Definition processIf (el : nat) : P unit :=
  e ← getElP el;
  let '(exp, e1) := getAndRemoveAttr env e (lit "v-if") in
  if truthy exp
  then setElP el (addIfCondition (mkCond exp el) (set_if exp e1))
  else
    let '(els, e2) := getAndRemoveAttr env e1 (lit "v-else") in
    let e3 := if bool_decide (els <> None) then set_else true e2 else e2 in
    let '(elseif, e4) := getAndRemoveAttr env e3 (lit "v-else-if") in
    setElP el (if truthy elseif then set_elseif elseif e4 else e4).

(** [findPrevElement], on the children array read from its end: the text
    nodes passed over are popped, one that is not the single space is
    diagnosed; the result is the array that is left and the element
    found.  [rev] is the array reversed. *)
Fixpoint findPrevElement_from (rev : list ASTNode) : P (list ASTNode * option nat) :=
  match rev with
  | [] => mret ([], None)
  | NElement r :: _ => mret (rev, Some r)
  | NExpression _ _ text :: rest | NText text _ :: rest =>
    _ ← whenP (negb (production env) && negb (bool_decide (text = lit " ")))
          (warnP (lit "text " ++ dq ++ trim text ++ dq ++
                  lit " between v-if and v-else(-if) " ++ lit "will be ignored.") false);
    findPrevElement_from rest
  end.

(** [findPrevElement(parent.children)]: the array is updated in place. *)
Definition findPrevElement (parent : nat) : P (option nat) :=
  pe ← getElP parent;
  '(rev, found) ← findPrevElement_from (reverse (children pe));
  _ ← modElP parent (set_children (reverse rev));
  mret found.

Definition noMatchingIf (e : ASTElement) : str :=
  lit "v-" ++
  (if truthy (elseif e) then lit "else-if=" ++ dq ++ show (elseif e) ++ dq else lit "else") ++
  lit " " ++ lit "used on element <" ++ tag e ++ lit "> without corresponding v-if.".

(** [processIfConditions]. *)
Definition processIfConditions (el : nat) (parent : nat) : P unit :=
  prev ← findPrevElement parent;
  hasIf ← match prev with
          | Some r => pe ← getElP r; mret (truthy (if_ pe))
          | None => mret false
          end;
  e ← getElP el;
  match prev, hasIf with
  | Some r, true => modElP r (addIfCondition (mkCond (elseif e) el))
  | _, _ => devWarnP (noMatchingIf e)
  end.

(** [processOnce]. *)
Definition processOnce (el : nat) : P unit :=
  e ← getElP el;
  let '(once, e') := getAndRemoveAttr env e (lit "v-once") in
  setElP el (if bool_decide (once <> None) then set_once true e' else e').

(** [processKey]. *)
Definition processKey (el : nat) : P unit :=
  e ← getElP el;
  let '(exp, e') := getBindingAttr env e (lit "key") in
  _ ← setElP el e';
  if truthy exp
  then
    _ ← whenP (negb (production env) && is_tag e' "template")
          (warnP (lit "<template> cannot be keyed. Place the key on real elements instead.") false);
    modElP el (set_key exp)
  else mret tt.

(** [checkInFor]: the walk starts at the element itself. *)
Fixpoint checkInFor (budget : nat) (h : list ASTElement) (p : option nat) : option bool :=
  match p with
  | None => Some false
  | Some r =>
    match budget with
    | 0 => None
    | S b =>
      match h !! r with
      | None => None
      | Some e => if bool_decide (for_ e <> None) then Some true else checkInFor b h (parent e)
      end
    end
  end.

(** [processRef]. *)
Definition processRef (el : nat) : P unit :=
  e ← getElP el;
  let '(ref, e') := getBindingAttr env e (lit "ref") in
  _ ← setElP el e';
  if truthy ref
  then
    h ← readHeap;
    match checkInFor (S (length h)) h (Some el) with
    | Some b => modElP el (fun e => set_refInFor b (set_ref ref e))
    | None => failP
    end
  else mret tt.

Definition slotKeyWarning : str :=
  lit "`key` does not work on <slot> because slots are abstract outlets " ++
  lit "and can possibly expand into multiple elements. " ++
  lit "Use the key on a wrapping element instead.".

Definition scopeDeprecated : str :=
  lit "the " ++ dq ++ lit "scope" ++ dq ++ lit " attribute for scoped slots have been deprecated and " ++
  lit "replaced by " ++ dq ++ lit "slot-scope" ++ dq ++ lit " since 2.5. The new " ++ dq ++
  lit "slot-scope" ++ dq ++ lit " attribute " ++
  lit "can also be used on plain elements in addition to <template> to " ++
  lit "denote scoped slots.".

Definition slotScopeFor (e : ASTElement) : str :=
  lit "Ambiguous combined usage of slot-scope and v-for on <" ++ tag e ++ lit "> " ++
  lit "(v-for takes higher priority). Use a wrapper <template> for the " ++
  lit "scoped slot to make it clearer.".

(** [processSlot]. *)
Definition processSlot (el : nat) : P unit :=
  e ← getElP el;
  if is_tag e "slot"
  then
    let '(name, e') := getBindingAttr env e (lit "name") in
    _ ← setElP el (set_slotName name e');
    whenP (negb (production env) && truthy (key e')) (warnP slotKeyWarning false)
  else
    e1 ← (if is_tag e "template"
          then
            let '(slotScope, e1) := getAndRemoveAttr env e (lit "scope") in
            _ ← whenP (negb (production env) && truthy slotScope) (warnP scopeDeprecated true);
            if truthy slotScope then mret (set_slotScope slotScope e1)
            else
              let '(ss, e2) := getAndRemoveAttr env e1 (lit "slot-scope") in
              mret (set_slotScope ss e2)
          else
            let '(slotScope, e1) := getAndRemoveAttr env e (lit "slot-scope") in
            if truthy slotScope
            then
              _ ← whenP (negb (production env) && truthy (obj_get (lit "v-for") (attrsMap e1)))
                    (warnP (slotScopeFor e1) true);
              mret (set_slotScope slotScope e1)
            else mret e1);
    let '(slotTarget, e2) := getBindingAttr env e1 (lit "slot") in
    if truthy slotTarget
    then
      let e3 := set_slotTarget
                  (if bool_decide (slotTarget = Some (dq ++ dq))
                   then Some (dq ++ lit "default" ++ dq) else slotTarget) e2 in
      setElP el (if negb (is_tag e3 "template") && negb (truthy (slotScope e3))
                 then addAttr env e3 (lit "slot") (show slotTarget)
                 else e3)
    else setElP el e2.

(** [processComponent]. *)
Definition processComponent (el : nat) : P unit :=
  e ← getElP el;
  let '(binding, e1) := getBindingAttr env e (lit "is") in
  let e2 := if truthy binding then set_component binding e1 else e1 in
  let '(inline, e3) := getAndRemoveAttr env e2 (lit "inline-template") in
  setElP el (if bool_decide (inline <> None) then set_inlineTemplate true e3 else e3).

Definition aliasModelWarning (e : ASTElement) (value : str) : str :=
  lit "<" ++ tag e ++ lit " v-model=" ++ dq ++ value ++ dq ++ lit ">: " ++
  lit "You are binding v-model directly to a v-for iteration alias. " ++
  lit "This will not be able to modify the v-for source array because " ++
  lit "writing to the alias is like modifying a function local variable. " ++
  lit "Consider using an array of objects and use v-model on an object property instead.".

(** [checkForAliasModel]: a walk up the ancestors, starting at the element. *)
Fixpoint checkForAliasModel (budget : nat) (el : ASTElement) (value : str)
    (p : option nat) : P unit :=
  match p with
  | None => mret tt
  | Some r =>
    match budget with
    | 0 => failP
    | S b =>
      e ← getElP r;
      _ ← whenP (truthy (for_ e) && bool_decide (alias e = Some value))
            (warnP (aliasModelWarning el value) false);
      checkForAliasModel b el value (parent e)
    end
  end.

Definition emptyBindWarning (name : str) : str :=
  lit "The value for a v-bind expression cannot be empty. Found in " ++ dq ++
  lit "v-bind:" ++ name ++ dq.

Definition interpolationWarning (name value : str) : str :=
  name ++ lit "=" ++ dq ++ value ++ dq ++ lit ": " ++
  lit "Interpolation inside attributes has been removed. " ++
  lit "Use v-bind or the colon shorthand instead. For example, " ++
  lit "instead of <div id=" ++ dq ++ lit "{{ val }}" ++ dq ++ lit ">, use <div :id=" ++
  dq ++ lit "val" ++ dq ++ lit ">.".

(** [parseText] on the module state of the text parser. *)
Definition parseTextP (text : str) (d : option (str * str)) : P (option TextParseResult) :=
  fun p =>
    match parseText env text d (textGlobals p) with
    | Some (r, g) => Some (r, set_textGlobals g p)
    | None => None
    end.

Definition has_modifier (m : option (list (str * bool))) (k : string) : bool :=
  match m with
  | Some l => bool_decide (obj_get (lit k) l = Some true)
  | None => false
  end.

(** One round of the loop of [processAttrs]. *)
Definition processAttr (el : nat) (a : Attr) : P unit :=
  let name := attr_name a in
  let rawName := attr_name a in
  let value := attr_value a in
  c ← getConfig;
  if test_dirRE name
  then
    _ ← modElP el (set_hasBindings true);
    let modifiers := parseModifiers name in
    let name := if bool_decide (modifiers <> None)
                then strip_modifiers (length name) name else name in
    match match_bindRE name with
    | Some k =>
      let name := drop k name in
      let value := parseFilters env value in
      _ ← whenP (negb (production env) && bool_decide (trim value = []))
            (warnP (emptyBindWarning name) false);
      let isProp := has_modifier modifiers "prop" in
      let name := if isProp
                  then let n := camelize env name in
                       if bool_decide (n = lit "innerHtml") then lit "innerHTML" else n
                  else name in
      let name := if has_modifier modifiers "camel" then camelize env name else name in
      _ ← whenP (has_modifier modifiers "sync")
            (e ← getElP el;
             let '(e', ds) := addHandler env e (lit "update:" ++ camelize env name)
                                (genAssignmentCode env value (lit "$event")) None in
             _ ← setElP el e';
             forP (fun d => warnP (diag_msg d) (diag_tip d)) ds);
      e ← getElP el;
      if isProp || (negb (truthy (component e)) &&
                    platformMustUseProp c (tag e) (obj_get (lit "type") (attrsMap e)) name)
      then setElP el (addProp env e name value)
      else setElP el (addAttr env e name value)
    | None =>
      match match_onRE name with
      | Some k =>
        e ← getElP el;
        let '(e', ds) := addHandler env e (drop k name) value modifiers in
        _ ← setElP el e';
        forP (fun d => warnP (diag_msg d) (diag_tip d)) ds
      | None =>
        let name := strip_dirRE name in
        let arg := match_argRE name in
        let name := if truthy arg then take (length name - (length (show arg) + 1)) name
                    else name in
        e ← getElP el;
        _ ← setElP el (addDirective env e name rawName value arg modifiers);
        whenP (negb (production env) && bool_decide (name = lit "model"))
              (h ← readHeap;
               e' ← getElP el;
               checkForAliasModel (S (length h)) e' value (Some el))
      end
    end
  else
    _ ← whenP (negb (production env))
          (res ← parseTextP value (delimiters c);
           whenP (bool_decide (res <> None)) (warnP (interpolationWarning name value) false));
    e ← getElP el;
    let e1 := addAttr env e name (JSON_stringify value) in
    setElP el (if negb (truthy (component e1)) && bool_decide (name = lit "muted") &&
                  platformMustUseProp c (tag e1) (obj_get (lit "type") (attrsMap e1)) name
               then addProp env e1 name (lit "true")
               else e1).

(** [processAttrs]: the loop runs over the attribute list as it was on
    entry. *)
Definition processAttrs (el : nat) : P unit :=
  e ← getElP el;
  forP (processAttr el) (attrsList e).

(** [processElement]. *)
Definition processElement (element : nat) (options : CompilerOptions) : P unit :=
  _ ← processKey element;
  _ ← modElP element
        (fun e => set_plain (negb (truthy (key e)) && bool_decide (attrsList e = [])) e);
  _ ← processRef element;
  _ ← processSlot element;
  _ ← processComponent element;
  c ← getConfig;
  element' ← applyTransforms (cfg_transforms c) element;
  processAttrs element'.

Definition forbiddenTagWarning (tag : str) : str :=
  lit "Templates should only be responsible for mapping the state to the " ++
  lit "UI. Avoid placing tags with side-effects in your templates, such as " ++
  lit "<" ++ tag ++ lit ">" ++ lit ", as they will not be parsed.".

(** [checkRootConstraints]; an attribute named [hasOwnProperty] hides the
    inherited method, and the call of its value, a string, throws. *)
Definition checkRootConstraints (el : nat) : P unit :=
  whenP (negb (production env))
    (e ← getElP el;
     _ ← whenP (is_tag e "slot" || is_tag e "template")
           (warnOnce (lit "Cannot use <" ++ tag e ++ lit "> as component root element because it may " ++
                      lit "contain multiple nodes."));
     if bool_decide (obj_get (lit "hasOwnProperty") (attrsMap e) <> None) then failP
     else
       whenP (bool_decide (obj_get (lit "v-for") (attrsMap e) <> None))
             (warnOnce (lit "Cannot use v-for on stateful component root element because " ++
                        lit "it renders multiple elements."))).

Definition multipleRootsWarning : str :=
  lit "Component template should contain exactly one root element. " ++
  lit "If you are using v-if on multiple elements, " ++
  lit "use v-else-if to chain them instead.".

(** The root part of the tree management in [start]: the first element is
    the root; a later element outside any open element must continue the
    root's conditional group. *)
Definition attachToRoot (element : nat) : P unit :=
  root_ ← readP root;
  match root_ with
  | None => _ ← modP (set_root (Some element)); checkRootConstraints element
  | Some rt =>
    stack_ ← readP pstack;
    whenP (negb (nonempty stack_))
      (rte ← getElP rt;
       e ← getElP element;
       if truthy (if_ rte) && (truthy (elseif e) || else_ e)
       then
         _ ← checkRootConstraints element;
         modElP rt (addIfCondition (mkCond (elseif e) element))
       else whenP (negb (production env)) (warnOnce multipleRootsWarning))
  end.

(** The parent part of the tree management in [start]: under an open
    element, an else branch joins a conditional group, a scoped slot is
    registered, any other element becomes a child. *)
Definition attachToParent (element : nat) : P unit :=
  currentParent_ ← readP currentParent;
  e ← getElP element;
  match currentParent_ with
  | Some cp =>
    whenP (negb (forbidden e))
      (if truthy (elseif e) || else_ e then processIfConditions element cp
       else if truthy (slotScope e)
       then
         _ ← modElP cp (set_plain false);
         let name := or_else (slotTarget e) (dq ++ lit "default" ++ dq) in
         modElP cp (fun pe => set_scopedSlots
                                (Some (obj_assign name element (default [] (scopedSlots pe)))) pe)
       else
         _ ← modElP cp (fun pe => set_children (children pe ++ [NElement element]) pe);
         modElP element (set_parent (Some cp)))
  | None => mret tt
  end.

(** The [start] callback of [parse]. *)
Definition parse_start (options : CompilerOptions) (tag_ : str) (attrs : list Attr)
    (unary : bool) : P unit :=
  currentParent_ ← readP currentParent;
  c ← getConfig;
  parentNs ← match currentParent_ with
             | Some cp => cpe ← getElP cp; mret (ns cpe)
             | None => mret None
             end;
  let ns_ := if truthy parentNs then parentNs else platformGetTagNamespace c tag_ in
  let attrs := if isIE env && bool_decide (ns_ = Some (lit "svg"))
               then guardIESVGBug attrs else attrs in
  element ← createASTElementP tag_ attrs currentParent_;
  _ ← whenP (truthy ns_) (modElP element (set_ns ns_));
  e ← getElP element;
  _ ← whenP (isForbiddenTag e && negb (isServerRendering env))
        (_ ← modElP element (set_forbidden true);
         devWarnP (forbiddenTagWarning tag_));
  element ← applyTransforms (preTransforms c) element;
  inVPre_ ← readP inVPre;
  _ ← whenP (negb inVPre_)
        (_ ← processPre element;
         e ← getElP element;
         whenP (pre e) (modP (set_inVPre true)));
  e ← getElP element;
  _ ← whenP (platformIsPreTag c (tag e)) (modP (set_inPre true));
  inVPre_ ← readP inVPre;
  _ ← (if inVPre_ : bool then processRawAttrs element
       else
         e ← getElP element;
         whenP (negb (processed e))
               (_ ← processFor element;
                _ ← processIf element;
                _ ← processOnce element;
                processElement element options));
  _ ← attachToRoot element;
  _ ← attachToParent element;
  if negb unary
  then
    _ ← modP (set_currentParent (Some element));
    modP (fun p => set_pstack (element :: pstack p) p)
  else closeElement element.

(** The [end] callback of [parse]. *)
Definition parse_end : P unit :=
  stack_ ← readP pstack;
  inPre_ ← readP inPre;
  match stack_ with
  | [] => failP
  | element :: rest =>
    e ← getElP element;
    _ ← match last (children e) with
        | Some (NText t _) =>
          whenP (bool_decide (t = lit " ") && negb inPre_)
                (setElP element (set_children (take (length (children e) - 1) (children e)) e))
        | _ => mret tt
        end;
    _ ← modP (set_pstack rest);
    _ ← modP (set_currentParent (head rest));
    closeElement element
  end.

(** Modelled from the spec: [cached], the memoizing wrapper of shared/util
    that is not part of the sources at hand, around the entity decoder. *)
Definition decodeHTMLCached (text : str) : P str :=
  fun p =>
    match obj_get text (decodeCache p) with
    | Some hit => Some (hit, p)
    | None =>
      let v := decodeHTML env text in
      Some (v, set_decodeCache (obj_set text v (decodeCache p)) p)
    end.

Definition last_text (cs : list ASTNode) : option str :=
  match last cs with
  | Some (NText t _) => Some t
  | Some (NExpression _ _ t) => Some t
  | _ => None
  end.

(** The [chars] callback of [parse]. *)
Definition parse_chars (template : str) (options : CompilerOptions) (text : str) : P unit :=
  currentParent_ ← readP currentParent;
  inPre_ ← readP inPre;
  inVPre_ ← readP inVPre;
  match currentParent_ with
  | None =>
    whenP (negb (production env))
      (if bool_decide (text = template)
       then warnOnce (lit "Component template requires a root element, rather than just text.")
       else whenP (nonempty (trim text))
              (warnOnce (lit "text " ++ dq ++ trim text ++ dq ++
                         lit " outside root element will be ignored.")))
  | Some cp =>
    cpe ← getElP cp;
    if isIE env && is_tag cpe "textarea" &&
       bool_decide (obj_get (lit "placeholder") (attrsMap cpe) = Some text)
    then mret tt
    else
      let preserveWhitespace :=
        negb (bool_decide (opt_preserveWhitespace options = Some false)) in
      text ← (if inPre_ || nonempty (trim text)
              then if isTextTag cpe then mret text else decodeHTMLCached text
              else mret (if preserveWhitespace && nonempty (children cpe)
                         then lit " " else []));
      if nonempty text
      then
        c ← getConfig;
        res ← (if negb inVPre_ && negb (bool_decide (text = lit " "))
               then parseTextP text (delimiters c) else mret None);
        match res with
        | Some r =>
          modElP cp (fun pe => set_children
                                 (children pe ++ [NExpression (expression r) (tokens r) text]) pe)
        | None =>
          whenP (negb (bool_decide (text = lit " ")) ||
                 negb (nonempty (children cpe)) ||
                 negb (bool_decide (last_text (children cpe) = Some (lit " "))))
                (modElP cp (fun pe => set_children (children pe ++ [NText text false]) pe))
        end
      else mret tt
  end.

(** The [comment] callback of [parse]. *)
Definition parse_comment (text : str) : P unit :=
  currentParent_ ← readP currentParent;
  match currentParent_ with
  | Some cp => modElP cp (fun pe => set_children (children pe ++ [NText text true]) pe)
  | None => failP
  end.

(** A callback of [parse] as the tokenizer calls it. *)
Definition execP (m : P unit) (p : PState) : option PState :=
  match m p with
  | Some (_, p') => Some p'
  | None => None
  end.

(** What the three modules keep between calls. *)
Record Globals := mkGlobals {
  g_reCache : list (str * str);
  g_text : TextGlobals;
  g_decodeCache : list (str * str);
  g_config : option ParserConfig
}.

(** The module state when the modules are loaded. *)
Definition initialGlobals : Globals :=
  mkGlobals [] (mkTextGlobals (mkRegExp defaultTagRE 0) []) [] None.

Definition configOf (options : CompilerOptions) : ParserConfig :=
  {| delimiters := opt_delimiters options;
     cfg_transforms := opt_transformNode options;
     preTransforms := opt_preTransformNode options;
     postTransforms := opt_postTransformNode options;
     platformIsPreTag := default (fun _ => false) (opt_isPreTag options);
     platformMustUseProp := default (fun _ _ _ => false) (opt_mustUseProp options);
     platformGetTagNamespace := default (fun _ => None) (opt_getTagNamespace options) |}.

Definition htmlOptionsOf (template : str) (options : CompilerOptions)
    : HTMLParserOptions PState :=
  {| hp_warn := Some (fun m => execP (warnP m false));
     hp_expectHTML := opt_expectHTML options;
     hp_isUnaryTag := opt_isUnaryTag options;
     hp_canBeLeftOpenTag := opt_canBeLeftOpenTag options;
     hp_shouldDecodeNewlines := opt_shouldDecodeNewlines options;
     hp_shouldDecodeNewlinesForHref := opt_shouldDecodeNewlinesForHref options;
     hp_shouldKeepComment := opt_comments options;
     hp_start := Some (fun t attrs unary _ _ => execP (parse_start options t attrs unary));
     hp_end := Some (fun _ _ _ => execP parse_end);
     hp_chars := Some (fun text => execP (parse_chars template options text));
     hp_comment := Some (fun text => execP (parse_comment text)) |}.

(** [parse(template, options)]: the AST root, if any, with the module
    state and the store passed in and out. *)
Definition parse (template : str) (options : CompilerOptions) (g : Globals) (s : Store)
    : option (option nat * Globals * Store) :=
  let p0 := mkPState s (g_text g) (g_decodeCache g) (Some (configOf options))
                     [] None None false false false in
  match parseHTML env (htmlOptionsOf template options) template (g_reCache g) p0 with
  | Some (cache, p) =>
    Some (root p, mkGlobals cache (textGlobals p) (decodeCache p) (config p), store p)
  | None => None
  end.

End Parser.

(** ** Statements about the generator: auxiliary definitions *)

(** A generator, given enough budget, returns [a] and moves the codegen
    state and the store from [(st, s)] to [(st', s')]. *)
Definition Returns {A} (gen : nat -> G A) (st : CodegenState) (s : Store)
    (a : A) (st' : CodegenState) (s' : Store) : Prop :=
  exists fuel, gen fuel st s = Some (a, st', s').

(** The store after [el.f = v]. *)
Definition assign (el : nat) (f : ASTElement -> ASTElement) (s : Store) : Store :=
  match heap s !! el with
  | Some e => mkStore (<[el := f e]> (heap s)) (log s)
  | None => s
  end.

(** The compiled form of a conditional branch: through the once path when
    the branch carries the once flag, else through [genElement]. *)
Definition compileBranch (env : Env) (fuel : nat) (b : nat) : G str :=
  e ← getEl b; if once e then genOnce env fuel b else genElement env fuel b.

(** The compiled forms of the branches of a group, in order. *)
Definition compileBranches (env : Env) (fuel : nat) (conds : list ASTIfCondition)
    : G (list str) :=
  mapG (fun c => compileBranch env fuel (block c)) conds.

(** Every branch but the last has a guard. *)
Fixpoint guards_ok (conds : list ASTIfCondition) : bool :=
  match conds with
  | [] => true
  | [_] => true
  | c :: rest => truthy (exp c) && guards_ok rest
  end.

(** The right-associated chain [(g1)?C1:(g2)?C2:...:T] over the branches
    and their compiled forms: the tail is the last compiled form when the
    last branch has no guard, the empty-node call otherwise. *)
Fixpoint ternary_chain (conds : list ASTIfCondition) (codes : list str) : str :=
  match conds, codes with
  | c :: rest, code :: codes' =>
    match rest with
    | [] =>
      if truthy (exp c)
      then lit "(" ++ show (exp c) ++ lit ")?" ++ code ++ lit ":" ++ lit "_e()"
      else code
    | _ => lit "(" ++ show (exp c) ++ lit ")?" ++ code ++ lit ":" ++ ternary_chain rest codes'
    end
  | _, _ => lit "_e()"
  end.

(** The normalization level in the words of its description: 2 when some
    element child, or some branch of its conditional group, is an
    iteration, a [template] or a [slot]; else 1 when some element child or
    branch is component-like; else 0. *)
Definition branch_is (h : list ASTElement) (p : ASTElement -> bool)
    (c : ASTIfCondition) : bool :=
  match h !! block c with
  | Some b => p b
  | None => false
  end.

Definition child_or_branch_is (h : list ASTElement) (p : ASTElement -> bool)
    (n : ASTNode) : bool :=
  match n with
  | NElement r =>
    match h !! r with
    | Some e => p e || existsb (branch_is h p) (default [] (ifConditions e))
    | None => false
    end
  | _ => false
  end.

Definition normalization_level (h : list ASTElement) (mc : ASTElement -> bool)
    (cs : list ASTNode) : nat :=
  if existsb (child_or_branch_is h needsNormalization) cs then 2
  else if existsb (child_or_branch_is h mc) cs then 1
  else 0.

(** The element children and the branches of their conditional groups are
    objects of the store. *)
Definition child_refs_ok (h : list ASTElement) (n : ASTNode) : bool :=
  match n with
  | NElement r =>
    match h !! r with
    | Some e => forallb (fun c => bool_decide (is_Some (h !! block c)))
                        (default [] (ifConditions e))
    | None => false
    end
  | _ => true
  end.

(** The key of the nearest ancestor that carries an iteration binding. *)
Definition nearest_iteration_key (h : list ASTElement) (e : ASTElement) : option (option str) :=
  nearestForKey (length h) h (parent e).

(** The short-circuit of [genChildren]: one child, an element that carries
    an iteration binding and is neither a [template] nor a [slot]. *)
Definition single_iteration (h : list ASTElement) (cs : list ASTNode) : bool :=
  match cs with
  | [NElement r] =>
    match h !! r with
    | Some c => truthy (for_ c) && negb (is_tag c "template") && negb (is_tag c "slot")
    | None => false
    end
  | _ => false
  end.

Definition onceWarning : Diag :=
  mkDiag (lit "v-once can only be used inside v-for that is keyed. ") false.

(** ** Statements about the text parser: auxiliary definitions *)

(** A segment of a text: a literal run, or the inside of a
    delimiter-enclosed span. *)
Inductive Segment :=
| SegText (s : str)
| SegExpr (raw : str).

(** The pattern that [parseText] uses for a delimiter option. *)
Definition pattern_of (delimiters : option (str * str)) : TagRE :=
  match delimiters with
  | None => defaultTagRE
  | Some d => buildRegex d
  end.

(** The segments of a text in order: the literal before the leftmost span,
    the span, and the segments of what follows it. *)
Fixpoint segments (budget : nat) (re : TagRE) (text : str) : list Segment :=
  match budget with
  | 0 => []
  | S b =>
    match search re text with
    | None => if nonempty text then [SegText text] else []
    | Some (off, len) =>
      (if off =? 0 then [] else [SegText (take off text)]) ++
      SegExpr (take len (drop (off + length (re_open re)) text)) ::
      segments b re (drop (off + length (re_open re) + len + length (re_close re)) text)
    end
  end.

Definition segmentsOf (re : TagRE) (text : str) : list Segment :=
  segments (S (length text)) re text.

(** A segment in the concatenation expression, in the raw-token list, and
    in the text it was cut from. *)
Definition segment_code (env : Env) (g : Segment) : str :=
  match g with
  | SegText s => JSON_stringify s
  | SegExpr raw => lit "_s(" ++ parseFilters env (trim raw) ++ lit ")"
  end.

Definition segment_token (env : Env) (g : Segment) : Token :=
  match g with
  | SegText s => TokString s
  | SegExpr raw => TokBinding (parseFilters env (trim raw))
  end.

Definition segment_source (re : TagRE) (g : Segment) : str :=
  match g with
  | SegText s => s
  | SegExpr raw => re_open re ++ raw ++ re_close re
  end.

(** The module state of the text parser between two calls: every pattern
    object is the pattern of its delimiters, at rest. *)
Definition text_globals_ok (g : TextGlobals) : Prop :=
  defaultTagRE_obj g = mkRegExp defaultTagRE 0 /\
  forall d re, pair_lookup d (buildRegex_cache g) = Some re -> re = mkRegExp (buildRegex d) 0.

(** The module state of the text parser when the module is loaded. *)
Definition initialGlobals_text : TextGlobals := mkTextGlobals (mkRegExp defaultTagRE 0) [].

(** ** Statements about the tokenizer: auxiliary definitions *)

(** What the tokenizer hands to its callbacks. *)
Inductive Event :=
| EvStart (tag : str) (attrs : list Attr) (unary : bool) (start end_ : nat)
| EvEnd (tag : str) (start end_ : nat)
| EvChars (text : str)
| EvComment (text : str)
| EvWarn (msg : str).

(** Tokenizer options whose callbacks record the events in order; the
    platform part comes from compiler options. *)
Definition recorder (o : CompilerOptions) : HTMLParserOptions (list Event) :=
  {| hp_warn := Some (fun m tr => Some (tr ++ [EvWarn m]));
     hp_expectHTML := opt_expectHTML o;
     hp_isUnaryTag := opt_isUnaryTag o;
     hp_canBeLeftOpenTag := opt_canBeLeftOpenTag o;
     hp_shouldDecodeNewlines := opt_shouldDecodeNewlines o;
     hp_shouldDecodeNewlinesForHref := opt_shouldDecodeNewlinesForHref o;
     hp_shouldKeepComment := opt_comments o;
     hp_start := Some (fun t a u s e tr => Some (tr ++ [EvStart t a u s e]));
     hp_end := Some (fun t s e tr => Some (tr ++ [EvEnd t s e]));
     hp_chars := Some (fun t tr => Some (tr ++ [EvChars t]));
     hp_comment := Some (fun t tr => Some (tr ++ [EvComment t])) |}.



(** The events of the closing loop of [parseEndTag] for the entries from
    the top of the stack down to the matched one. *)
Fixpoint closing_events (dev named : bool) (start end_ : nat)
    (entries : list StackEntry) : list Event :=
  match entries with
  | [] => []
  | e :: rest =>
    (if dev && (nonempty rest || negb named)
     then [EvWarn (noMatchingEndTag (entry_tag e))] else []) ++
    EvEnd (entry_tag e) start end_ :: closing_events dev named start end_ rest
  end.

(** What a stray end tag synthesizes. *)
Definition stray_events (name : str) (start end_ : nat) : list Event :=
  if bool_decide (toLowerCase name = lit "br") then [EvStart name [] true start end_]
  else if bool_decide (toLowerCase name = lit "p")
  then [EvStart name [] false start end_; EvEnd name start end_]
  else [].

Definition set_user {U} (u : U) (ts : TState U) : TState U :=
  mkTState (html ts) (index ts) (lastTag ts) (stack ts) (reCache ts) u.

(** ** A sample environment for the closed examples *)

Module Sample.

Fixpoint remove_attr (name : str) (l : list Attr) : list Attr :=
  match l with
  | [] => []
  | a :: rest => if bool_decide (attr_name a = name) then rest else a :: remove_attr name rest
  end.

(** Modelled from the spec: [getAndRemoveAttr] of the helpers module, which
    is not part of the sources at hand: a structural attribute is read off
    the attribute map and dropped from the raw attribute list. *)
Definition getAndRemoveAttr (e : ASTElement) (name : str) : option str * ASTElement :=
  match obj_get name (attrsMap e) with
  | Some v => (Some v, set_attrsList (remove_attr name (attrsList e)) e)
  | None => (None, e)
  end.

(** Modelled from the spec: the filter sub-parser, which is not part of the
    sources at hand: "resolve pipe syntax into nested calls"; an
    expression [e | f] becomes the call [f(e)]. *)
Fixpoint split_pipes (s : str) (cur : str) : list str :=
  match s with
  | [] => [cur]
  | 124%N :: rest => cur :: split_pipes rest []
  | c :: rest => split_pipes rest (cur ++ [c])
  end.

Definition parseFilters (s : str) : str :=
  match split_pipes s [] with
  | [] => s
  | e :: filters =>
    foldl (fun acc f => trim f ++ lit "(" ++ acc ++ lit ")") (trim e) filters
  end.

(** Modelled from the spec: [getBindingAttr] of the helpers module: the
    bound form of an attribute, filter-parsed, or else its literal form,
    JSON-quoted. *)
Definition getBindingAttr (e : ASTElement) (name : str) : option str * ASTElement :=
  let '(d1, e1) := getAndRemoveAttr e (lit ":" ++ name) in
  let '(d, e2) := if truthy d1 then (d1, e1)
                  else getAndRemoveAttr e1 (lit "v-bind:" ++ name) in
  match d with
  | Some v => (Some (parseFilters v), e2)
  | None =>
    let '(s, e3) := getAndRemoveAttr e2 name in
    (JSON_stringify <$> s, e3)
  end.

(** Modelled from the spec: [addAttr] of the helpers module: a literal
    attribute is attached to the element. *)
Definition addAttr (e : ASTElement) (name value : str) : ASTElement :=
  set_plain false (set_attrs (Some (default [] (attrs e) ++ [mkAttr name value])) e).

Definition env : Env :=
  mkEnv false false false false false
        (fun _ _ => lit "on:{}") (fun s => s) [] parseFilters
        (fun a b => a ++ lit "=" ++ b) (fun s => s) (fun _ => false)
        getAndRemoveAttr getBindingAttr addAttr
        (fun e _ _ => e) (fun e _ _ _ => (e, [])) (fun e _ _ _ _ _ => e).

Definition options : CompilerOptions :=
  {| opt_expectHTML := true; opt_isUnaryTag := None; opt_canBeLeftOpenTag := None;
     opt_isReservedTag := Some (fun _ => true); opt_isPreTag := Some (fun t => bool_decide (t = lit "pre"));
     opt_mustUseProp := None; opt_getTagNamespace := None;
     opt_shouldDecodeNewlines := false; opt_shouldDecodeNewlinesForHref := false;
     opt_comments := false; opt_delimiters := None; opt_preserveWhitespace := None;
     opt_preTransformNode := []; opt_transformNode := []; opt_postTransformNode := [];
     opt_genData := []; opt_transformCode := []; opt_directives := [] |}.

(** A plain element (no attribute is left on it). *)
Definition el (t : string) (p : option nat) (cs : list ASTNode) : ASTElement :=
  set_children cs (set_plain true (createASTElement (lit t) [] p)).

(** [<div><a v-if="x"/><b v-else-if="y"/><c v-else/></div>]. *)
Definition conditional : Store :=
  mkStore
    [ el "div" None [NElement 1];
      set_ifConditions (Some [mkCond (Some (lit "x")) 1; mkCond (Some (lit "y")) 2;
                              mkCond None 3])
        (set_if (Some (lit "x")) (el "a" (Some 0) []));
      set_elseif (Some (lit "y")) (el "b" (Some 0) []);
      set_else true (el "c" (Some 0) []) ]
    [].

(** [<div><p>a</p><p>a</p></div>], both paragraphs flagged static roots. *)
Definition twins : Store :=
  mkStore
    [ el "div" None [NElement 1; NElement 2];
      set_staticRoot true (el "p" (Some 0) [NText (lit "a") false]);
      set_staticRoot true (el "p" (Some 0) [NText (lit "a") false]) ]
    [].

(** [<div><p v-once>a</p></div>], the outer element flagged a static root:
    the inner element is hoisted by the once path. *)
Definition nested_static : Store :=
  mkStore
    [ set_staticRoot true (el "div" None [NElement 1]);
      set_once true (el "p" (Some 0) [NText (lit "a") false]) ]
    [].

(** [<ul v-for="g in gs" :key="g.id"><li v-for="x in g.xs"><b v-once/></li></ul>]:
    the nearest iteration around the once node has no key, the outer one
    has. *)
Definition once_in_unkeyed : Store :=
  mkStore
    [ set_key (Some (lit "g.id"))
        (set_alias (Some (lit "g")) (set_for (Some (lit "gs")) (el "ul" None [NElement 1])));
      set_forProcessed true
        (set_alias (Some (lit "x")) (set_for (Some (lit "g.xs")) (el "li" (Some 0) [NElement 2])));
      set_staticInFor true (set_once true (el "b" (Some 1) [])) ]
    [].

(** The same with the key on the inner iteration. *)
Definition once_in_keyed : Store :=
  mkStore
    [ el "ul" None [NElement 1];
      set_key (Some (lit "x.id"))
        (set_alias (Some (lit "x")) (set_for (Some (lit "xs")) (el "li" (Some 0) [NElement 2])));
      set_staticInFor true (set_once true (el "b" (Some 1) [])) ]
    [].

(** [<template><slot/>a</template>]: the children of a transparent
    template are compiled without the normalization check. *)
Definition template_children : Store :=
  mkStore
    [ el "template" None [NElement 1; NText (lit "a") false];
      el "slot" (Some 0) [] ]
    [].

(** [<div><span v-for="x in xs"/></div>] and [<div><i/><b/></div>]. *)
Definition single_for : Store :=
  mkStore
    [ el "div" None [NElement 1];
      set_alias (Some (lit "x")) (set_for (Some (lit "xs")) (el "span" (Some 0) [])) ]
    [].

(** [<comp inline-template><div><p>a</p></div></comp>], the inner [p]
    flagged a static root. *)
Definition inline : Store :=
  mkStore
    [ set_inlineTemplate true (set_plain false (el "comp" None [NElement 1]));
      el "div" (Some 0) [NElement 2];
      set_staticRoot true (el "p" (Some 1) [NText (lit "a") false]) ]
    [].

Definition state : CodegenState := newCodegenState env options.

End Sample.

(** ** Statements about the budget and the state of the generator:
    auxiliary definitions *)

(** [m'] returns whatever [m] returns. *)
Definition le_G {A} (m m' : G A) : Prop :=
  forall st s r, m st s = Some r -> m' st s = Some r.

(** Every generator at budget [m] returns what it returns at budget [n]. *)
Definition budget_le (env : Env) (n m : nat) : Prop :=
  (forall el, le_G (genElement env n el) (genElement env m el)) /\
  (forall el, le_G (genStatic env n el) (genStatic env m el)) /\
  (forall el, le_G (genOnce env n el) (genOnce env m el)) /\
  (forall el a b, le_G (genIf env n el a b) (genIf env m el a b)) /\
  (forall c a b, le_G (genIfConditions env n c a b) (genIfConditions env m c a b)) /\
  (forall el a, le_G (genTernaryExp env n el a) (genTernaryExp env m el a)) /\
  (forall el a b, le_G (genFor env n el a b) (genFor env m el a b)) /\
  (forall el, le_G (genData env n el) (genData env m el)) /\
  (forall el, le_G (genInlineTemplate env n el) (genInlineTemplate env m el)) /\
  (forall ast o s r, generate env n ast o s = Some r -> generate env m ast o s = Some r) /\
  (forall sl, le_G (genScopedSlots env n sl) (genScopedSlots env m sl)) /\
  (forall k el, le_G (genScopedSlot env n k el) (genScopedSlot env m k el)) /\
  (forall k el, le_G (genForScopedSlot env n k el) (genForScopedSlot env m k el)) /\
  (forall el c a b, le_G (genChildren env n el c a b) (genChildren env m el c a b)) /\
  (forall nd, le_G (genNode env n nd) (genNode env m nd)) /\
  (forall el, le_G (genSlot env n el) (genSlot env m el)) /\
  (forall c el, le_G (genComponent env n c el) (genComponent env m c el)).

(** The run-once counter does not decrease, the static-program list is
    extended at its end, the options stay. *)
Definition state_le (st st' : CodegenState) : Prop :=
  onceId st <= onceId st' /\
  staticRenderFns st `prefix_of` staticRenderFns st' /\
  options st = options st'.

(** A generator step under which the codegen state only grows. *)
Definition keeps {A} (m : G A) : Prop :=
  forall st s a st' s', m st s = Some (a, st', s') -> state_le st st'.

(** A step that leaves the codegen state as it is. *)
Definition stateless {A} (m : G A) : Prop :=
  forall st s a st' s', m st s = Some (a, st', s') -> st' = st.

(** Every generator at budget [n] lets the codegen state only grow. *)
Definition keeps_at (env : Env) (n : nat) : Prop :=
  (forall el, keeps (genElement env n el)) /\
  (forall el, keeps (genStatic env n el)) /\
  (forall el, keeps (genOnce env n el)) /\
  (forall el b, keeps (genIf env n el None b)) /\
  (forall c b, keeps (genIfConditions env n c None b)) /\
  (forall el, keeps (genTernaryExp env n el None)) /\
  (forall el b, keeps (genFor env n el None b)) /\
  (forall el, keeps (genData env n el)) /\
  (forall el, keeps (genInlineTemplate env n el)) /\
  (forall sl, keeps (genScopedSlots env n sl)) /\
  (forall k el, keeps (genScopedSlot env n k el)) /\
  (forall k el, keeps (genForScopedSlot env n k el)) /\
  (forall el c, keeps (genChildren env n el c None None)) /\
  (forall nd, keeps (genNode env n nd)) /\
  (forall el, keeps (genSlot env n el)) /\
  (forall c el, keeps (genComponent env n c el)).

(** ** Statements about the tokenizer as a whole: auxiliary definitions *)






(** A tokenizer state with one open tag. *)
Definition stray_state : TState (list Event) :=
  mkTState (lit "rest") 10 (Some (lit "div")) [mkEntry (lit "div") (lit "div") []] [] [].

(** ** Statements about the AST builder: auxiliary definitions *)

Definition is_element (n : ASTNode) : bool :=
  match n with
  | NElement _ => true
  | _ => false
  end.

(** The text of a node that is not an element. *)
Definition node_text (n : ASTNode) : option str :=
  match n with
  | NElement _ => None
  | NExpression _ _ text => Some text
  | NText text _ => Some text
  end.

Definition ignoredText (text : str) : Diag :=
  mkDiag (lit "text " ++ dq ++ trim text ++ dq ++
          lit " between v-if and v-else(-if) " ++ lit "will be ignored.") false.

(** The diagnostics for the nodes popped from the end of a child
    sequence, the last node first: one for every text that is not the
    single space. *)
Definition ignored_diags (popped : list ASTNode) : list Diag :=
  ignoredText <$> filter (fun text => text <> lit " ") (omap node_text (reverse popped)).

(** The state of the builder after diagnostics have been issued. *)
Definition add_log (ds : list Diag) (p : PState) : PState :=
  set_store (mkStore (heap (store p)) (log (store p) ++ ds)) p.

(** [<div><a v-if="x"></a> <b v-else>] when the start tag of [b] has been
    processed and [b] is about to be attached: element 0 is the open
    [div], whose children are [a] and the text of one space. *)
Definition else_state : PState :=
  mkPState
    (mkStore [Sample.el "div" None [NElement 1; NText (lit " ") false];
              set_ifConditions (Some [mkCond (Some (lit "x")) 1])
                (set_if (Some (lit "x")) (Sample.el "a" (Some 0) []));
              set_else true (Sample.el "b" None [])] [])
    initialGlobals_text [] None [0] (Some 0) (Some 0) false false false.

(** ** Statements about the module state: auxiliary definitions *)

(** The module state between two calls: the memoized decoder holds
    decoded texts, the cache of raw-text patterns holds the pattern of
    each tag, the patterns of the text parser are at rest. *)
Definition decode_cache_ok (env : Env) (c : list (str * str)) : Prop :=
  forall k v, obj_get k c = Some v -> v = decodeHTML env k.

Definition re_cache_ok (c : list (str * str)) : Prop :=
  forall k v, obj_get k c = Some v -> v = k.

Definition globals_ok (env : Env) (g : Globals) : Prop :=
  re_cache_ok (g_reCache g) /\ text_globals_ok (g_text g) /\
  decode_cache_ok env (g_decodeCache g).

(** Two results of a computation on a state: both fail, or both return
    the same value and related states. *)
Definition rel_result {S A} (R : S -> S -> Prop) (x y : option (A * S)) : Prop :=
  match x, y with
  | Some (a, s), Some (a', s') => a = a' /\ R s s'
  | None, None => True
  | _, _ => False
  end.

Definition rel_option {S} (R : S -> S -> Prop) (x y : option S) : Prop :=
  match x, y with
  | Some s, Some s' => R s s'
  | None, None => True
  | _, _ => False
  end.

(** Two states of the AST builder that differ in the module state of the
    text parser and of the decoder only. *)
Definition related (env : Env) (p p' : PState) : Prop :=
  (store p = store p' /\ config p = config p' /\ pstack p = pstack p' /\
   root p = root p' /\ currentParent p = currentParent p' /\
   inVPre p = inVPre p' /\ inPre p = inPre p' /\ warned p = warned p') /\
  (text_globals_ok (textGlobals p) /\ decode_cache_ok env (decodeCache p)) /\
  (text_globals_ok (textGlobals p') /\ decode_cache_ok env (decodeCache p')).

(** A computation of the AST builder does not depend on the module state. *)
Definition respectsP (env : Env) {A} (m : P A) : Prop :=
  forall p p', related env p p' -> rel_result (related env) (m p) (m p').

(** Two states of the tokenizer that differ in the pattern cache and, up
    to [R], in the state of the owner of the callbacks. *)
Definition relatedT {U} (R : U -> U -> Prop) (ts ts' : TState U) : Prop :=
  (html ts = html ts' /\ index ts = index ts' /\ lastTag ts = lastTag ts' /\
   stack ts = stack ts') /\
  R (user ts) (user ts') /\ re_cache_ok (reCache ts) /\ re_cache_ok (reCache ts').

Definition respectsT {U} (R : U -> U -> Prop) {A} (m : T U A) : Prop :=
  forall ts ts', relatedT R ts ts' -> rel_result (relatedT R) (m ts) (m ts').

Definition respects_callback {U} (R : U -> U -> Prop) (f : U -> option U) : Prop :=
  forall u u', R u u' -> rel_option R (f u) (f u').

(** The callbacks of the tokenizer respect [R]. *)
Definition callbacks_respect {U} (R : U -> U -> Prop) (o : HTMLParserOptions U) : Prop :=
  (forall f m, hp_warn o = Some f -> respects_callback R (f m)) /\
  (forall f t a u s e, hp_start o = Some f -> respects_callback R (f t a u s e)) /\
  (forall f t s e, hp_end o = Some f -> respects_callback R (f t s e)) /\
  (forall f t, hp_chars o = Some f -> respects_callback R (f t)) /\
  (forall f t, hp_comment o = Some f -> respects_callback R (f t)).

(** [parse] followed by [generate] on the tree that it returns. *)
Definition compile (env : Env) (fuel : nat) (template : str) (options : CompilerOptions)
    (g : Globals) (s : Store) : option (CodegenResult * Globals * Store) :=
  match parse env template options g s with
  | Some (ast, g', s') =>
    match generate env fuel ast options s' with
    | Some (res, s'') => Some (res, g', s'')
    | None => None
    end
  | None => None
  end.

(** ** Statements about what the generator leaves of its state:
    auxiliary definitions *)

(** A program body as [generate] and [genStatic] emit it. *)
Definition wrapped (code : str) : Prop :=
  exists body, code = lit "with(this){return " ++ body ++ lit "}".

(** What a generator may do to the codegen state: count the run-once
    counter up and append hoisted programs. *)
Definition frame (st st' : CodegenState) : Prop :=
  options st' = options st /\ transforms st' = transforms st /\
  dataGenFns st' = dataGenFns st /\ state_directives st' = state_directives st /\
  maybeComponent st' = maybeComponent st /\ state_pre st' = state_pre st /\
  onceId st <= onceId st' /\
  exists added, staticRenderFns st' = staticRenderFns st ++ added /\ Forall wrapped added.

Definition framed {A} (m : G A) : Prop :=
  forall st s a st' s', m st s = Some (a, st', s') -> frame st st'.

Definition framed_at (env : Env) (n : nat) : Prop :=
  (forall el, framed (genElement env n el)) /\
  (forall el, framed (genStatic env n el)) /\
  (forall el, framed (genOnce env n el)) /\
  (forall el b, framed (genIf env n el None b)) /\
  (forall c b, framed (genIfConditions env n c None b)) /\
  (forall el, framed (genTernaryExp env n el None)) /\
  (forall el b, framed (genFor env n el None b)) /\
  (forall el, framed (genData env n el)) /\
  (forall el, framed (genInlineTemplate env n el)) /\
  (forall sl, framed (genScopedSlots env n sl)) /\
  (forall k el, framed (genScopedSlot env n k el)) /\
  (forall k el, framed (genForScopedSlot env n k el)) /\
  (forall el c, framed (genChildren env n el c None None)) /\
  (forall nd, framed (genNode env n nd)) /\
  (forall el, framed (genSlot env n el)) /\
  (forall c el, framed (genComponent env n c el)).

(** [bind], the compile-time directive of [v-bind] without an argument
    (the module of its own among the sources): it leaves a wrapper for the
    data of the element on the element and asks for no runtime directive.
    The element is the one [genDirectives] has just read; its tag is not
    assigned by the generator, so the wrapper holds the tag. *)
Definition bind : DirectiveFunction := fun el dir s =>
  match heap s !! el with
  | Some e =>
    (false,
     assign el
       (set_wrapData
          (Some (fun code =>
                   lit "_b(" ++ code ++ lit ",'" ++ tag e ++ lit "'," ++ dir_value dir ++
                   lit "," ++
                   (if has_modifier (dir_modifiers dir) "prop" then lit "true"
                    else lit "false") ++
                   (if has_modifier (dir_modifiers dir) "sync" then lit ",true" else []) ++
                   lit ")"))) s)
  | None => (false, s)
  end.

(** [<a v-bind.prop="obj">] with nothing else on it, under a codegen state
    that knows [bind]. *)
Definition bound_directive : ASTDirective :=
  mkDirective (lit "bind") (lit "v-bind.prop") (lit "obj") None (Some [(lit "prop", true)]).

Definition set_directives : option (list ASTDirective) -> ASTElement -> ASTElement :=
  ltac:(make_setter directives).

Definition bound_element : ASTElement :=
  set_plain false
    (set_directives (Some [bound_directive]) (Sample.el "a" None [])).

Definition bound_state : CodegenState :=
  mkState Sample.options [] [] [(lit "bind", bind)] (fun _ => false) 0 [] false.

(** A codegen state under which every element may be a component. *)
Definition component_state : CodegenState :=
  mkState Sample.options [] [] [] (fun _ => true) 0 [] false.

(** A tokenizer state inside [<div><span>]. *)
Definition nested_state : TState (list Event) :=
  mkTState (lit "rest") 20 (Some (lit "span"))
           [mkEntry (lit "span") (lit "span") []; mkEntry (lit "div") (lit "div") []] [] [].

(** A platform for which [div] and [li] are not phrasing content and [li]
    may be left open. *)
Definition html_env : Env :=
  mkEnv false false false false false
        (fun _ _ => lit "on:{}") (fun s => s) [] Sample.parseFilters
        (fun a b => a ++ lit "=" ++ b) (fun s => s)
        (fun t => bool_decide (t = lit "div") || bool_decide (t = lit "li"))
        Sample.getAndRemoveAttr Sample.getBindingAttr Sample.addAttr
        (fun e _ _ => e) (fun e _ _ _ => (e, [])) (fun e _ _ _ _ _ => e).

Definition html_options : CompilerOptions :=
  mkOptions true None (Some (fun t => bool_decide (t = lit "li")))
            (Some (fun _ => true)) None None None false false false None None
            [] [] [] [] [] [].

(** The tokenizer in [<ul><li><p><li>b] when the start tag of the second
    [li] has been read. *)
Definition item_state : TState (list Event) :=
  mkTState (lit "b") 15 (Some (lit "p"))
           [mkEntry (lit "p") (lit "p") []; mkEntry (lit "li") (lit "li") [];
            mkEntry (lit "ul") (lit "ul") []] [] [].

(** ** Statements about the directive parsers: auxiliary definitions *)

(** A code unit of a name in an iteration expression: no white space, no
    comma, bracket or parenthesis. *)
Definition is_for_name_char (c : N) : bool :=
  negb (is_ws c || N.eqb c 44 || N.eqb c 125 || N.eqb c 93 || N.eqb c 40 || N.eqb c 41).

(** An iteration expression written out: the alias and the iterators
    joined by commas, in parentheses or not, the keyword between white
    space, the source. *)
Definition for_expression (parens : bool) (alias : str) (iterators : list str)
    (ws1 kw ws2 src : str) : str :=
  (if parens then lit "(" else []) ++ join (lit ",") (alias :: iterators) ++
  (if parens then lit ")" else []) ++ ws1 ++ kw ++ ws2 ++ src.

(** An attribute name followed by its modifiers, each after a dot. *)
Definition with_modifiers (base : str) (ms : list str) : str :=
  base ++ concat ((fun m => 46%N :: m) <$> ms).

(** Options under which comments are kept. *)
Definition keep_comments : CompilerOptions :=
  mkOptions true None None (Some (fun _ => true)) None None None false false true
            None None [] [] [] [] [] [].

(** The diagnostic of a template that is only text. *)
Definition rootRequired : Diag :=
  mkDiag (lit "Component template requires a root element, rather than just text.") false.

(** The tokenizer after the start tag of a [script] element. *)
Definition script_state : TState (list Event) :=
  mkTState (lit "a<b</script>x") 8 (Some (lit "script"))
           [mkEntry (lit "script") (lit "script") []] [] [].

(** ** Statements about the open-tag stack: auxiliary definitions *)

(** The last tag is the tag of the innermost open entry, and every entry
    carries the lower-cased form of its tag. *)
Definition stack_ok {U} (ts : TState U) : Prop :=
  lastTag ts = entry_tag <$> head (stack ts) /\
  Forall (fun x => entry_lowerCasedTag x = toLowerCase (entry_tag x)) (stack ts).

(** A computation of the tokenizer that keeps [stack_ok]. *)
Definition keeps_stack {U A} (m : T U A) : Prop :=
  forall ts a ts', stack_ok ts -> m ts = Some (a, ts') -> stack_ok ts'.

(** The tokenizer before [<div><p>x], and after the text is consumed. *)
Definition open_state : TState (list Event) :=
  mkTState (lit "<div><p>x") 0 None [] [] [].

Definition opened_state : TState (list Event) :=
  mkTState [] 8 (Some (lit "p"))
           [mkEntry (lit "p") (lit "p") []; mkEntry (lit "div") (lit "div") []] []
           [EvStart (lit "div") [] false 0 5; EvStart (lit "p") [] false 5 8;
            EvChars (lit "x")].

(** ** Statements about slot outlets: auxiliary definitions *)

(** Positional arguments: an absent argument before a present one is
    written [null], absent arguments at the end are left out. *)
Fixpoint positional (l : list (option str)) : list str :=
  match l with
  | [] => []
  | a :: rest =>
    let r := positional rest in
    if truthy a then show a :: r
    else match r with
         | [] => []
         | _ => lit "null" :: r
         end
  end.

(** The attribute object of a slot outlet. *)
Definition slot_attrs (env : Env) (e : ASTElement) : option str :=
  (fun a => lit "{" ++
            join (lit ",") ((fun a => camelize env (attr_name a) ++ lit ":" ++ attr_value a) <$> a) ++
            lit "}") <$> attrs e.

(** A slot outlet with a name, attributes and a [v-bind] object, and no
    fallback content. *)
Definition outlet : Store :=
  mkStore [set_attrs (Some [mkAttr (lit "a") (lit "x")])
             (set_slotName (Some (lit "n")) (Sample.el "slot" None []))] [].

(** Options of a platform with the void elements of HTML. *)
Definition void_options : CompilerOptions :=
  mkOptions true
            (Some (fun t => bool_decide (t ∈ [lit "br"; lit "hr"; lit "img"; lit "input"])))
            None (Some (fun _ => true)) None None None false false false
            None None [] [] [] [] [] [].

(** * Properties *)

(** ** The generator monad and the recursion budget *)

Lemma le_G_refl {A} (m : G A) : le_G m m.
Proof. by intros st s r. Qed.

Lemma le_G_fail {A} (m : G A) : le_G failG m.
Proof. intros st s r; discriminate. Qed.

Lemma le_G_bind {A B} (m m' : G A) (f f' : A -> G B) :
  le_G m m' -> (forall a, le_G (f a) (f' a)) -> le_G (m ≫= f) (m' ≫= f').
Proof.
  intros Hm Hf st s r. unfold mbind, G_bind.
  destruct (m st s) as [[[a st1] s1]|] eqn:E; [|done].
  rewrite (Hm _ _ _ E). apply Hf.
Qed.

Lemma le_G_mapG {A B} (f f' : A -> G B) (l : list A) :
  (forall a, le_G (f a) (f' a)) -> le_G (mapG f l) (mapG f' l).
Proof.
  intros Hf. induction l as [|x l IH]; simpl; [apply le_G_refl|].
  apply le_G_bind; [apply Hf|]. intros y.
  apply le_G_bind; [apply IH|]. intros; apply le_G_refl.
Qed.

Lemma le_G_nested {A} (f f' : CompilerOptions -> Store -> option (A * Store)) :
  (forall o s r, f o s = Some r -> f' o s = Some r) -> le_G (nestedG f) (nestedG f').
Proof.
  intros H st s r. unfold nestedG.
  destruct (f (options st) s) as [[a s1]|] eqn:E; [|done].
  by rewrite (H _ _ _ E).
Qed.

Section Budget.
Context (env : Env).

Ltac budget_step :=
  match goal with
  | |- le_G ?m ?m => apply le_G_refl
  | |- le_G failG _ => apply le_G_fail
  | |- le_G (_ ≫= _) (_ ≫= _) => apply le_G_bind; [|intros ?]
  | |- le_G (mapG _ _) (mapG _ _) => apply le_G_mapG; intros ?
  | |- le_G (nestedG _) (nestedG _) => apply le_G_nested; intros ? ? ?
  | |- le_G (match ?x with _ => _ end) (match ?x with _ => _ end) => destruct x
  | |- le_G (if ?x then _ else _) (if ?x then _ else _) => destruct x
  | H : forall _, le_G _ _ |- _ => apply H
  | H : forall _ _, le_G _ _ |- _ => apply H
  | H : forall _ _ _, le_G _ _ |- _ => apply H
  | H : forall _ _ _ _, le_G _ _ |- _ => apply H
  | H : forall _ _ _ _, generate _ _ _ _ _ = _ -> _ |- _ => apply H
  end.

Lemma budget_le_step n m : budget_le env n m -> budget_le env (S n) (S m).
Proof.
  intros (H1&H2&H3&H4&H5&H6&H7&H8&H9&H10&H11&H12&H13&H14&H15&H16&H17).
  unfold budget_le. repeat split; intros; simpl; repeat budget_step.
  revert H. simpl.
  destruct ast as [r0|]; [|done].
  destruct (genElement env n r0 _ s) as [[[code st'] s']|] eqn:E; [|done].
  by rewrite (H1 _ _ _ _ E).
Qed.

Lemma budget_le_0 m : budget_le env 0 m.
Proof. unfold budget_le. repeat split; intros; try apply le_G_fail. discriminate. Qed.

Lemma budget_mono n m : n <= m -> budget_le env n m.
Proof.
  revert m. induction n as [|n IH]; intros m Hle; [apply budget_le_0|].
  destruct m as [|m]; [lia|]. apply budget_le_step, IH. lia.
Qed.

Lemma genElement_mono n m el st s r :
  n <= m -> genElement env n el st s = Some r -> genElement env m el st s = Some r.
Proof. intros Hle. by apply (budget_mono n m Hle). Qed.

Lemma genOnce_mono n m el st s r :
  n <= m -> genOnce env n el st s = Some r -> genOnce env m el st s = Some r.
Proof. intros Hle. by apply (budget_mono n m Hle). Qed.

Lemma genStatic_mono n m el st s r :
  n <= m -> genStatic env n el st s = Some r -> genStatic env m el st s = Some r.
Proof. intros Hle. by apply (budget_mono n m Hle). Qed.

Lemma genNode_mono n m nd st s r :
  n <= m -> genNode env n nd st s = Some r -> genNode env m nd st s = Some r.
Proof. intros Hle. by apply (budget_mono n m Hle). Qed.

Lemma generate_mono n m ast o s r :
  n <= m -> generate env n ast o s = Some r -> generate env m ast o s = Some r.
Proof. intros Hle. by apply (budget_mono n m Hle). Qed.

End Budget.

(** ** The codegen state only grows *)

Lemma state_le_refl st : state_le st st.
Proof. by repeat split. Qed.

Lemma state_le_trans st1 st2 st3 : state_le st1 st2 -> state_le st2 st3 -> state_le st1 st3.
Proof.
  intros (H1&H2&H3) (H4&H5&H6). repeat split; [lia| |congruence].
  by etrans.
Qed.

Lemma stateless_keeps {A} (m : G A) : stateless m -> keeps m.
Proof. intros H st s a st' s' E. rewrite (H _ _ _ _ _ E). apply state_le_refl. Qed.

Lemma keeps_bind {A B} (m : G A) (f : A -> G B) :
  keeps m -> (forall a, keeps (f a)) -> keeps (m ≫= f).
Proof.
  intros Hm Hf st s b st' s'. unfold mbind, G_bind.
  destruct (m st s) as [[[a st1] s1]|] eqn:E; [|done].
  intros E'. eapply state_le_trans; [by eapply Hm|by eapply Hf].
Qed.

Lemma stateless_bind {A B} (m : G A) (f : A -> G B) :
  stateless m -> (forall a, stateless (f a)) -> stateless (m ≫= f).
Proof.
  intros Hm Hf st s b st' s'. unfold mbind, G_bind.
  destruct (m st s) as [[[a st1] s1]|] eqn:E; [|done].
  intros E'. rewrite (Hf _ _ _ _ _ _ E'). by eapply Hm.
Qed.

Lemma stateless_ret {A} (a : A) : stateless (mret a : G A).
Proof. intros st s b st' s' [= <- <- <-]. done. Qed.

Lemma stateless_fail {A} : stateless (failG : G A).
Proof. intros st s b st' s' [=]. Qed.

Lemma stateless_getEl r : stateless (getEl r).
Proof. intros st s b st' s'. unfold getEl. by destruct (heap s !! r); intros [=]. Qed.

Lemma stateless_modEl r f : stateless (modEl r f).
Proof. intros st s b st' s'. unfold modEl. by destruct (heap s !! r); intros [=]. Qed.

Lemma stateless_getState : stateless getState.
Proof. by intros st s b st' s' [=]. Qed.

Lemma stateless_getStore : stateless getStore.
Proof. by intros st s b st' s' [=]. Qed.

Lemma stateless_liftS {A} (f : Store -> A * Store) : stateless (liftS f).
Proof. intros st s b st' s'. unfold liftS. by destruct (f s); intros [=]. Qed.

Lemma stateless_nested {A} (f : CompilerOptions -> Store -> option (A * Store)) :
  stateless (nestedG f).
Proof.
  intros st s b st' s'. unfold nestedG.
  by destruct (f (options st) s) as [[??]|]; intros [=].
Qed.

Lemma stateless_warnG m t : stateless (warnG m t).
Proof. by intros st s b st' s' [=]. Qed.

Lemma stateless_whenG b m : stateless m -> stateless (whenG b m).
Proof. intros H. destruct b; [done|apply stateless_ret]. Qed.

Lemma stateless_devWarn env m t : stateless (devWarn env m t).
Proof. apply stateless_whenG, stateless_warnG. Qed.

Lemma stateless_inheritPre el : stateless (inheritPre el).
Proof.
  unfold inheritPre. apply stateless_bind; [apply stateless_getEl|]. intros e.
  destruct (parent e); [|apply stateless_ret].
  apply stateless_bind; [apply stateless_getEl|]. intros; apply stateless_modEl.
Qed.

Lemma stateless_genDirectives_loop el dirs res b :
  stateless (genDirectives_loop el dirs res b).
Proof.
  revert res b. induction dirs as [|d dirs IH]; intros res b; simpl; [apply stateless_ret|].
  apply stateless_bind; [apply stateless_getState|]. intros st.
  apply stateless_bind.
  - destruct (obj_get _ _); [apply stateless_liftS|].
    destruct (bool_decide _); [apply stateless_fail|apply stateless_ret].
  - intros []; apply IH.
Qed.

Lemma stateless_genDirectives el : stateless (genDirectives el).
Proof.
  unfold genDirectives. apply stateless_bind; [apply stateless_getEl|]. intros e.
  destruct (directives e); [|apply stateless_ret].
  apply stateless_bind; [apply stateless_genDirectives_loop|].
  intros [res []]; apply stateless_ret.
Qed.

Lemma keeps_mapG {A B} (f : A -> G B) (l : list A) :
  (forall a, keeps (f a)) -> keeps (mapG f l).
Proof.
  intros Hf. induction l as [|x l IH]; simpl; [apply stateless_keeps, stateless_ret|].
  apply keeps_bind; [apply Hf|]. intros y.
  apply keeps_bind; [apply IH|]. intros; apply stateless_keeps, stateless_ret.
Qed.

Lemma keeps_nextOnceId : keeps nextOnceId.
Proof. intros st s b st' s' [= <- <- <-]. repeat split; simpl; [lia|done]. Qed.

Lemma keeps_pushStaticRenderFn code : keeps (pushStaticRenderFn code).
Proof.
  intros st s b st' s' [= <- <- <-]. repeat split; simpl; [lia|].
  by apply prefix_app_r.
Qed.

Lemma keeps_set_state_pre b : keeps (modState (set_state_pre b)).
Proof. intros st s a st' s' [= <- <- <-]. by repeat split. Qed.

Section Keeps.
Context (env : Env).

Ltac keeps_step :=
  match goal with
  | |- keeps (_ ≫= _) => apply keeps_bind; [|intros ?]
  | |- keeps (mapG _ _) => apply keeps_mapG; intros ?
  | |- keeps nextOnceId => apply keeps_nextOnceId
  | |- keeps (pushStaticRenderFn _) => apply keeps_pushStaticRenderFn
  | |- keeps (modState (set_state_pre _)) => apply keeps_set_state_pre
  | |- keeps (whenG ?b _) => destruct b; simpl
  | |- keeps (match ?x with _ => _ end) => destruct x
  | |- keeps (if ?x then _ else _) => destruct x
  | H : forall _, keeps _ |- _ => apply H
  | H : forall _ _, keeps _ |- _ => apply H
  | |- keeps _ => apply stateless_keeps
  | |- stateless (mret _) => apply stateless_ret
  | |- stateless failG => apply stateless_fail
  | |- stateless (getEl _) => apply stateless_getEl
  | |- stateless (modEl _ _) => apply stateless_modEl
  | |- stateless getState => apply stateless_getState
  | |- stateless getStore => apply stateless_getStore
  | |- stateless (nestedG _) => apply stateless_nested
  | |- stateless (warnG _ _) => apply stateless_warnG
  | |- stateless (devWarn _ _ _) => apply stateless_devWarn
  | |- stateless (inheritPre _) => apply stateless_inheritPre
  | |- stateless (genDirectives _) => apply stateless_genDirectives
  end.

Lemma keeps_all n : keeps_at env n.
Proof.
  induction n as [|n IH].
  - unfold keeps_at. repeat apply conj; intros; apply stateless_keeps, stateless_fail.
  - destruct IH as (H1&H2&H3&H4&H5&H6&H7&H8&H9&H11&H12&H13&H14&H15&H16&H17).
    unfold keeps_at. repeat apply conj; intros; simpl; repeat keeps_step.
Qed.

Lemma genElement_keeps n el : keeps (genElement env n el).
Proof. apply keeps_all. Qed.

Lemma genOnce_keeps n el : keeps (genOnce env n el).
Proof. apply keeps_all. Qed.

End Keeps.

(** ** Running a generator step by step *)

Lemma run_bind {A B} (m : G A) (f : A -> G B) st s :
  (m ≫= f) st s =
  match m st s with
  | Some (a, st', s') => f a st' s'
  | None => None
  end.
Proof. reflexivity. Qed.

Lemma run_getEl r st s e : heap s !! r = Some e -> getEl r st s = Some (e, st, s).
Proof. intros H. unfold getEl. by rewrite H. Qed.

Lemma run_modEl r f st s e :
  heap s !! r = Some e -> modEl r f st s = Some (tt, st, assign r f s).
Proof. intros H. unfold modEl, assign. by rewrite H. Qed.

Lemma assign_lookup r f s e :
  heap s !! r = Some e -> heap (assign r f s) !! r = Some (f e).
Proof.
  intros H. unfold assign. rewrite H. simpl.
  apply list_lookup_insert_eq. by eapply lookup_lt_Some.
Qed.

Lemma assign_log r f s : log (assign r f s) = log s.
Proof. unfold assign. by destruct (heap s !! r). Qed.

Lemma run_getState st s : getState st s = Some (st, st, s).
Proof. reflexivity. Qed.

Lemma run_getStore st s : getStore st s = Some (s, st, s).
Proof. reflexivity. Qed.

Lemma run_ret {A} (a : A) st s : (mret a : G A) st s = Some (a, st, s).
Proof. reflexivity. Qed.

(** Running the steps whose result is known. *)
Ltac gsimp :=
  repeat (progress (rewrite ?run_bind, ?run_getState, ?run_getStore, ?run_ret;
                    cbv beta iota)).

(** One step of a run: the first action of a sequence returns as [H] says. *)
Tactic Notation "grun" uconstr(H) := rewrite run_bind; erewrite H; cbv beta iota.

Section Conditional.
Context (env : Env).

Lemma compileBranch_ternary n m b st s r :
  n <= m -> compileBranch env n b st s = Some r ->
  genTernaryExp env (S m) b None st s = Some r.
Proof.
  intros Hle. simpl. unfold compileBranch. rewrite !run_bind.
  destruct (getEl b st s) as [[[e st1] s1]|]; [|done].
  destruct (once e); [by apply genOnce_mono|by apply genElement_mono].
Qed.

Lemma genIfConditions_chain n conds :
  forall codes st s st' s' fuel,
    guards_ok conds = true ->
    compileBranches env n conds st s = Some (codes, st', s') ->
    n + length conds + 2 <= fuel ->
    genIfConditions env fuel conds None None st s = Some (ternary_chain conds codes, st', s').
Proof.
  induction conds as [|c rest IH]; intros codes st s st' s' fuel Hg Hc Hf.
  - destruct fuel as [|fuel]; [simpl in Hf; lia|].
    injection Hc as <- <- <-. reflexivity.
  - destruct fuel as [|fuel]; [simpl in Hf; lia|].
    simpl in Hf. unfold compileBranches in Hc. simpl in Hc. rewrite run_bind in Hc.
    destruct (compileBranch env n (block c) st s) as [[[code st1] s1]|] eqn:Ec; [|done].
    rewrite run_bind in Hc. fold (compileBranches env n rest) in Hc.
    destruct (compileBranches env n rest st1 s1) as [[[codes' st2] s2]|] eqn:Er; [|done].
    injection Hc as <- <- <-.
    destruct fuel as [|fuel]; [lia|].
    assert (Ht : genTernaryExp env (S fuel) (block c) None st s = Some (code, st1, s1))
      by (apply (compileBranch_ternary n); [lia|done]).
    change (genIfConditions env (S (S fuel)) (c :: rest) None None st s)
      with ((if truthy (exp c)
             then a ← genTernaryExp env (S fuel) (block c) None;
                  b ← genIfConditions env (S fuel) rest None None;
                  mret (lit "(" ++ show (exp c) ++ lit ")?" ++ a ++ lit ":" ++ b)
             else genTernaryExp env (S fuel) (block c) None) st s).
    destruct (truthy (exp c)) eqn:Et.
    + rewrite !run_bind, Ht.
      assert (Hg' : guards_ok rest = true).
      { destruct rest; [done|]. simpl in Hg. rewrite Et in Hg. done. }
      rewrite !run_bind, (IH codes' st1 s1 st2 s2 (S fuel) Hg' Er) by lia.
      simpl. rewrite Et. by destruct rest.
    + destruct rest as [|c' rest]; [|simpl in Hg; by rewrite Et in Hg].
      injection Er as <- <- <-. rewrite Ht. simpl. by rewrite Et.
Qed.

(** C1. For an element whose conditional group is the branch list [conds],
    every branch but the last one guarded, [genIf] returns the
    right-associated ternary chain over the guards and the compiled forms
    of the branches (each one compiled by the once path when it carries
    the once flag, by [genElement] otherwise, in order, the first one
    after the if-guard of the element is marked processed); the tail is
    the last compiled form when the last branch has no guard, and the
    empty-node call [_e()] when it has one. *)
Theorem C1_genIf_ternary_chain (el : nat) (e : ASTElement)
    (conds : list ASTIfCondition) (n : nat) (codes : list str)
    (st st' : CodegenState) (s s' : Store) :
  heap s !! el = Some e ->
  ifConditions e = Some conds ->
  guards_ok conds = true ->
  compileBranches env n conds st (assign el (set_ifProcessed true) s) = Some (codes, st', s') ->
  Returns (fun fuel => genIf env fuel el None None) st s (ternary_chain conds codes) st' s'.
Proof.
  intros He Hc Hg Hb. exists (S (n + length conds + 2)).
  cbn [genIf]. grun (run_modEl el (set_ifProcessed true) st s e He).
  grun (run_getEl _ st _ _ (assign_lookup _ (set_ifProcessed true) _ _ He)).
  change (ifConditions (set_ifProcessed true e)) with (ifConditions e). rewrite Hc.
  by apply (genIfConditions_chain n).
Qed.

End Conditional.

(** The markup [<a v-if="x"/><b v-else-if="y"/><c v-else/>] compiles to
    [(x)?A:(y)?B:C]. *)
Lemma C1_genIf_ternary_chain_witness :
  exists st' s',
    Returns (fun fuel => genIf Sample.env fuel 1 None None) Sample.state Sample.conditional
            (lit "(x)?_c('a'):(y)?_c('b'):_c('c')") st' s'.
Proof.
  eexists _, _.
  apply (C1_genIf_ternary_chain Sample.env 1
           (set_ifConditions (Some [mkCond (Some (lit "x")) 1; mkCond (Some (lit "y")) 2;
                                    mkCond None 3])
              (set_if (Some (lit "x")) (Sample.el "a" (Some 0) [])))
           [mkCond (Some (lit "x")) 1; mkCond (Some (lit "y")) 2; mkCond None 3]
           5 [lit "_c('a')"; lit "_c('b')"; lit "_c('c')"]);
    [reflexivity|reflexivity|reflexivity|vm_compute; reflexivity].
Defined.

Section Static.
Context (env : Env).

(** C2 (amended). For an element that is flagged a static root and not yet
    static-processed, [genElement] goes through [genStatic]: after the
    element itself is compiled as an independent body (which may append
    entries of its own), exactly one entry
    [with(this){return <compiled element>}] is appended at the end of the
    static-program list, and the result is the reference [_m(i)] with [i]
    the index of that entry, followed by [,true] exactly when the element
    is flagged [staticInFor].  The entries that were in the list before
    stay at their indices, so [i] is an index no earlier reference has. *)
Theorem C2_static_root_appends_own_entry (n el : nat) (e e1 : ASTElement)
    (st st1 : CodegenState) (s s0 s1 : Store) (code : str) :
  inheritPre el st s = Some (tt, st, s0) ->
  heap s0 !! el = Some e ->
  staticRoot e = true ->
  staticProcessed e = false ->
  genElement env n el (if pre e then set_state_pre true st else st)
             (assign el (set_staticProcessed true) s0) = Some (code, st1, s1) ->
  heap s1 !! el = Some e1 ->
  let entry := lit "with(this){return " ++ code ++ lit "}" in
  let i := length (staticRenderFns st1) in
  let st2 := set_state_pre (state_pre st)
               (set_staticRenderFns (staticRenderFns st1 ++ [entry]) st1) in
  Returns (fun fuel => genElement env fuel el) st s
          (lit "_m(" ++ num i ++ (if staticInFor e1 then lit ",true" else []) ++ lit ")")
          st2 s1 /\
  staticRenderFns st2 !! i = Some entry /\
  length (staticRenderFns st2) = S i /\
  staticRenderFns st `prefix_of` staticRenderFns st1.
Proof.
  intros Hp He Hr Hn Hc He1 entry i st2. repeat apply conj.
  - exists (S (S n)). cbn [genElement].
    grun Hp. grun (run_getEl el st s0 e He). rewrite run_bind. cbn [getState]. cbv beta iota.
    rewrite Hr, Hn. cbn [andb negb]. cbn [genStatic].
    grun (run_modEl el (set_staticProcessed true) st s0 e He).
    rewrite run_bind. cbn [getState]. cbv beta iota zeta.
    grun (run_getEl el st _ _ (assign_lookup el (set_staticProcessed true) s0 e He)).
    change (pre (set_staticProcessed true e)) with (pre e).
    rewrite run_bind.
    assert (Hw : whenG (pre e) (modState (set_state_pre (pre e))) st
                   (assign el (set_staticProcessed true) s0)
                 = Some (tt, if pre e then set_state_pre true st else st,
                         assign el (set_staticProcessed true) s0))
      by (by destruct (pre e)).
    rewrite Hw. cbv beta iota. grun Hc.
    rewrite run_bind. cbn [pushStaticRenderFn]. cbv beta iota.
    rewrite run_bind. cbn [modState]. cbv beta iota.
    rewrite run_bind. cbn [getState]. cbv beta iota.
    grun (run_getEl el _ s1 e1 He1).
    unfold mret, G_ret, text_if. subst st2 i entry. simpl.
    rewrite length_app. simpl. by replace (length (staticRenderFns st1) + 1 - 1)
      with (length (staticRenderFns st1)) by lia.
  - subst st2 i. simpl. by rewrite lookup_app_r, Nat.sub_diag.
  - subst st2 i. simpl. rewrite length_app. simpl. lia.
  - destruct (genElement_keeps env n el _ _ _ _ _ Hc) as (_ & Hpre & _).
    by destruct (pre e).
Qed.

End Static.

(** Two structurally identical static roots, compiled one after the other,
    get the entries 0 and 1. *)
Lemma C2_static_root_appends_own_entry_witness :
  exists st1 s1 st2 s2,
    Returns (fun fuel => genElement Sample.env fuel 1) Sample.state Sample.twins
            (lit "_m(0)") st1 s1 /\
    Returns (fun fuel => genElement Sample.env fuel 2) st1 s1 (lit "_m(1)") st2 s2 /\
    staticRenderFns st2 !! 0 = staticRenderFns st2 !! 1 /\
    length (staticRenderFns st2) = 2.
Proof.
  pose (p := set_staticRoot true (Sample.el "p" (Some 0) [NText (lit "a") false])).
  pose (code := lit "_c('p',[_v(" ++ dq ++ lit "a" ++ dq ++ lit ")])").
  pose (s1 := assign 1 (set_staticProcessed true) Sample.twins).
  pose (st1 := set_state_pre false
                 (set_staticRenderFns [lit "with(this){return " ++ code ++ lit "}"]
                    Sample.state)).
  exists st1, s1. eexists _, _.
  split.
  { apply (C2_static_root_appends_own_entry Sample.env 5 1 p (set_staticProcessed true p)
             Sample.state Sample.state Sample.twins Sample.twins s1 code);
      [reflexivity|reflexivity|reflexivity|reflexivity|vm_compute; reflexivity|reflexivity]. }
  split.
  { apply (C2_static_root_appends_own_entry Sample.env 5 2 p (set_staticProcessed true p)
             st1 st1 s1 s1 (assign 2 (set_staticProcessed true) s1) code);
      [reflexivity|reflexivity|reflexivity|reflexivity|vm_compute; reflexivity|reflexivity]. }
  split; reflexivity.
Defined.

(** The claim as stated fails where the content of the static root hoists
    a node of its own: [<div><p v-once>a</p></div>] appends two entries. *)
Lemma C2_counterexample :
  exists st' s',
    genElement Sample.env 20 0 Sample.state Sample.nested_static
      = Some (lit "_m(1)", st', s') /\
    staticRenderFns Sample.state = [] /\
    staticRenderFns st' =
      [lit "with(this){return _c('p',[_v(" ++ dq ++ lit "a" ++ dq ++ lit ")])}";
       lit "with(this){return _c('div',[_m(0)])}"] /\
    ~ (exists entry, staticRenderFns st' = staticRenderFns Sample.state ++ [entry]).
Proof.
  eexists _, _. split; [vm_compute; reflexivity|]. split; [reflexivity|]. split; [reflexivity|].
  intros [entry H]. vm_compute in H. discriminate H.
Qed.

Section Once.
Context (env : Env).

Lemma nearestForKey_assign b h el e f p :
  h !! el = Some e ->
  for_ (f e) = for_ e -> key (f e) = key e -> parent (f e) = parent e ->
  nearestForKey b (<[el := f e]> h) p = nearestForKey b h p.
Proof.
  intros He Hf Hk Hp. revert p. induction b as [|b IH]; intros [r|]; simpl; try done.
  destruct (decide (r = el)) as [->|Hne].
  - rewrite list_lookup_insert_eq by (by eapply lookup_lt_Some). rewrite He, Hf, Hk, Hp.
    by rewrite IH.
  - rewrite list_lookup_insert_ne by done. destruct (h !! r) as [e'|]; [|done].
    by rewrite IH.
Qed.

(** C3 (amended). For an element that is not conditional and is flagged
    [staticInFor], [genOnce] looks at the nearest ancestor that carries an
    iteration binding.  When there is no such ancestor or it has no key,
    [genOnce] hands one diagnostic to the sink (in a build that is not the
    production build) and then returns what [genElement] returns for the
    element; otherwise it returns [_o(<compiled element>,<id>,<key>)] with
    [<key>] the key of that ancestor and [<id>] the value of the run-once
    counter after the element is compiled, which is not below the value
    before; the counter is then [<id> + 1]. *)
Theorem C3_genOnce_nearest_iteration_key (n el : nat) (e : ASTElement)
    (k : option str) (st : CodegenState) (s : Store) :
  heap s !! el = Some e ->
  truthy (if_ e) = false ->
  staticInFor e = true ->
  nearest_iteration_key (heap s) e = Some k ->
  let s1 := assign el (set_onceProcessed true) s in
  (truthy k = false ->
   forall r,
     genElement env n el st
       (if production env then s1 else mkStore (heap s1) (log s1 ++ [onceWarning])) = Some r ->
     exists fuel, genOnce env fuel el st s = Some r) /\
  (truthy k = true ->
   forall code st1 s1',
     genElement env n el st s1 = Some (code, st1, s1') ->
     Returns (fun fuel => genOnce env fuel el) st s
             (lit "_o(" ++ code ++ lit "," ++ num (onceId st1) ++ lit "," ++ show k ++ lit ")")
             (set_onceId (S (onceId st1)) st1) s1' /\
     onceId st <= onceId st1).
Proof.
  intros He Hif Hin Hk s1.
  assert (Hstart : forall (X : G str),
    genOnce env (S n) el st s =
    (match nearestForKey (length (heap s1)) (heap s1) (parent e) with
     | Some key =>
       if negb (truthy key)
       then _ ← devWarn env (lit "v-once can only be used inside v-for that is keyed. ") false;
            genElement env n el
       else code ← genElement env n el; id ← nextOnceId;
            mret (lit "_o(" ++ code ++ lit "," ++ num id ++ lit "," ++ show key ++ lit ")")
     | None => failG
     end) st s1).
  { intros _. cbn [genOnce].
    grun (run_modEl el (set_onceProcessed true) st s e He).
    grun (run_getEl el st _ _ (assign_lookup el (set_onceProcessed true) s e He)).
    change (if_ (set_onceProcessed true e)) with (if_ e).
    change (staticInFor (set_onceProcessed true e)) with (staticInFor e).
    change (parent (set_onceProcessed true e)) with (parent e).
    rewrite Hif, Hin. cbn [andb]. rewrite run_bind. reflexivity. }
  assert (Hkey : nearestForKey (length (heap s1)) (heap s1) (parent e) = Some k).
  { subst s1. unfold assign. rewrite He. cbn [heap].
    rewrite length_insert. rewrite nearestForKey_assign by done. exact Hk. }
  split.
  - intros Ht r Hr. exists (S n). rewrite (Hstart (mret [])), Hkey, Ht. cbn [negb].
    rewrite run_bind. unfold devWarn, whenG, warnG.
    destruct (production env); exact Hr.
  - intros Ht code st1 s1' Hc. split.
    + exists (S n). rewrite (Hstart (mret [])), Hkey, Ht. cbn [negb].
      rewrite run_bind, Hc. reflexivity.
    + by destruct (genElement_keeps env n el _ _ _ _ _ Hc) as (Hle & _).
Qed.

End Once.

(** Inside a keyed iteration the once node is memoized under a fresh id. *)
Lemma C3_genOnce_nearest_iteration_key_witness :
  exists st' s',
    Returns (fun fuel => genOnce Sample.env fuel 2) Sample.state Sample.once_in_keyed
            (lit "_o(_c('b'),0,x.id)") st' s'.
Proof.
  destruct (C3_genOnce_nearest_iteration_key Sample.env 5 2
              (set_staticInFor true (set_once true (Sample.el "b" (Some 1) [])))
              (Some (lit "x.id")) Sample.state Sample.once_in_keyed
              eq_refl eq_refl eq_refl eq_refl) as [_ H].
  eexists _, _.
  refine (proj1 (H eq_refl (lit "_c('b')") Sample.state
                   (assign 2 (set_pre false)
                      (assign 2 (set_onceProcessed true) Sample.once_in_keyed)) _)).
  vm_compute. reflexivity.
Defined.

(** The claim as stated fails where the nearest iteration has no key and an
    outer one has: the outer key is not used, the node is compiled the
    ordinary way and diagnosed. *)
Lemma C3_counterexample :
  (exists a b c,
     heap Sample.once_in_unkeyed !! 2 = Some c /\ parent c = Some 1 /\
     heap Sample.once_in_unkeyed !! 1 = Some b /\ parent b = Some 0 /\
     heap Sample.once_in_unkeyed !! 0 = Some a /\
     truthy (for_ a) = true /\ truthy (key a) = true /\
     once c = true /\ staticInFor c = true /\ truthy (if_ c) = false) /\
  (exists st' s',
     genOnce Sample.env 10 2 Sample.state Sample.once_in_unkeyed
       = Some (lit "_c('b')", st', s') /\
     log s' = [onceWarning]) /\
  ~ (exists fuel code id key st' s',
       genOnce Sample.env fuel 2 Sample.state Sample.once_in_unkeyed
         = Some (lit "_o(" ++ code ++ lit "," ++ id ++ lit "," ++ key ++ lit ")", st', s')).
Proof.
  split; [|split].
  - eexists _, _, _. repeat split; reflexivity.
  - eexists _, _. split; vm_compute; reflexivity.
  - intros (fuel & code & id & key & st' & s' & H).
    assert (H10 : exists r, genOnce Sample.env 10 2 Sample.state Sample.once_in_unkeyed
                            = Some (lit "_c('b')", r.1, r.2))
      by (eexists (_, _); vm_compute; reflexivity).
    destruct H10 as [r H10].
    apply (genOnce_mono Sample.env fuel (fuel + 10)) in H; [|lia].
    apply (genOnce_mono Sample.env 10 (fuel + 10)) in H10; [|lia].
    rewrite H in H10. vm_compute in H10. discriminate H10.
Qed.

Section Children.
Context (env : Env).

Lemma some_block_spec h p conds :
  forallb (fun c => bool_decide (is_Some (h !! block c))) conds = true ->
  some_block h p conds = Some (existsb (branch_is h p) conds).
Proof.
  induction conds as [|c conds IH]; simpl; [done|].
  intros [Hc Hr]%andb_prop. apply bool_decide_eq_true in Hc as [b Hb].
  unfold branch_is at 1. rewrite Hb. destruct (p b); [done|]. by apply IH.
Qed.

Lemma el_or_branch_spec h p e :
  forallb (fun c => bool_decide (is_Some (h !! block c))) (default [] (ifConditions e)) = true ->
  el_or_branch h p e = Some (p e || existsb (branch_is h p) (default [] (ifConditions e))).
Proof.
  intros H. unfold el_or_branch. destruct (p e); [done|].
  destruct (ifConditions e) as [conds|]; [|done]. by apply some_block_spec.
Qed.

(** The loop with its early exit computes the level as it is described. *)
Lemma getNormalizationType_from_spec h mc cs res :
  forallb (child_refs_ok h) cs = true ->
  getNormalizationType_from h mc cs res =
  Some (if existsb (child_or_branch_is h needsNormalization) cs then 2
        else if existsb (child_or_branch_is h mc) cs then 1
        else res).
Proof.
  revert res. induction cs as [|c cs IH]; intros res; simpl; [done|].
  intros [Hc Hr]%andb_prop. destruct c as [r| |]; simpl; [|by apply IH..].
  simpl in Hc. destruct (h !! r) as [e|] eqn:Hl; [|done].
  rewrite (el_or_branch_spec h needsNormalization e Hc).
  destruct (needsNormalization e || _); [done|].
  rewrite (el_or_branch_spec h mc e Hc).
  destruct (mc e || _); simpl; rewrite IH by done.
  - by repeat case_match.
  - done.
Qed.

Lemma getNormalizationType_spec h mc cs :
  forallb (child_refs_ok h) cs = true ->
  getNormalizationType h cs mc = Some (normalization_level h mc cs).
Proof. intros H. unfold getNormalizationType. by rewrite getNormalizationType_from_spec. Qed.

Lemma mapG_mono {A B} (f f' : A -> G B) (l : list A) st s r :
  (forall a st s r, f a st s = Some r -> f' a st s = Some r) ->
  mapG f l st s = Some r -> mapG f' l st s = Some r.
Proof. intros H. apply le_G_mapG. intros a ? ? ?. apply H. Qed.

(** C4 (amended). For an element with children: when the only child is an
    element that carries an iteration binding and is neither a [template]
    nor a [slot], [genChildren] returns the compiled text of that child,
    followed by [,1] exactly when the child is component-like.  Otherwise
    it returns the array of the compiled children followed by [,L] when
    [L] is not zero; [L] is the normalization level of the children when
    the caller asks for the check ([checkSkip]), and 0 when it does not. *)
Theorem C4_genChildren_normalization (n el : nat) (e : ASTElement) (checkSkip : bool)
    (st : CodegenState) (s : Store) :
  heap s !! el = Some e ->
  children e <> [] ->
  (forall r c code st' s',
     children e = [NElement r] ->
     heap s !! r = Some c ->
     truthy (for_ c) = true -> is_tag c "template" = false -> is_tag c "slot" = false ->
     genElement env n r st s = Some (code, st', s') ->
     Returns (fun fuel => genChildren env fuel el checkSkip None None) st s
             (Some (code ++ (if maybeComponent st c then lit ",1" else []))) st' s') /\
  (single_iteration (heap s) (children e) = false ->
   forallb (child_refs_ok (heap s)) (children e) = true ->
   forall codes st' s',
     mapG (genNode env n) (children e) st s = Some (codes, st', s') ->
     let L := if checkSkip
              then normalization_level (heap s) (maybeComponent st) (children e)
              else 0 in
     Returns (fun fuel => genChildren env fuel el checkSkip None None) st s
             (Some (lit "[" ++ join (lit ",") codes ++ lit "]" ++
                    (if L =? 0 then [] else lit "," ++ num L))) st' s').
Proof.
  intros He Hne. split.
  - intros r c code st' s' Hcs Hc Hfor Ht Hs Hg. exists (S n). cbn [genChildren].
    grun (run_getEl el st s e He). rewrite Hcs. cbv beta iota.
    rewrite !run_bind, (run_getEl r st s c Hc). cbv beta iota.
    rewrite Hfor, Ht, Hs. cbn [andb negb]. unfold mret at 1, G_ret at 1. cbv beta iota.
    gsimp. rewrite Hg. unfold text_if. reflexivity.
  - intros Hsingle Hrefs codes st' s' Hm L. exists (S (S n)).
    assert (Hm' : mapG (fun c => genNode env (S n) c) (children e) st s
                  = Some (codes, st', s')).
    { revert Hm. apply mapG_mono. intros a ? ? ?. apply genNode_mono. lia. }
    cbn [genChildren]. grun (run_getEl el st s e He).
    destruct (children e) as [|c0 rest] eqn:Hcs; [done|].
    assert (Hno : (match c0, rest with
                   | NElement r, [] =>
                     c ← getEl r;
                     mret (if truthy (for_ c) && negb (is_tag c "template") &&
                              negb (is_tag c "slot")
                           then Some (r, c) else None)
                   | _, _ => mret None
                   end) st s = Some (None, st, s)).
    { destruct c0 as [r| |]; try done. destruct rest; [|done].
      simpl in Hsingle, Hrefs. destruct (heap s !! r) as [c|] eqn:Hc; [|done].
      rewrite run_bind, (run_getEl r st s c Hc). by rewrite Hsingle. }
    rewrite run_bind, Hno. gsimp.
    assert (HL : (if checkSkip
                  then match getNormalizationType (heap s) (c0 :: rest) (maybeComponent st) with
                       | Some k => mret k
                       | None => failG
                       end
                  else mret 0) st s = Some (L, st, s)).
    { subst L. destruct checkSkip; [|done]. by rewrite getNormalizationType_spec. }
    rewrite HL. gsimp. rewrite Hm'. gsimp.
    unfold text_if. by destruct (L =? 0).
Qed.

End Children.

(** [<div><span v-for="x in xs"/></div>]: the single iteration child is not
    wrapped in an array. *)
Lemma C4_genChildren_normalization_witness :
  exists st' s',
    Returns (fun fuel => genChildren Sample.env fuel 0 true None None)
            Sample.state Sample.single_for
            (Some (lit "_l((xs),function(x){return _c('span')})")) st' s'.
Proof.
  destruct (C4_genChildren_normalization Sample.env 5 0
              (Sample.el "div" None [NElement 1]) true Sample.state Sample.single_for
              eq_refl) as [H _]; [discriminate|].
  eexists _, _.
  refine (H 1 (set_alias (Some (lit "x"))
                 (set_for (Some (lit "xs")) (Sample.el "span" (Some 0) [])))
            (lit "_l((xs),function(x){return _c('span')})") Sample.state
            (assign 1 (set_forProcessed true) (assign 1 (set_pre false) Sample.single_for))
            eq_refl eq_refl eq_refl eq_refl eq_refl _).
  vm_compute. reflexivity.
Defined.

(** The claim as stated fails for a call without the normalization check,
    as [genElement] makes it for the children of a transparent template:
    a [slot] child gives level 2, and no level is written. *)
Lemma C4_counterexample :
  normalization_level (heap Sample.template_children) (maybeComponent Sample.state)
                      [NElement 1; NText (lit "a") false] = 2 /\
  (exists st' s',
     genChildren Sample.env 10 0 false None None Sample.state Sample.template_children
       = Some (Some (lit "[_t(" ++ dq ++ lit "default" ++ dq ++ lit "),_v(" ++ dq ++
                     lit "a" ++ dq ++ lit ")]"), st', s')) /\
  (exists st' s',
     genElement Sample.env 10 0 Sample.state Sample.template_children
       = Some (lit "[_t(" ++ dq ++ lit "default" ++ dq ++ lit "),_v(" ++ dq ++
               lit "a" ++ dq ++ lit ")]", st', s')).
Proof.
  split; [reflexivity|]. split; eexists _, _; vm_compute; reflexivity.
Qed.

Section InlineTemplate.
Context (env : Env).

(** C8. For an element whose single child is an element, the nested
    compile of [genInlineTemplate] is a [generate] of the child, which
    starts from a newly constructed codegen state (counter 0, empty
    static-program list); its program and its static-program list appear
    in the emitted [inlineTemplate:{render:...,staticRenderFns:[...]}]
    text only, and the codegen state of the enclosing compile, with its
    static-program list and its run-once counter, is after the nested
    compile what it was before. *)
Theorem C8_inline_template_nested_state (n el r : nat) (e : ASTElement)
    (st nested : CodegenState) (s s' : Store) (code : str) :
  heap s !! el = Some e ->
  children e = [NElement r] ->
  genElement env n r (newCodegenState env (options st)) s = Some (code, nested, s') ->
  Returns (fun fuel => genInlineTemplate env fuel el) st s
          (Some (lit "inlineTemplate:{render:function(){" ++
                 (lit "with(this){return " ++ code ++ lit "}") ++
                 lit "},staticRenderFns:[" ++
                 join (lit ",")
                      ((fun c => lit "function(){" ++ c ++ lit "}") <$> staticRenderFns nested) ++
                 lit "]}"))
          st s' /\
  onceId (newCodegenState env (options st)) = 0 /\
  staticRenderFns (newCodegenState env (options st)) = [].
Proof.
  intros He Hc Hg. split; [|done].
  exists (S (S n)). cbn [genInlineTemplate].
  grun (run_getEl el st s e He). rewrite Hc.
  rewrite run_bind.
  assert (Hw : forall b m, whenG (negb (production env) && b) (warnG m false) st s
                           = Some (tt, st, if negb (production env) && b
                                           then mkStore (heap s) (log s ++ [mkDiag m false])
                                           else s)).
  { intros b m. unfold whenG, warnG. by destruct (negb (production env) && b). }
  cbn [bool_decide decide_rel]. rewrite Hw.
  replace (negb (bool_decide ([] = [])) || false) with false by done.
  rewrite andb_false_r. cbv beta iota.
  rewrite run_bind. unfold nestedG. cbn [generate]. rewrite Hg. reflexivity.
Qed.

End InlineTemplate.

(** The static root inside the inline template lands in the nested list;
    the enclosing state is untouched. *)
Lemma C8_inline_template_nested_state_witness :
  exists s',
    Returns (fun fuel => genInlineTemplate Sample.env fuel 0) Sample.state Sample.inline
            (Some (lit "inlineTemplate:{render:function(){with(this){return _c('div',[_m(0)])}}," ++
                   lit "staticRenderFns:[function(){with(this){return _c('p',[_v(" ++ dq ++
                   lit "a" ++ dq ++ lit ")])}}]}"))
            Sample.state s'.
Proof.
  eexists.
  refine (proj1 (C8_inline_template_nested_state Sample.env 8 0 1
                   (set_inlineTemplate true (set_plain false (Sample.el "comp" None [NElement 1])))
                   Sample.state
                   (set_staticRenderFns
                      [lit "with(this){return _c('p',[_v(" ++ dq ++ lit "a" ++ dq ++ lit ")])}"]
                      Sample.state)
                   Sample.inline _ (lit "_c('div',[_m(0)])") eq_refl eq_refl _)).
  vm_compute. reflexivity.
Defined.

(** ** The text parser *)

Lemma starts_with_app p s : starts_with p s = true -> s = p ++ drop (length p) s.
Proof.
  revert s. induction p as [|a p IH]; intros [|b s]; simpl; try done.
  intros [Hab Hp]%andb_prop. apply N.eqb_eq in Hab as ->. f_equal. by apply IH.
Qed.

Lemma starts_with_length p s : starts_with p s = true -> length p <= length s.
Proof.
  revert s. induction p as [|a p IH]; intros [|b s]; simpl; try done; [lia|].
  intros [_ Hp]%andb_prop. apply IH in Hp. lia.
Qed.

(** The body that [match_body] finds lies inside the text, is not empty
    for a fresh match, and is followed by the closing delimiter. *)
Lemma match_body_spec cr close n :
  forall s started b,
    length s <= n ->
    match_body cr close s started = Some b ->
    b <= length s /\ starts_with close (drop b s) = true /\ (started = false -> 1 <= b).
Proof.
  induction n as [|n IH]; intros s started b Hlen.
  - destruct s; [|simpl in Hlen; lia]. simpl.
    destruct (started && starts_with close []) eqn:E; [|done].
    intros [= <-]. apply andb_prop in E as [-> E]. by repeat split.
  - destruct s as [|c rest]; simpl.
    { destruct (started && starts_with close []) eqn:E; [|done].
      intros [= <-]. apply andb_prop in E as [-> E]. by repeat split. }
    destruct (started && starts_with close (c :: rest)) eqn:E.
    { intros [= <-]. apply andb_prop in E as [-> E]. repeat split; [lia|done|done]. }
    simpl in Hlen.
    assert (Hstep : forall b', match_body cr close rest true = Some b' ->
                               S b' <= S (length rest) /\
                               starts_with close (drop (S b') (c :: rest)) = true /\
                               (started = false -> 1 <= S b')).
    { intros b' Hb'. destruct (IH rest true b' ltac:(lia) Hb') as (H1 & H2 & _).
      repeat split; [lia|done|lia]. }
    destruct (negb (is_line_terminator c)).
    { destruct (match_body cr close rest true) as [b'|] eqn:Hb'; [|done].
      intros [= <-]. by apply Hstep. }
    destruct (N.eqb c 10).
    { destruct (match_body cr close rest true) as [b'|] eqn:Hb'; [|done].
      intros [= <-]. by apply Hstep. }
    destruct (cr && N.eqb c 13); [|done].
    destruct rest as [|d rest']; [done|].
    destruct (N.eqb d 10); [|done].
    destruct (match_body cr close rest' true) as [b'|] eqn:Hb'; [|done].
    intros [= <-]. simpl in Hlen.
    destruct (IH rest' true b' ltac:(lia) Hb') as (H1 & H2 & _).
    repeat split; [simpl; lia|done|lia].
Qed.

Lemma match_at_spec re s b :
  match_at re s = Some b ->
  length (re_open re) + b + length (re_close re) <= length s /\
  starts_with (re_open re) s = true /\
  starts_with (re_close re) (drop (length (re_open re) + b) s) = true /\
  1 <= b.
Proof.
  unfold match_at. destruct (starts_with (re_open re) s) eqn:Ho; [|done].
  intros Hm.
  destruct (match_body_spec _ _ _ _ _ _ (Nat.le_refl _) Hm) as (H1 & H2 & H3).
  apply starts_with_length in Ho as Ho'. apply starts_with_length in H2 as H2'.
  rewrite drop_drop in H2. rewrite !length_drop in H2'. rewrite length_drop in H1.
  specialize (H3 eq_refl). repeat split; [lia|done|done].
Qed.

Lemma search_spec re s off b :
  search re s = Some (off, b) ->
  off + length (re_open re) + b + length (re_close re) <= length s /\
  starts_with (re_open re) (drop off s) = true /\
  starts_with (re_close re) (drop (off + length (re_open re) + b) s) = true /\
  1 <= b.
Proof.
  revert off. induction s as [|c rest IH]; intros off; simpl.
  - destruct (match_at re []) as [b'|] eqn:Hm; [|done].
    intros [= <- <-]. apply match_at_spec in Hm as (H1 & H2 & H3 & H4).
    repeat split; [simpl in *; lia|done|done|done].
  - destruct (match_at re (c :: rest)) as [b'|] eqn:Hm.
    + intros [= <- <-]. apply match_at_spec in Hm as (H1 & H2 & H3 & H4).
      repeat split; [simpl in *; lia|done|done|done].
    + destruct (search re rest) as [[off' b']|] eqn:Hs; [|done].
      intros [= <- <-]. destruct (IH off' eq_refl) as (H1 & H2 & H3 & H4).
      simpl. repeat split; [lia|done|done|done].
Qed.

Section TextParserProps.
Context (env : Env).

(** [exec] from a position inside the text. *)
Lemma exec_search re i text :
  i <= length text ->
  exec (mkRegExp re i) text =
  match search re (drop i text) with
  | Some (off, b) =>
    (Some (mkMatch (i + off)
                   (take (length (re_open re) + b + length (re_close re)) (drop (i + off) text))
                   (take b (drop (i + off + length (re_open re)) text))),
     mkRegExp re (i + off + (length (re_open re) + b + length (re_close re))))
  | None => (None, mkRegExp re 0)
  end.
Proof.
  intros Hi. unfold exec. simpl.
  destruct (length text <? i) eqn:E; [apply Nat.ltb_lt in E; lia|].
  by destruct (search re (drop i text)) as [[off b]|].
Qed.

Lemma segments_budget re b b' text :
  length text < b -> length text < b' -> segments b re text = segments b' re text.
Proof.
  revert b' text. induction b as [|b IH]; intros b' text Hb Hb'; [lia|].
  destruct b' as [|b']; [lia|]. simpl.
  destruct (search re text) as [[off len]|] eqn:Hs; [|done].
  apply search_spec in Hs as (H1 & _ & _ & H4).
  f_equal. f_equal. apply IH; rewrite length_drop; lia.
Qed.

Lemma parseText_loop_S k text re toks raws lastIdx :
  parseText_loop env (S k) text re toks raws lastIdx =
  match exec re text with
  | (Some m, re') =>
    let index := match_index m in
    let '(tokens1, rawTokens1) :=
      if lastIdx <? index
      then
        let tokenValue := take (index - lastIdx) (drop lastIdx text) in
        (toks ++ [JSON_stringify tokenValue], raws ++ [TokString tokenValue])
      else (toks, raws) in
    let exp := parseFilters env (trim (match_1 m)) in
    parseText_loop env k text re'
      (tokens1 ++ [lit "_s(" ++ exp ++ lit ")"])
      (rawTokens1 ++ [TokBinding exp])
      (index + length (match_0 m))
  | (None, re') => Some (toks, raws, lastIdx, re')
  end.
Proof. reflexivity. Qed.

(** The loop of [parseText], started at [i] with the pattern at [i], runs
    through the spans from [i] on. *)
Lemma parseText_loop_spec re text :
  forall budget i toks raws,
    i <= length text ->
    length text - i < budget ->
    exists L j,
      parseText_loop env budget text (mkRegExp re i) toks raws i =
        Some (toks ++ (segment_code env <$> L), raws ++ (segment_token env <$> L), j,
              mkRegExp re 0) /\
      j <= length text /\
      segments (S (length text - i)) re (drop i text) =
        L ++ (if j <? length text then [SegText (drop j text)] else []).
Proof.
  induction budget as [|budget IH]; intros i toks raws Hi Hb; [lia|].
  rewrite parseText_loop_S, exec_search by done.
  destruct (search re (drop i text)) as [[off b]|] eqn:Hs.
  - pose proof (search_spec _ _ _ _ Hs) as (H1 & _ & _ & H4).
    rewrite length_drop in H1.
    set (len := length (re_open re) + b + length (re_close re)) in *.
    cbn [match_index match_0 match_1].
    assert (Hlen0 : length (take len (drop (i + off) text)) = len).
    { rewrite length_take, length_drop. subst len. lia. }
    rewrite Hlen0.
    assert (Hseg0 : forall L j,
      segments (S (length text - (i + off + len))) re (drop (i + off + len) text) =
        L ++ (if j <? length text then [SegText (drop j text)] else []) ->
      segments (S (length text - i)) re (drop i text) =
        ((if off =? 0 then [] else [SegText (take off (drop i text))]) ++
         SegExpr (take b (drop (i + off + length (re_open re)) text)) :: L) ++
        (if j <? length text then [SegText (drop j text)] else [])).
    { intros L j Hseg. cbn [segments]. rewrite Hs. rewrite !drop_drop.
      replace (i + (off + length (re_open re))) with (i + off + length (re_open re)) by lia.
      replace (i + (off + length (re_open re) + b + length (re_close re)))
        with (i + off + len) by (subst len; lia).
      rewrite (segments_budget re _ (S (length text - (i + off + len))))
        by (rewrite length_drop; subst len; lia).
      rewrite Hseg. by rewrite <- app_assoc. }
    destruct off as [|off].
    + replace (i + 0) with i in * by lia. rewrite Nat.ltb_irrefl.
      edestruct (IH (i + len)) as (L & j & HL & Hj & Hseg);
        [subst len; lia|subst len; lia|].
      exists (SegExpr (take b (drop (i + length (re_open re)) text)) :: L), j.
      split; [|split; [done|]].
      * rewrite HL. rewrite !fmap_cons. cbn [segment_code segment_token].
        by rewrite <- !app_assoc.
      * by apply Hseg0.
    + assert (Hlt : (i <? i + S off) = true) by (apply Nat.ltb_lt; lia). rewrite Hlt.
      replace (i + S off - i) with (S off) by lia.
      edestruct (IH (i + S off + len)) as (L & j & HL & Hj & Hseg);
        [subst len; lia|subst len; lia|].
      exists (SegText (take (S off) (drop i text)) ::
              SegExpr (take b (drop (i + S off + length (re_open re)) text)) :: L), j.
      split; [|split; [done|]].
      * rewrite HL. rewrite !fmap_cons. cbn [segment_code segment_token].
        by rewrite <- !app_assoc.
      * by apply Hseg0.
  - exists [], i. split; [|split; [done|]].
    + simpl. by rewrite !app_nil_r.
    + cbn [segments]. rewrite Hs. simpl.
      destruct (i <? length text) eqn:Ei.
      * apply Nat.ltb_lt in Ei. destruct (drop i text) eqn:Hd; [|done].
        apply (f_equal length) in Hd. rewrite length_drop in Hd. simpl in Hd. lia.
      * apply Nat.ltb_ge in Ei. by rewrite drop_ge.
Qed.

Lemma segments_source re : forall budget text,
  length text < budget ->
  concat (segment_source re <$> segments budget re text) = text.
Proof.
  induction budget as [|budget IH]; intros text Hb; [lia|]. cbn [segments].
  destruct (search re text) as [[off b]|] eqn:Hs.
  - pose proof (search_spec _ _ _ _ Hs) as (H1 & H2 & H3 & H4).
    rewrite fmap_app, concat_app, fmap_cons, concat_cons.
    rewrite IH by (rewrite length_drop; lia).
    cbn [segment_source].
    apply starts_with_app in H2, H3. rewrite drop_drop in H2, H3.
    assert (E : text = take off text ++ re_open re ++
                       take b (drop (off + length (re_open re)) text) ++ re_close re ++
                       drop (off + length (re_open re) + b + length (re_close re)) text).
    { rewrite <- (take_drop off text) at 1. f_equal.
      rewrite H2 at 1. f_equal.
      rewrite <- (take_drop b (drop (off + length (re_open re)) text)) at 1. f_equal.
      rewrite drop_drop. rewrite H3 at 1. done. }
    etrans; [|symmetry; exact E]. rewrite <- !app_assoc. f_equal.
    destruct off; [done|]. cbn [Nat.eqb fmap list_fmap segment_source concat].
    by rewrite app_nil_r.
  - destruct text; [done|]. cbn [nonempty fmap list_fmap segment_source concat].
    by rewrite app_nil_r.
Qed.

Lemma pair_lookup_store {A} (k k' : str * str) (v : A) c :
  pair_lookup k' (pair_store k v c) =
  if bool_decide (k' = k) then Some v else pair_lookup k' c.
Proof.
  induction c as [|[k0 v0] c IH]; simpl; [done|].
  destruct (bool_decide (k = k0)) eqn:E; simpl.
  - apply bool_decide_eq_true in E as <-. by destruct (bool_decide (k' = k)).
  - destruct (bool_decide (k' = k0)) eqn:E'; [|done].
    apply bool_decide_eq_true in E' as ->.
    destruct (bool_decide (k0 = k)) eqn:E''; [|done].
    apply bool_decide_eq_true in E'' as ->. by rewrite bool_decide_eq_true_2 in E.
Qed.

(** With the module state in order, [parseText] works with the pattern of
    its delimiters, at rest, and storing the pattern at rest keeps the
    module state in order. *)
Lemma tagRE_of_ok d g :
  text_globals_ok g ->
  exists g0, tagRE_of d g = (mkRegExp (pattern_of d) 0, g0) /\
             text_globals_ok (put_tagRE d (mkRegExp (pattern_of d) 0) g0).
Proof.
  intros [Hd Hc]. destruct d as [d|]; simpl.
  - destruct (pair_lookup d (buildRegex_cache g)) as [re|] eqn:Hl.
    + exists g. rewrite (Hc _ _ Hl). split; [done|]. split; [done|]. simpl.
      intros d' re'. rewrite pair_lookup_store. case_bool_decide as E; [by intros [= <-]; subst|].
      apply Hc.
    + eexists. split; [done|]. split; [done|]. simpl.
      intros d' re'. rewrite !pair_lookup_store. case_bool_decide as E; [by intros [= <-]; subst|].
      apply Hc.
  - exists g. rewrite Hd. split; [done|]. split; [done|]. apply Hc.
Qed.

(** What [parseText] returns does not depend on the module state it runs
    from, as long as that state is in order; it leaves it in order. *)
Lemma parseText_run (text : str) (delimiters : option (str * str))
    (g : TextGlobals) :
  text_globals_ok g ->
  let re := pattern_of delimiters in
  let segs := segmentsOf re text in
  exists g',
    parseText env text delimiters g =
      Some (match search re text with
            | None => None
            | Some _ =>
              Some (mkTextResult (join (lit "+") (segment_code env <$> segs))
                                 (segment_token env <$> segs))
            end, g') /\
    text_globals_ok g'.
Proof.
  intros Hok re segs.
  destruct (tagRE_of_ok delimiters g Hok) as (g0 & Ht & Hput).
  exists (put_tagRE delimiters (mkRegExp re 0) g0).
  split; [|done].
  unfold parseText. rewrite Ht. fold re.
  rewrite (exec_search re 0 text) by lia. rewrite drop_0.
  destruct (search re text) as [[off b]|] eqn:Hs; [|done].
  destruct (parseText_loop_spec re text (S (length text)) 0 [] [] ltac:(lia) ltac:(lia))
    as (L & j & HL & Hj & Hseg).
  cbn [re_source]. rewrite HL. rewrite Nat.sub_0_r, drop_0 in Hseg.
  fold (segmentsOf re text) in Hseg. fold segs in Hseg.
  destruct (j <? length text) eqn:Ej.
  - rewrite Hseg, !fmap_app. reflexivity.
  - rewrite Hseg, app_nil_r. reflexivity.
Qed.

(** C5. With the module state of the text parser in order, [parseText]
    returns nothing for a text without a delimiter-enclosed span; for a
    text with one it returns the segments of the text in order, joined by
    [+] with each literal JSON-quoted and each span as [_s(e)], [e] the
    filter-parsed, trimmed inside of the span, together with the parallel
    raw-token list of plain strings and [{'@binding': e}] markers.  The
    segments, spans between their delimiters, make up the text, and the
    module state is in order again after the call. *)
Theorem C5_parseText_segments (text : str) (delimiters : option (str * str))
    (g : TextGlobals) :
  text_globals_ok g ->
  let re := pattern_of delimiters in
  let segs := segmentsOf re text in
  exists g',
    parseText env text delimiters g =
      Some (match search re text with
            | None => None
            | Some _ =>
              Some (mkTextResult (join (lit "+") (segment_code env <$> segs))
                                 (segment_token env <$> segs))
            end, g') /\
    text_globals_ok g' /\
    concat (segment_source re <$> segs) = text.
Proof.
  intros Hok re segs.
  destruct (parseText_run text delimiters g Hok) as (g' & Hrun & Hok').
  exists g'. split; [exact Hrun|]. split; [exact Hok'|].
  apply segments_source. lia.
Qed.

End TextParserProps.

(** The text ["a {{ b | f }} c"] gives the concatenation of the literal
    ["a "], the call [f(b)] wrapped in [_s], and the literal [" c"], for a
    filter sub-parser that resolves [b | f] to [f(b)]. *)
Lemma C5_parseText_segments_witness :
  exists g',
    parseText Sample.env (lit "a {{ b | f }} c") None initialGlobals_text =
      Some (Some (mkTextResult
                    (dq ++ lit "a " ++ dq ++ lit "+_s(f(b))+" ++ dq ++ lit " c" ++ dq)
                    [TokString (lit "a "); TokBinding (lit "f(b)"); TokString (lit " c")]),
            g').
Proof.
  destruct (C5_parseText_segments Sample.env (lit "a {{ b | f }} c") None initialGlobals_text)
    as (g' & H & _).
  - split; [reflexivity|]. intros d re H. discriminate H.
  - exists g'. exact H.
Defined.

(** ** The tokenizer *)

Lemma runT_bind {U A B} (m : T U A) (f : A -> T U B) ts :
  (m ≫= f) ts =
  match m ts with
  | Some (a, ts') => f a ts'
  | None => None
  end.
Proof. reflexivity. Qed.

Lemma runT_read {U A} (f : TState U -> A) ts : readT f ts = Some (f ts, ts).
Proof. reflexivity. Qed.

Lemma runT_ret {U A} (a : A) (ts : TState U) : (mret a : T U A) ts = Some (a, ts).
Proof. reflexivity. Qed.

Lemma runT_mod {U} (f : TState U -> TState U) ts : modT f ts = Some (tt, f ts).
Proof. reflexivity. Qed.

(** Running the steps of the tokenizer whose result is known. *)
Ltac tsimp :=
  repeat (progress (rewrite ?runT_bind, ?runT_read, ?runT_ret, ?runT_mod; cbv beta iota)).




Section Tokenizer.
Context (env : Env) (o : CompilerOptions).

Lemma set_user_id {U} (ts : TState U) : set_user (user ts) ts = ts.
Proof. by destruct ts. Qed.

Lemma run_warn (b : bool) m (ts : TState (list Event)) :
  whenT b (callT_opt ((fun w => w m) <$> hp_warn (recorder o))) ts =
  Some (tt, set_user (user ts ++ if b then [EvWarn m] else []) ts).
Proof. destruct b; [reflexivity|]. simpl. by rewrite app_nil_r, set_user_id. Qed.

Lemma run_end t s e (ts : TState (list Event)) :
  callT_opt ((fun f => f t s e) <$> hp_end (recorder o)) ts =
  Some (tt, set_user (user ts ++ [EvEnd t s e]) ts).
Proof. reflexivity. Qed.

Lemma run_start t a u s e (ts : TState (list Event)) :
  callT_opt ((fun f => f t a u s e) <$> hp_start (recorder o)) ts =
  Some (tt, set_user (user ts ++ [EvStart t a u s e]) ts).
Proof. reflexivity. Qed.

Lemma run_chars t (ts : TState (list Event)) :
  callT_opt ((fun f => f t) <$> hp_chars (recorder o)) ts =
  Some (tt, set_user (user ts ++ [EvChars t]) ts).
Proof. reflexivity. Qed.

Lemma closeTags_run named s e entries (ts : TState (list Event)) :
  closeTags env (recorder o) named s e entries ts =
  Some (tt, set_user (user ts ++ closing_events (negb (production env)) named s e entries) ts).
Proof.
  revert ts. induction entries as [|x entries IH]; intros ts.
  - cbn [closeTags closing_events]. by rewrite app_nil_r, set_user_id.
  - cbn [closeTags closing_events]. rewrite runT_bind, run_warn.
    rewrite runT_bind, run_end, IH.
    assert (Hne : negb (bool_decide (entries = [])) = nonempty entries) by (by destruct entries).
    rewrite Hne. unfold set_user. cbn [user html index lastTag stack reCache].
    by rewrite <- !app_assoc.
Qed.

(** [parseEndTag] as a whole: the events it hands out and the stack it
    leaves. *)
Lemma parseEndTag_run tagName start end_ (ts : TState (list Event)) :
  let s := default (index ts) start in
  let e := default (index ts) end_ in
  let closing :=
    if truthy tagName
    then (fun r : nat * StackEntry => S r.1) <$>
           list_find (fun x => Some (entry_lowerCasedTag x) = Some (toLowerCase (show tagName)))
                     (stack ts)
    else Some (length (stack ts)) in
  parseEndTag env (recorder o) tagName start end_ ts =
  Some (tt,
        match closing with
        | Some cnt =>
          set_lastTag (entry_tag <$> head (drop cnt (stack ts)))
            (set_stack (drop cnt (stack ts))
               (set_user (user ts ++ closing_events (negb (production env)) (truthy tagName)
                                       s e (take cnt (stack ts))) ts))
        | None => set_user (user ts ++ stray_events (show tagName) s e) ts
        end).
Proof.
  intros s e closing. subst closing. unfold parseEndTag. tsimp. cbv zeta. fold s e.
  destruct (truthy tagName).
  - destruct (list_find _ (stack ts)) as [[i x]|]; cbn [fmap option_fmap option_map].
    + rewrite runT_bind, closeTags_run. reflexivity.
    + unfold stray_events.
      destruct (bool_decide (Some (toLowerCase (show tagName)) = Some (lit "br"))) eqn:Eb.
      { apply bool_decide_eq_true in Eb. injection Eb as Eb.
        rewrite (bool_decide_eq_true_2 _ Eb). reflexivity. }
      apply bool_decide_eq_false in Eb.
      rewrite (bool_decide_eq_false_2 (toLowerCase (show tagName) = lit "br"))
        by (intros E; apply Eb; by f_equal).
      destruct (bool_decide (Some (toLowerCase (show tagName)) = Some (lit "p"))) eqn:Ep.
      { apply bool_decide_eq_true in Ep. injection Ep as Ep.
        rewrite (bool_decide_eq_true_2 _ Ep). rewrite runT_bind, run_start, run_end.
        unfold set_user. cbn [user html index lastTag stack reCache].
        by rewrite <- app_assoc. }
      apply bool_decide_eq_false in Ep.
      rewrite (bool_decide_eq_false_2 (toLowerCase (show tagName) = lit "p"))
        by (intros E; apply Ep; by f_equal).
      by rewrite app_nil_r, set_user_id.
  - rewrite runT_bind, closeTags_run. reflexivity.
Qed.


(** C6. An end tag whose lower-cased name is the lower-cased tag of no
    entry of the open-tag stack leaves the stack, the last tag, the text
    and the position as they are and hands out no end event, except that
    the name [br] gets one start event flagged unary and nothing else, and
    the name [p] gets one start event immediately followed by one end
    event. *)
Theorem C6_stray_end_tag name start end_ (ts : TState (list Event)) :
  name <> [] ->
  (forall x, x ∈ stack ts -> entry_lowerCasedTag x <> toLowerCase name) ->
  exists events,
    parseEndTag env (recorder o) (Some name) (Some start) (Some end_) ts =
      Some (tt, mkTState (html ts) (index ts) (lastTag ts) (stack ts) (reCache ts)
                         (user ts ++ events)) /\
    (toLowerCase name = lit "br" -> events = [EvStart name [] true start end_]) /\
    (toLowerCase name = lit "p" ->
     events = [EvStart name [] false start end_; EvEnd name start end_]) /\
    (toLowerCase name <> lit "br" -> toLowerCase name <> lit "p" -> events = []).
Proof.
  intros Hname Hstack. exists (stray_events name start end_). split.
  - rewrite parseEndTag_run. cbn [truthy default show].
    destruct name as [|c name]; [done|].
    destruct (list_find _ (stack ts)) as [[i x]|] eqn:Hfind; [|reflexivity].
    apply list_find_Some in Hfind as (Hi & Hx & _).
    exfalso. apply (Hstack x); [by eapply list_elem_of_lookup_2|].
    cbn [show default] in Hx. by injection Hx.
  - unfold stray_events. repeat split.
    + intros ->. reflexivity.
    + intros ->. reflexivity.
    + intros Hbr Hp. by rewrite !bool_decide_eq_false_2.
Qed.

End Tokenizer.

Lemma C6_stray_end_tag_witness :
  exists events,
    parseEndTag Sample.env (recorder Sample.options) (Some (lit "P")) (Some 3) (Some 7)
                stray_state =
      Some (tt, mkTState (lit "rest") 10 (Some (lit "div"))
                         [mkEntry (lit "div") (lit "div") []] [] events) /\
    events = [EvStart (lit "P") [] false 3 7; EvEnd (lit "P") 3 7].
Proof.
  destruct (C6_stray_end_tag Sample.env Sample.options (lit "P") 3 7 stray_state)
    as (events & Hrun & _ & Hp & _).
  - vm_compute. discriminate.
  - intros x Hx. apply list_elem_of_singleton in Hx. subst x. vm_compute. discriminate.
  - exists events. split; [exact Hrun|]. apply Hp. reflexivity.
Defined.

(** The claim as stated fails for the void elements other than [br]: for
    a platform on which [hr] is a void element, a stray [</hr>] gets no
    start event, it is ignored like any other stray end tag. *)
Lemma C6_counterexample :
  default (fun _ => false) (opt_isUnaryTag void_options) (lit "hr") = true /\
  parseEndTag Sample.env (recorder void_options) (Some (lit "hr")) (Some 3) (Some 8)
              stray_state = Some (tt, stray_state) /\
  user stray_state = [].
Proof. split; [|split]; vm_compute; reflexivity. Qed.

(** ** The tokenizer as a whole *)

(** *** Every match of a tag pattern is at least one unit long *)








(** *** Returning computations *)













Section TokenizerTotal.
Context (env : Env) (o : CompilerOptions).

Local Abbreviation tok := (recorder o).












Lemma index_of_lt_nil : index_of (lit "<") [] = None.
Proof. reflexivity. Qed.








End TokenizerTotal.


(** ** The AST builder: else branches *)

Lemma runP_bind {A B} (m : P A) (f : A -> P B) p :
  (m ≫= f) p =
  match m p with
  | Some (a, p') => f a p'
  | None => None
  end.
Proof. reflexivity. Qed.

Lemma runP_read {A} (f : PState -> A) p : readP f p = Some (f p, p).
Proof. reflexivity. Qed.

Lemma runP_ret {A} (a : A) (p : PState) : (mret a : P A) p = Some (a, p).
Proof. reflexivity. Qed.

Lemma runP_getEl r p e : heap (store p) !! r = Some e -> getElP r p = Some (e, p).
Proof. unfold getElP. by intros ->. Qed.

Lemma runP_modEl r f p e :
  heap (store p) !! r = Some e ->
  modElP r f p = Some (tt, set_store (mkStore (<[r := f e]> (heap (store p))) (log (store p))) p).
Proof.
  intros He. unfold modElP. rewrite runP_bind, (runP_getEl _ _ _ He).
  unfold setElP. rewrite bool_decide_eq_true_2; [done|]. by eapply lookup_lt_Some.
Qed.

Lemma add_log_nil p : add_log [] p = p.
Proof. unfold add_log. rewrite app_nil_r. by destruct p as [[]]. Qed.

Lemma add_log_app ds1 ds2 p : add_log ds2 (add_log ds1 p) = add_log (ds1 ++ ds2) p.
Proof. unfold add_log. cbn. by rewrite app_assoc. Qed.

Section ElseBranch.
Context (env : Env).

Lemma findPrevElement_from_run rp rest p :
  production env = false ->
  Forall (fun n => is_element n = false) rp ->
  findPrevElement_from env (rp ++ rest) p =
  findPrevElement_from env rest
    (add_log (ignoredText <$> filter (fun text => text <> lit " ") (omap node_text rp)) p).
Proof.
  intros Hdev Hrp. revert p. induction Hrp as [|n rp Hn _ IH]; intros p.
  { by rewrite add_log_nil. }
  assert (Hstep : forall text,
    (_ ← whenP (negb (production env) && negb (bool_decide (text = lit " ")))
           (warnP (lit "text " ++ dq ++ trim text ++ dq ++
                   lit " between v-if and v-else(-if) " ++ lit "will be ignored.") false);
     findPrevElement_from env (rp ++ rest)) p =
    findPrevElement_from env rest
      (add_log (ignoredText <$> filter (fun text => text <> lit " ")
                                       (text :: omap node_text rp)) p)).
  { intros text. rewrite runP_bind, Hdev, filter_cons. cbn [negb andb].
    case_decide as Ht.
    - rewrite bool_decide_eq_false_2 by done. cbn [negb whenP fmap list_fmap].
      change (warnP _ false p) with (Some (tt, add_log [ignoredText text] p)).
      cbv beta iota. by rewrite IH, add_log_app.
    - assert (Heq : text = lit " ") by (destruct (decide (text = lit " ")); [done|by destruct Ht]).
      rewrite bool_decide_eq_true_2 by done.
      cbn [negb whenP]. rewrite runP_ret. apply IH. }
  destruct n as [r|ex tk text|text c]; [done|..]; apply Hstep.
Qed.

Lemma findPrevElement_run parent p pe kept popped :
  production env = false ->
  heap (store p) !! parent = Some pe ->
  children pe = kept ++ popped ->
  Forall (fun n => is_element n = false) popped ->
  match last kept with
  | Some (NElement r) => True
  | Some _ => False
  | None => True
  end ->
  findPrevElement env parent p =
  Some (match last kept with Some (NElement r) => Some r | _ => None end,
        set_store (mkStore (<[parent := set_children kept pe]> (heap (store p)))
                           (log (store p) ++ ignored_diags popped)) p).
Proof.
  intros Hdev Hpe Hch Hpop Hlast. unfold findPrevElement.
  rewrite runP_bind, (runP_getEl _ _ _ Hpe), runP_bind.
  rewrite Hch, reverse_app, findPrevElement_from_run; [|done|by apply Forall_reverse].
  fold (ignored_diags popped).
  assert (Hfrom : findPrevElement_from env (reverse kept) (add_log (ignored_diags popped) p) =
                  Some ((reverse kept,
                         match last kept with Some (NElement r) => Some r | _ => None end),
                        add_log (ignored_diags popped) p)).
  { destruct kept as [|n kept _] using rev_ind; [done|].
    rewrite last_snoc in *. rewrite reverse_snoc.
    destruct n; [done|done..]. }
  rewrite Hfrom. rewrite runP_bind, (runP_modEl _ _ _ pe) by done.
  by rewrite reverse_involutive.
Qed.

Lemma set_store_set_store s1 s2 p : set_store s2 (set_store s1 p) = set_store s2 p.
Proof. reflexivity. Qed.

Lemma runP_devWarn m p :
  production env = false ->
  devWarnP env m p =
  Some (tt, set_store (mkStore (heap (store p)) (log (store p) ++ [mkDiag m false])) p).
Proof. intros Hdev. unfold devWarnP. by rewrite Hdev. Qed.

(** C7 (amended). An element with an else or else-if marker that is not
    a forbidden element and whose parent is the open element is not
    pushed onto the parent's children.  The nodes at the end of the
    parent's children that are not elements are popped, the last one
    first, and in a build that is not the production build each popped
    node whose text is not the single space is diagnosed.  When the
    element that precedes the popped nodes carries an if flag, the marked
    element is appended to its conditional group with its else-if
    expression as the guard; when there is no such element or it has no
    if flag, a diagnostic is issued. *)
Theorem C7_else_branch_joins_group p parent el pe e kept popped :
  production env = false ->
  currentParent p = Some parent ->
  heap (store p) !! parent = Some pe ->
  heap (store p) !! el = Some e ->
  el <> parent ->
  forbidden e = false ->
  truthy (elseif e) || else_ e = true ->
  children pe = kept ++ popped ->
  Forall (fun n => is_element n = false) popped ->
  let heap1 := <[parent := set_children kept pe]> (heap (store p)) in
  let log1 := log (store p) ++ ignored_diags popped in
  let unmatched := mkStore heap1 (log1 ++ [mkDiag (noMatchingIf e) false]) in
  match last kept with
  | Some (NElement r) =>
    forall pr, heap (store p) !! r = Some pr -> r <> parent ->
      attachToParent env el p =
      Some (tt, set_store
                  (if truthy (if_ pr)
                   then mkStore (<[r := addIfCondition (mkCond (elseif e) el) pr]> heap1) log1
                   else unmatched) p)
  | Some _ => True
  | None => attachToParent env el p = Some (tt, set_store unmatched p)
  end.
Proof.
  intros Hdev Hcp Hpe He Hne Hforb Hmark Hch Hpop heap1 log1 unmatched.
  assert (Hrun : attachToParent env el p = processIfConditions env el parent p).
  { unfold attachToParent. rewrite runP_bind, runP_read, Hcp.
    rewrite runP_bind, (runP_getEl _ _ _ He). by rewrite Hforb, Hmark. }
  assert (He1 : heap1 !! el = Some e).
  { unfold heap1. by rewrite list_lookup_insert_ne. }
  pose proof (findPrevElement_run parent p pe kept popped Hdev Hpe Hch Hpop) as Hfind.
  destruct (last kept) as [[r|ex tk text|text c]|] eqn:Hlast; [|done|done|].
  - intros pr Hpr Hrp. rewrite Hrun. unfold processIfConditions.
    rewrite runP_bind, Hfind by done.
    assert (Hpr1 : heap1 !! r = Some pr).
    { unfold heap1. by rewrite list_lookup_insert_ne. }
    rewrite runP_bind, runP_bind, (runP_getEl _ _ pr) by done.
    rewrite runP_ret, runP_bind, (runP_getEl _ _ e) by done.
    destruct (truthy (if_ pr)).
    + by rewrite (runP_modEl _ _ _ pr).
    + by rewrite runP_devWarn.
  - rewrite Hrun. unfold processIfConditions.
    rewrite runP_bind, Hfind by done.
    rewrite runP_bind, runP_ret, runP_bind, (runP_getEl _ _ e) by done.
    by rewrite runP_devWarn.
Qed.

(** Every child sequence splits into the part that is kept and the
    nodes that are popped. *)
Lemma children_split (cs : list ASTNode) :
  exists kept popped,
    cs = kept ++ popped /\ Forall (fun n => is_element n = false) popped /\
    match last kept with
    | Some (NElement _) | None => True
    | Some _ => False
    end.
Proof.
  induction cs as [|n cs IH] using rev_ind.
  { by exists [], []. }
  destruct n as [r|ex tk text|text c].
  - exists (cs ++ [NElement r]), []. rewrite app_nil_r, last_snoc. done.
  - destruct IH as (kept & popped & -> & Hpop & Hlast).
    exists kept, (popped ++ [NExpression ex tk text]). rewrite app_assoc.
    split; [done|]. split; [|done]. apply Forall_app. by repeat constructor.
  - destruct IH as (kept & popped & -> & Hpop & Hlast).
    exists kept, (popped ++ [NText text c]). rewrite app_assoc.
    split; [done|]. split; [|done]. apply Forall_app. by repeat constructor.
Qed.

End ElseBranch.

Lemma C7_else_branch_joins_group_witness :
  exists p',
    attachToParent Sample.env 2 else_state = Some (tt, p') /\
    children <$> heap (store p') !! 0 = Some [NElement 1] /\
    ifConditions <$> heap (store p') !! 1 =
      Some (Some [mkCond (Some (lit "x")) 1; mkCond None 2]) /\
    log (store p') = [].
Proof.
  pose (div := Sample.el "div" None [NElement 1; NText (lit " ") false]).
  pose (a := set_ifConditions (Some [mkCond (Some (lit "x")) 1])
               (set_if (Some (lit "x")) (Sample.el "a" (Some 0) []))).
  pose (b := set_else true (Sample.el "b" None [])).
  pose proof (C7_else_branch_joins_group Sample.env else_state 0 2 div b
                [NElement 1] [NText (lit " ") false]
                eq_refl eq_refl eq_refl eq_refl) as H.
  specialize (H ltac:(discriminate) eq_refl eq_refl eq_refl).
  specialize (H ltac:(by repeat constructor)).
  cbv zeta in H. change (last [NElement 1]) with (Some (NElement 1)) in H. cbv iota in H.
  specialize (H a eq_refl ltac:(discriminate)).
  eexists. split; [exact H|]. split; [reflexivity|]. split; reflexivity.
Defined.

(** The claim as stated fails for a text of white space that is not the
    single space: inside [pre] the two spaces between the branches are
    kept as they are, and popping them is diagnosed. *)
Lemma C7_counterexample :
  forallb is_ws (lit "  ") = true /\
  (fun r : option nat * Globals * Store => log r.2) <$>
    parse Sample.env (lit "<pre><a v-if=x></a>  <b v-else></b></pre>") Sample.options
          initialGlobals (mkStore [] []) =
  Some [ignoredText (lit "  ")].
Proof. split; vm_compute; reflexivity. Qed.

(** ** Independence of the module state *)

Lemma obj_get_set {A} (k k' : str) (v : A) c :
  obj_get k' (obj_set k v c) = if bool_decide (k' = k) then Some v else obj_get k' c.
Proof.
  induction c as [|[k0 v0] c IH]; simpl.
  - by case_bool_decide.
  - destruct (bool_decide (k = k0)) eqn:E; simpl.
    + apply bool_decide_eq_true in E. subst k0.
      by case_bool_decide.
    + apply bool_decide_eq_false in E. rewrite IH.
      repeat case_bool_decide; congruence.
Qed.

Lemma re_cache_ok_set k c : re_cache_ok c -> re_cache_ok (obj_set k k c).
Proof.
  intros Hc k' v. rewrite obj_get_set. case_bool_decide; [congruence|apply Hc].
Qed.

Lemma decode_cache_ok_set env k c :
  decode_cache_ok env c -> decode_cache_ok env (obj_set k (decodeHTML env k) c).
Proof.
  intros Hc k' v. rewrite obj_get_set. case_bool_decide; [congruence|apply Hc].
Qed.

(** *** The tokenizer *)

Create HintDb respT discriminated.

Section TokenizerRespects.
Context (env : Env) {U : Type} (R : U -> U -> Prop) (o : HTMLParserOptions U).
Hypothesis callbacks : callbacks_respect R o.
Local Set Default Proof Using "Type callbacks".

Lemma respectsT_bind {A B} (m : T U A) (f : A -> T U B) :
  respectsT R m -> (forall a, respectsT R (f a)) -> respectsT R (m ≫= f).
Proof.
  intros Hm Hf ts ts' Hrel. rewrite !runT_bind. specialize (Hm ts ts' Hrel).
  destruct (m ts) as [[a q]|], (m ts') as [[a' q']|]; try done.
  destruct Hm as [<- Hq]. by apply Hf.
Qed.

Lemma respectsT_ret {A} (a : A) : respectsT R (mret a : T U A).
Proof. by intros ts ts' Hrel. Qed.

Lemma respectsT_fail {A} : respectsT R (failT : T U A).
Proof. by intros ts ts' Hrel. Qed.

Lemma respectsT_when b (m : T U unit) : respectsT R m -> respectsT R (whenT b m).
Proof. destruct b; [done|]. intros _. apply respectsT_ret. Qed.

Lemma respectsT_html : respectsT R (readT html).
Proof. intros ts ts' Hrel. split; [|done]. by destruct Hrel as ((? & ? & ? & ?) & _). Qed.
Lemma respectsT_index : respectsT R (readT index).
Proof. intros ts ts' Hrel. split; [|done]. by destruct Hrel as ((? & ? & ? & ?) & _). Qed.
Lemma respectsT_lastTag : respectsT R (readT lastTag).
Proof. intros ts ts' Hrel. split; [|done]. by destruct Hrel as ((? & ? & ? & ?) & _). Qed.
Lemma respectsT_stack : respectsT R (readT stack).
Proof. intros ts ts' Hrel. split; [|done]. by destruct Hrel as ((? & ? & ? & ?) & _). Qed.

Lemma respectsT_mod (f : TState U -> TState U) :
  (forall ts ts', relatedT R ts ts' -> relatedT R (f ts) (f ts')) -> respectsT R (modT f).
Proof. intros Hf ts ts' Hrel. split; [done|]. by apply Hf. Qed.

Lemma respectsT_call (f : U -> option U) : respects_callback R f -> respectsT R (callT f).
Proof.
  intros Hf ts ts' (Hloc & Hu & Hc & Hc'). unfold callT. specialize (Hf _ _ Hu).
  destruct (f (user ts)), (f (user ts')); try done.
Qed.

Lemma callback_warn f m : hp_warn o = Some f -> respects_callback R (f m).
Proof. destruct callbacks as (H & _). intros. by apply H. Qed.
Lemma callback_start f t a u s e : hp_start o = Some f -> respects_callback R (f t a u s e).
Proof. destruct callbacks as (_ & H & _). intros. by apply H. Qed.
Lemma callback_end f t s e : hp_end o = Some f -> respects_callback R (f t s e).
Proof. destruct callbacks as (_ & _ & H & _). intros. by apply H. Qed.
Lemma callback_chars f t : hp_chars o = Some f -> respects_callback R (f t).
Proof. destruct callbacks as (_ & _ & _ & H & _). intros. by apply H. Qed.
Lemma callback_comment f t : hp_comment o = Some f -> respects_callback R (f t).
Proof. destruct callbacks as (_ & _ & _ & _ & H). intros. by apply H. Qed.

Lemma respectsT_warn m :
  respectsT R (callT_opt ((fun w => w m) <$> hp_warn o)).
Proof.
  destruct (hp_warn o) as [f|] eqn:E; [|apply respectsT_ret].
  apply respectsT_call. by apply callback_warn.
Qed.

Lemma respectsT_start t a u s e :
  respectsT R (callT_opt ((fun f => f t a u s e) <$> hp_start o)).
Proof.
  destruct (hp_start o) as [f|] eqn:E; [|apply respectsT_ret].
  apply respectsT_call. by apply callback_start.
Qed.

Lemma respectsT_end t s e :
  respectsT R (callT_opt ((fun f => f t s e) <$> hp_end o)).
Proof.
  destruct (hp_end o) as [f|] eqn:E; [|apply respectsT_ret].
  apply respectsT_call. by apply callback_end.
Qed.

Lemma respectsT_chars t :
  respectsT R (callT_opt ((fun f => f t) <$> hp_chars o)).
Proof.
  destruct (hp_chars o) as [f|] eqn:E; [|apply respectsT_ret].
  apply respectsT_call. by apply callback_chars.
Qed.

Lemma respectsT_comment f t :
  hp_comment o = Some f -> respectsT R (callT (f t)).
Proof. intros E. apply respectsT_call. by apply callback_comment. Qed.

Lemma respectsT_advance n : respectsT R (advance n).
Proof.
  apply respectsT_mod. intros ts ts' ((Hh & Hi & Hl & Hs) & Hu & Hc & Hc').
  repeat split; cbn; first [done|congruence].
Qed.

Lemma respectsT_stackedPattern tag : respectsT R (stackedPattern tag).
Proof.
  intros ts ts' ((Hh & Hi & Hl & Hs) & Hu & Hc & Hc'). unfold stackedPattern.
  destruct (obj_get tag (reCache ts)) as [re|] eqn:E;
    destruct (obj_get tag (reCache ts')) as [re'|] eqn:E'; cbn.
  - rewrite (Hc _ _ E), (Hc' _ _ E'). by repeat split.
  - rewrite (Hc _ _ E). repeat split; try done. by apply re_cache_ok_set.
  - rewrite (Hc' _ _ E'). repeat split; try done. by apply re_cache_ok_set.
  - repeat split; try done; by apply re_cache_ok_set.
Qed.

#[local] Hint Resolve respectsT_ret respectsT_fail respectsT_html respectsT_index
  respectsT_lastTag respectsT_stack respectsT_warn respectsT_start respectsT_end
  respectsT_chars respectsT_advance respectsT_stackedPattern : respT.

Ltac respT_mod :=
  let ts := fresh "ts" in let ts' := fresh "ts'" in
  let Hh := fresh in let Hi := fresh in let Hl := fresh in let Hs := fresh in
  intros ts ts' ((Hh & Hi & Hl & Hs) & ? & ? & ?);
  repeat split; cbn; first [done|congruence].

Ltac respT_step :=
  lazymatch goal with
  | |- respectsT _ (_ ≫= _) => apply respectsT_bind; [|intros ?]
  | |- respectsT _ (whenT _ _) => apply respectsT_when
  | |- respectsT _ (modT _) => apply respectsT_mod; respT_mod
  | |- respectsT _ (callT _) => eapply respectsT_comment; eassumption
  | |- respectsT _ (match ?x with _ => _ end) => destruct x eqn:?
  | |- respectsT _ _ => solve [auto with respT]
  end.

Ltac respT := cbv zeta; repeat (respT_step; cbv zeta).

Lemma respectsT_closeTags named s e entries : respectsT R (closeTags env o named s e entries).
Proof. induction entries as [|x entries IH]; cbn [closeTags]; respT. Qed.
#[local] Hint Resolve respectsT_closeTags : respT.

Lemma respectsT_parseEndTag tagName start end_ :
  respectsT R (parseEndTag env o tagName start end_).
Proof. unfold parseEndTag. respT. Qed.
#[local] Hint Resolve respectsT_parseEndTag : respT.

Lemma respectsT_parseStartTag_attrs b acc :
  respectsT R (parseStartTag_attrs b acc : T U _).
Proof. revert acc. induction b as [|b IH]; intros acc; cbn [parseStartTag_attrs]; respT. Qed.
#[local] Hint Resolve respectsT_parseStartTag_attrs : respT.

Lemma respectsT_parseStartTag : respectsT R (parseStartTag : T U _).
Proof. unfold parseStartTag. respT. Qed.
#[local] Hint Resolve respectsT_parseStartTag : respT.

Lemma respectsT_handleStartTag m : respectsT R (handleStartTag env o m).
Proof. unfold handleStartTag. respT. Qed.
#[local] Hint Resolve respectsT_handleStartTag : respT.

Lemma respectsT_parseTag : respectsT R (parseTag env o).
Proof. unfold parseTag. respT. Qed.
#[local] Hint Resolve respectsT_parseTag : respT.

Lemma respectsT_parseTextPart textEnd : respectsT R (parseTextPart o textEnd).
Proof. unfold parseTextPart. respT. Qed.
#[local] Hint Resolve respectsT_parseTextPart : respT.

Lemma respectsT_parsePlainText : respectsT R (parsePlainText env o).
Proof. unfold parsePlainText. respT. Qed.
#[local] Hint Resolve respectsT_parsePlainText : respT.

Lemma respectsT_parseHTML_step : respectsT R (parseHTML_step env o).
Proof. unfold parseHTML_step. respT. Qed.
#[local] Hint Resolve respectsT_parseHTML_step : respT.

Lemma respectsT_parseHTML_loop b : respectsT R (parseHTML_loop env o b).
Proof. induction b as [|b IH]; cbn [parseHTML_loop]; respT. Qed.

(** [parseHTML] from two pattern caches and two related states of the
    owner of the callbacks. *)
Lemma parseHTML_respects h cache cache' u u' :
  re_cache_ok cache -> re_cache_ok cache' -> R u u' ->
  match parseHTML env o h cache u, parseHTML env o h cache' u' with
  | Some (c, v), Some (c', v') => R v v' /\ re_cache_ok c /\ re_cache_ok c'
  | None, None => True
  | _, _ => False
  end.
Proof.
  intros Hc Hc' Hu. unfold parseHTML.
  assert (Hrun : respectsT R (_ ← parseHTML_loop env o (S (length h));
                              parseEndTag env o None None None)).
  { apply respectsT_bind; [apply respectsT_parseHTML_loop|intros _; auto with respT]. }
  specialize (Hrun (mkTState h 0 None [] cache u) (mkTState h 0 None [] cache' u')
                   ltac:(by repeat split)).
  destruct ((_ ← parseHTML_loop env o (S (length h)); parseEndTag env o None None None)
              (mkTState h 0 None [] cache u)) as [[[] ts]|];
  destruct ((_ ← parseHTML_loop env o (S (length h)); parseEndTag env o None None None)
              (mkTState h 0 None [] cache' u')) as [[[] ts']|];
  cbn in Hrun; try done.
  by destruct Hrun as [_ (_ & ? & ? & ?)].
Qed.

End TokenizerRespects.

(** *** The AST builder *)

Create HintDb respP discriminated.

Ltac related_finish :=
  split; [repeat split; cbn; first [done|congruence]
         |split; split; cbn; first [done|by apply decode_cache_ok_set]].

Tactic Notation "related_intros" ident(p) ident(p') ident(Hs) ident(Hc) :=
  intros p p' ((Hs & Hc & ? & ? & ? & ? & ? & ?) & (? & ?) & (? & ?)).

Ltac related_solve :=
  let p := fresh "p" in let p' := fresh "p'" in
  let Hs := fresh in let Hc := fresh in
  related_intros p p' Hs Hc; related_finish.

Ltac read_solve :=
  let p := fresh "p" in let p' := fresh "p'" in
  let Hs := fresh in let Hc := fresh in
  related_intros p p' Hs Hc; cbn; congruence.

Section ParserRespects.
Context (env : Env).

Lemma respectsP_bind {A B} (m : P A) (f : A -> P B) :
  respectsP env m -> (forall a, respectsP env (f a)) -> respectsP env (m ≫= f).
Proof.
  intros Hm Hf p p' Hrel. rewrite !runP_bind. specialize (Hm p p' Hrel).
  destruct (m p) as [[a q]|], (m p') as [[a' q']|]; try done.
  destruct Hm as [<- Hq]. by apply Hf.
Qed.

Lemma respectsP_ret {A} (a : A) : respectsP env (mret a : P A).
Proof. by intros p p' Hrel. Qed.

Lemma respectsP_fail {A} : respectsP env (failP : P A).
Proof. by intros p p' Hrel. Qed.

Lemma respectsP_when b (m : P unit) : respectsP env m -> respectsP env (whenP b m).
Proof. destruct b; [done|]. intros _. apply respectsP_ret. Qed.

Lemma respectsP_read {A} (f : PState -> A) :
  (forall p p', related env p p' -> f p = f p') -> respectsP env (readP f).
Proof. intros Hf p p' Hrel. split; [by apply Hf|done]. Qed.

Lemma respectsP_mod (f : PState -> PState) :
  (forall p p', related env p p' -> related env (f p) (f p')) -> respectsP env (modP f).
Proof. intros Hf p p' Hrel. split; [done|]. by apply Hf. Qed.

Lemma respectsP_readHeap : respectsP env readHeap.
Proof. apply respectsP_read. read_solve. Qed.

Lemma respectsP_getConfig : respectsP env getConfig.
Proof.
  related_intros p p' Hs Hc. unfold getConfig. rewrite Hc.
  destruct (config p') eqn:E; [|done]. split; [done|]. related_finish.
Qed.

Lemma respectsP_getElP r : respectsP env (getElP r).
Proof.
  related_intros p p' Hs Hc. unfold getElP. rewrite Hs.
  destruct (heap (store p') !! r) eqn:E; [|done]. split; [done|]. related_finish.
Qed.

Lemma respectsP_setElP r e : respectsP env (setElP r e).
Proof.
  related_intros p p' Hs Hc. unfold setElP. rewrite Hs.
  case_bool_decide; [|done]. split; [done|]. related_finish.
Qed.

Lemma respectsP_allocP e : respectsP env (allocP e).
Proof.
  related_intros p p' Hs Hc. unfold allocP. rewrite Hs. split; [done|]. related_finish.
Qed.

Lemma respectsP_warnP m t : respectsP env (warnP m t).
Proof. apply respectsP_mod. related_solve. Qed.

Lemma respectsP_runTransform t el : respectsP env (runTransform t el).
Proof.
  related_intros p p' Hs Hc. unfold runTransform. rewrite Hs.
  destruct (t el (store p')) as [r s] eqn:E. split; [done|]. related_finish.
Qed.

Lemma respectsP_forP {A} (f : A -> P unit) l :
  (forall x, respectsP env (f x)) -> respectsP env (forP f l).
Proof.
  intros Hf. induction l as [|x l IH]; cbn [forP]; [apply respectsP_ret|].
  apply respectsP_bind; [apply Hf|by intros _].
Qed.

Lemma respectsP_parseTextP text d : respectsP env (parseTextP env text d).
Proof.
  related_intros p p' Hs Hc. unfold parseTextP.
  destruct (parseText_run env text d (textGlobals p)) as (g & -> & Hg); [done|].
  destruct (parseText_run env text d (textGlobals p')) as (g' & -> & Hg'); [done|].
  split; [done|]. related_finish.
Qed.

Lemma respectsP_decodeHTMLCached text : respectsP env (decodeHTMLCached env text).
Proof.
  related_intros p p' Hs Hc. unfold decodeHTMLCached.
  match goal with H : decode_cache_ok env (decodeCache p) |- _ => rename H into Hd end.
  match goal with H : decode_cache_ok env (decodeCache p') |- _ => rename H into Hd' end.
  destruct (obj_get text (decodeCache p)) as [v|] eqn:E;
    destruct (obj_get text (decodeCache p')) as [v'|] eqn:E'; cbn.
  - rewrite (Hd _ _ E), (Hd' _ _ E'). split; [done|]. related_finish.
  - rewrite (Hd _ _ E). split; [done|].
    related_finish.
  - rewrite (Hd' _ _ E'). split; [done|].
    related_finish.
  - split; [done|].
    related_finish.
Qed.

#[local] Hint Resolve respectsP_ret respectsP_fail respectsP_readHeap respectsP_getConfig
  respectsP_getElP respectsP_setElP respectsP_allocP respectsP_warnP
  respectsP_runTransform respectsP_parseTextP respectsP_decodeHTMLCached : respP.

Ltac respP_step :=
  lazymatch goal with
  | |- respectsP _ (_ ≫= _) => apply respectsP_bind; [|intros ?]
  | |- respectsP _ (whenP _ _) => apply respectsP_when
  | |- respectsP _ (readP _) => apply respectsP_read; read_solve
  | |- respectsP _ (modP _) => apply respectsP_mod; related_solve
  | |- respectsP _ (forP _ _) => apply respectsP_forP; intros ?
  | |- respectsP _ (match ?x with _ => _ end) => destruct x eqn:?
  | |- respectsP _ _ => solve [auto with respP]
  end.

Ltac respP := cbv zeta; repeat (respP_step; cbv zeta).

Lemma respectsP_modElP r f : respectsP env (modElP r f).
Proof. unfold modElP. respP. Qed.
#[local] Hint Resolve respectsP_modElP : respP.

Lemma respectsP_devWarnP m : respectsP env (devWarnP env m).
Proof. unfold devWarnP. respP. Qed.
#[local] Hint Resolve respectsP_devWarnP : respP.

Lemma respectsP_makeAttrsMap_warn m attrs : respectsP env (makeAttrsMap_warn env m attrs).
Proof. revert m. induction attrs as [|a attrs IH]; intros m; cbn [makeAttrsMap_warn]; respP. Qed.
#[local] Hint Resolve respectsP_makeAttrsMap_warn : respP.

Lemma respectsP_createASTElementP t attrs p : respectsP env (createASTElementP env t attrs p).
Proof. unfold createASTElementP. respP. Qed.
#[local] Hint Resolve respectsP_createASTElementP : respP.

Lemma respectsP_warnOnce m : respectsP env (warnOnce m).
Proof. unfold warnOnce. respP. Qed.
#[local] Hint Resolve respectsP_warnOnce : respP.

Lemma respectsP_applyTransforms ts el : respectsP env (applyTransforms ts el).
Proof. revert el. induction ts as [|t ts IH]; intros el; cbn [applyTransforms]; respP. Qed.
#[local] Hint Resolve respectsP_applyTransforms : respP.

Lemma respectsP_closeElement el : respectsP env (closeElement el).
Proof. unfold closeElement. respP. Qed.
#[local] Hint Resolve respectsP_closeElement : respP.

Lemma respectsP_processPre el : respectsP env (processPre env el).
Proof. unfold processPre. respP. Qed.
#[local] Hint Resolve respectsP_processPre : respP.

Lemma respectsP_processRawAttrs el : respectsP env (processRawAttrs el).
Proof. unfold processRawAttrs. respP. Qed.
#[local] Hint Resolve respectsP_processRawAttrs : respP.

Lemma respectsP_processFor el : respectsP env (processFor env el).
Proof. unfold processFor. respP. Qed.
#[local] Hint Resolve respectsP_processFor : respP.

Lemma respectsP_processIf el : respectsP env (processIf env el).
Proof. unfold processIf. respP. Qed.
#[local] Hint Resolve respectsP_processIf : respP.

Lemma respectsP_findPrevElement_from rev : respectsP env (findPrevElement_from env rev).
Proof. induction rev as [|n rev IH]; cbn [findPrevElement_from]; respP. Qed.
#[local] Hint Resolve respectsP_findPrevElement_from : respP.

Lemma respectsP_findPrevElement parent : respectsP env (findPrevElement env parent).
Proof. unfold findPrevElement. respP. Qed.
#[local] Hint Resolve respectsP_findPrevElement : respP.

Lemma respectsP_processIfConditions el parent :
  respectsP env (processIfConditions env el parent).
Proof. unfold processIfConditions. respP. Qed.
#[local] Hint Resolve respectsP_processIfConditions : respP.

Lemma respectsP_processOnce el : respectsP env (processOnce env el).
Proof. unfold processOnce. respP. Qed.
#[local] Hint Resolve respectsP_processOnce : respP.

Lemma respectsP_processKey el : respectsP env (processKey env el).
Proof. unfold processKey. respP. Qed.
#[local] Hint Resolve respectsP_processKey : respP.

Lemma respectsP_processRef el : respectsP env (processRef env el).
Proof. unfold processRef. respP. Qed.
#[local] Hint Resolve respectsP_processRef : respP.

Lemma respectsP_processSlot el : respectsP env (processSlot env el).
Proof. unfold processSlot. respP. Qed.
#[local] Hint Resolve respectsP_processSlot : respP.

Lemma respectsP_processComponent el : respectsP env (processComponent env el).
Proof. unfold processComponent. respP. Qed.
#[local] Hint Resolve respectsP_processComponent : respP.

Lemma respectsP_checkForAliasModel b el value p :
  respectsP env (checkForAliasModel b el value p).
Proof.
  revert p. induction b as [|b IH]; intros p; destruct p; cbn [checkForAliasModel]; respP.
Qed.
#[local] Hint Resolve respectsP_checkForAliasModel : respP.

Lemma respectsP_processAttr el a : respectsP env (processAttr env el a).
Proof. unfold processAttr. respP. Qed.
#[local] Hint Resolve respectsP_processAttr : respP.

Lemma respectsP_processAttrs el : respectsP env (processAttrs env el).
Proof. unfold processAttrs. respP. Qed.
#[local] Hint Resolve respectsP_processAttrs : respP.

Lemma respectsP_processElement el options : respectsP env (processElement env el options).
Proof. unfold processElement. respP. Qed.
#[local] Hint Resolve respectsP_processElement : respP.

Lemma respectsP_checkRootConstraints el : respectsP env (checkRootConstraints env el).
Proof. unfold checkRootConstraints. respP. Qed.
#[local] Hint Resolve respectsP_checkRootConstraints : respP.

Lemma respectsP_attachToRoot el : respectsP env (attachToRoot env el).
Proof. unfold attachToRoot. respP. Qed.
#[local] Hint Resolve respectsP_attachToRoot : respP.

Lemma respectsP_attachToParent el : respectsP env (attachToParent env el).
Proof. unfold attachToParent. respP. Qed.
#[local] Hint Resolve respectsP_attachToParent : respP.

Lemma respectsP_parse_start options t attrs unary :
  respectsP env (parse_start env options t attrs unary).
Proof. unfold parse_start. respP. Qed.

Lemma respectsP_parse_end : respectsP env parse_end.
Proof. unfold parse_end. respP. Qed.

Lemma respectsP_parse_chars template options text :
  respectsP env (parse_chars env template options text).
Proof. unfold parse_chars. respP. Qed.

Lemma respectsP_parse_comment text : respectsP env (parse_comment text).
Proof. unfold parse_comment. respP. Qed.

End ParserRespects.

(** *** The compiler as a whole *)

Lemma initialGlobals_ok env : globals_ok env initialGlobals.
Proof. repeat split; intros ? ? ?; done. Qed.

Section Determinism.
Context (env : Env).

Lemma execP_respects (m : P unit) :
  respectsP env m -> respects_callback (related env) (execP m).
Proof.
  intros Hm p p' Hrel. specialize (Hm p p' Hrel). unfold execP.
  destruct (m p) as [[[] q]|], (m p') as [[[] q']|]; try done. apply Hm.
Qed.

Lemma htmlOptionsOf_respects template options :
  callbacks_respect (related env) (htmlOptionsOf env template options).
Proof.
  repeat split; cbn; intros; simplify_eq; apply execP_respects.
  - apply respectsP_warnP.
  - apply respectsP_parse_start.
  - apply respectsP_parse_end.
  - apply respectsP_parse_chars.
  - apply respectsP_parse_comment.
Qed.

(** [parse] returns the same tree in the same store whatever the module
    state, and leaves the module state in order. *)
Lemma parse_respects template options g g' s :
  globals_ok env g -> globals_ok env g' ->
  match parse env template options g s, parse env template options g' s with
  | Some (ast, g1, s1), Some (ast', g1', s1') =>
    ast = ast' /\ s1 = s1' /\ globals_ok env g1 /\ globals_ok env g1'
  | None, None => True
  | _, _ => False
  end.
Proof.
  intros (Hre & Htx & Hdc) (Hre' & Htx' & Hdc'). unfold parse.
  set (p0 := mkPState s (g_text g) _ _ _ _ _ _ _ _).
  set (p0' := mkPState s (g_text g') _ _ _ _ _ _ _ _).
  assert (Hrel : related env p0 p0').
  { split; [by repeat split|]. split; split; assumption. }
  pose proof (parseHTML_respects env (related env) (htmlOptionsOf env template options)
                (htmlOptionsOf_respects template options) template
                (g_reCache g) (g_reCache g') p0 p0' Hre Hre' Hrel) as H.
  destruct (parseHTML env _ template (g_reCache g) p0) as [[c p]|];
    destruct (parseHTML env _ template (g_reCache g') p0') as [[c' p']|]; try done.
  destruct H as (((Hs & Hc & ? & Hr & ?) & (? & ?) & (? & ?)) & ? & ?).
  rewrite Hr, Hs. split; [done|]. split; [done|]. split; (split; [done|split; done]).
Qed.

(** C9. Let the module state (the pattern caches, the memoized decoder,
    the pattern objects of the text parser) be in order, as it is when
    the modules are loaded and after every compile that returns.  If
    [parse] followed by [generate] returns for a markup string and an
    options value, the module state it leaves is in order again, and the
    same compile started from any module state in order, in particular
    from the one left by the first run, returns the same primary program
    text and the same static-program list, in the same store.  Each run
    starts from the same store: the objects of a run are its own. *)
Theorem C9_compile_is_deterministic fuel template options g s res g1 s1 :
  globals_ok env g ->
  compile env fuel template options g s = Some (res, g1, s1) ->
  globals_ok env g1 /\
  forall g', globals_ok env g' ->
    exists res' g1',
      compile env fuel template options g' s = Some (res', g1', s1) /\
      render res' = render res /\
      result_staticRenderFns res' = result_staticRenderFns res /\
      globals_ok env g1'.
Proof.
  intros Hg Hrun. unfold compile in *.
  destruct (parse env template options g s) as [[[ast g0] s0]|] eqn:Hparse; [|done].
  destruct (generate env fuel ast options s0) as [[res0 s0']|] eqn:Hgen; [|done].
  injection Hrun as -> -> ->.
  split.
  - pose proof (parse_respects template options g g s Hg Hg) as H.
    rewrite Hparse in H. by destruct H as (_ & _ & ? & _).
  - intros g' Hg'.
    pose proof (parse_respects template options g g' s Hg Hg') as H.
    rewrite Hparse in H.
    destruct (parse env template options g' s) as [[[ast' g0'] s0']|]; [|done].
    destruct H as (<- & <- & _ & Hok). rewrite Hgen.
    by exists res, g0'.
Qed.

End Determinism.

Lemma C9_compile_is_deterministic_witness :
  exists res g1 s1 g2,
    compile Sample.env 10 (lit "<p>a {{ b | f }} c</p>") Sample.options initialGlobals
            (mkStore [] []) = Some (res, g1, s1) /\
    compile Sample.env 10 (lit "<p>a {{ b | f }} c</p>") Sample.options g1
            (mkStore [] []) = Some (res, g2, s1).
Proof.
  destruct (compile Sample.env 10 (lit "<p>a {{ b | f }} c</p>") Sample.options
              initialGlobals (mkStore [] [])) as [[[res g1] s1]|] eqn:Hrun.
  2:{ vm_compute in Hrun. discriminate Hrun. }
  destruct (C9_compile_is_deterministic Sample.env 10 _ Sample.options initialGlobals
              (mkStore [] []) res g1 s1 (initialGlobals_ok Sample.env) Hrun)
    as [Hok Hall].
  destruct (Hall g1 Hok) as (res' & g2 & Hrun' & Hrender & Hstatic & _).
  exists res, g1, s1, g2. split; [reflexivity|].
  rewrite Hrun'. destruct res, res'. cbn in Hrender, Hstatic. by subst.
Defined.

(** * Further properties *)

(** ** The code generator: strings *)

(** X1. The result of [transformSpecialNewlines] holds neither the line
    separator U+2028 nor the paragraph separator U+2029, and a text
    without them is returned as it is. *)
Theorem X1_transformSpecialNewlines_no_separator (text : str) :
  (8232%N ∉ transformSpecialNewlines text) /\
  (8233%N ∉ transformSpecialNewlines text) /\
  (8232%N ∉ text -> 8233%N ∉ text -> transformSpecialNewlines text = text).
Proof.
  induction text as [|c text (IH1 & IH2 & IH3)]; cbn [transformSpecialNewlines].
  { split; [|split]; [by intros ?%elem_of_nil..|done]. }
  destruct (N.eqb c 8232) eqn:E1; [|destruct (N.eqb c 8233) eqn:E2].
  - apply N.eqb_eq in E1. subst c. split; [|split].
    + intros [H|H]%elem_of_app; [|done]. vm_compute in H. by repeat (apply elem_of_cons in H as [H|H]; [done|]); apply elem_of_nil in H.
    + intros [H|H]%elem_of_app; [|done]. vm_compute in H. by repeat (apply elem_of_cons in H as [H|H]; [done|]); apply elem_of_nil in H.
    + intros H. exfalso. apply H. by left.
  - apply N.eqb_eq in E2. subst c. split; [|split].
    + intros [H|H]%elem_of_app; [|done]. vm_compute in H. by repeat (apply elem_of_cons in H as [H|H]; [done|]); apply elem_of_nil in H.
    + intros [H|H]%elem_of_app; [|done]. vm_compute in H. by repeat (apply elem_of_cons in H as [H|H]; [done|]); apply elem_of_nil in H.
    + intros _ H. exfalso. apply H. by left.
  - apply N.eqb_neq in E1, E2. split; [|split].
    + intros [H|H]%elem_of_cons; [done|by apply IH1].
    + intros [H|H]%elem_of_cons; [done|by apply IH2].
    + intros H1 H2. f_equal. apply IH3.
      * intros H. apply H1. by right.
      * intros H. apply H2. by right.
Qed.

Lemma drop_last_app (a b : str) : b <> [] -> drop_last (a ++ b) = a ++ drop_last b.
Proof.
  intros Hb. unfold drop_last. rewrite length_app.
  destruct b as [|c b]; [done|]. cbn [length].
  rewrite take_app_ge by lia. f_equal. f_equal. lia.
Qed.

Lemma drop_last_join (l : list str) :
  drop_last (concat ((fun x => x ++ lit ",") <$> l)) = join (lit ",") l.
Proof.
  induction l as [|x l IH]; [done|].
  cbn [fmap list_fmap concat]. destruct l as [|y l].
  - cbn [fmap list_fmap concat join]. rewrite app_nil_r.
    rewrite drop_last_app by done. by rewrite app_nil_r.
  - rewrite drop_last_app.
    + rewrite IH. change (join (lit ",") (x :: y :: l)) with (x ++ lit "," ++ join (lit ",") (y :: l)).
      by rewrite <- app_assoc.
    + cbn [fmap list_fmap concat]. intros H. apply app_eq_nil in H as [H _].
      by apply app_eq_nil in H as [_ [=]].
Qed.

Section Props.
Context (env : Env).

(** X2. [genProps] returns the entries ["name":value], the separators of
    the value escaped, joined by commas: the comma that the loop writes
    after each entry is cut off once at the end, and an empty list gives
    the empty text. *)
Theorem X2_genProps_join (props : list Attr) :
  genProps env props =
  join (lit ",")
       ((fun prop => dq ++ attr_name prop ++ dq ++ lit ":" ++
                     transformSpecialNewlines (attr_value prop)) <$> props).
Proof.
  unfold genProps, generateValue. rewrite <- drop_last_join. f_equal.
  assert (H : forall acc,
    foldl (fun res prop =>
             res ++ dq ++ attr_name prop ++ dq ++ lit ":" ++
             (if WEEX env then transformSpecialNewlines (attr_value prop)
              else transformSpecialNewlines (attr_value prop)) ++ lit ",") acc props =
    acc ++ concat ((fun x => x ++ lit ",") <$>
                   ((fun prop => dq ++ attr_name prop ++ dq ++ lit ":" ++
                                 transformSpecialNewlines (attr_value prop)) <$> props))).
  { induction props as [|p props IH]; intros acc; cbn [foldl fmap list_fmap concat].
    - by rewrite app_nil_r.
    - rewrite IH. destruct (WEEX env); by rewrite <- !app_assoc. }
  apply (H []).
Qed.

End Props.

(** ** The code generator: what is left of the codegen state *)

Lemma frame_refl st : frame st st.
Proof. repeat split; try done. exists []. by rewrite app_nil_r. Qed.

Lemma frame_trans st1 st2 st3 : frame st1 st2 -> frame st2 st3 -> frame st1 st3.
Proof.
  intros (H1 & H2 & H3 & H4 & H5 & H6 & H7 & a & H8 & H9)
         (J1 & J2 & J3 & J4 & J5 & J6 & J7 & b & J8 & J9).
  repeat split; try congruence; [lia|].
  exists (a ++ b). split; [by rewrite J8, H8, app_assoc|by apply Forall_app].
Qed.

Lemma stateless_framed {A} (m : G A) : stateless m -> framed m.
Proof. intros H st s a st' s' E. rewrite (H _ _ _ _ _ E). apply frame_refl. Qed.

Lemma framed_bind {A B} (m : G A) (f : A -> G B) :
  framed m -> (forall a, framed (f a)) -> framed (m ≫= f).
Proof.
  intros Hm Hf st s b st' s'. unfold mbind, G_bind.
  destruct (m st s) as [[[a st1] s1]|] eqn:E; [|done].
  intros E'. eapply frame_trans; [by eapply Hm|by eapply Hf].
Qed.

Lemma framed_mapG {A B} (f : A -> G B) (l : list A) :
  (forall a, framed (f a)) -> framed (mapG f l).
Proof.
  intros Hf. induction l as [|x l IH]; simpl; [apply stateless_framed, stateless_ret|].
  apply framed_bind; [apply Hf|]. intros y.
  apply framed_bind; [apply IH|]. intros; apply stateless_framed, stateless_ret.
Qed.

Lemma framed_nextOnceId : framed nextOnceId.
Proof.
  intros st s b st' s' [= <- <- <-]. repeat split; simpl; [lia|].
  exists []. by rewrite app_nil_r.
Qed.

Section Framed.
Context (env : Env).

Ltac framed_step :=
  match goal with
  | |- framed (_ ≫= _) => apply framed_bind; [|intros ?]
  | |- framed (mapG _ _) => apply framed_mapG; intros ?
  | |- framed nextOnceId => apply framed_nextOnceId
  | |- framed (whenG ?b _) => destruct b; simpl
  | |- framed (match ?x with _ => _ end) => destruct x
  | |- framed (if ?x then _ else _) => destruct x
  | H : forall _, framed _ |- _ => apply H
  | H : forall _ _, framed _ |- _ => apply H
  | |- framed _ => apply stateless_framed
  | |- stateless (mret _) => apply stateless_ret
  | |- stateless failG => apply stateless_fail
  | |- stateless (getEl _) => apply stateless_getEl
  | |- stateless (modEl _ _) => apply stateless_modEl
  | |- stateless getState => apply stateless_getState
  | |- stateless getStore => apply stateless_getStore
  | |- stateless (nestedG _) => apply stateless_nested
  | |- stateless (warnG _ _) => apply stateless_warnG
  | |- stateless (devWarn _ _ _) => apply stateless_devWarn
  | |- stateless (inheritPre _) => apply stateless_inheritPre
  | |- stateless (genDirectives _) => apply stateless_genDirectives
  end.

(** [genStatic] sets the pre flag for the time of the compilation of the
    element and sets it back. *)
Lemma framed_genStatic n el :
  (forall el, framed (genElement env n el)) -> framed (genStatic env (S n) el).
Proof.
  intros IH st s a st' s'. cbn [genStatic].
  rewrite run_bind. destruct (modEl el _ st s) as [[[[] st1] s1]|] eqn:E1; [|done].
  apply stateless_modEl in E1 as ->.
  rewrite run_bind, run_getState, run_bind. cbv beta iota zeta.
  destruct (getEl el st s1) as [[[e st2] s2]|] eqn:E2; [|done].
  pose proof E2 as E2'. apply stateless_getEl in E2' as ->.
  rewrite run_bind.
  assert (Hpre : exists st3, whenG (pre e) (modState (set_state_pre (pre e))) st s2 =
                             Some (tt, st3, s2) /\
                             st3 = set_state_pre (state_pre st3) st).
  { destruct (pre e); eexists; (split; [reflexivity|]); by destruct st. }
  destruct Hpre as (st3 & -> & Hst3). cbv beta iota.
  rewrite run_bind. destruct (genElement env n el st3 s2) as [[[code st4] s4]|] eqn:E4; [|done].
  apply IH in E4. cbv beta iota.
  rewrite run_bind. unfold pushStaticRenderFn at 1. cbv beta iota.
  rewrite run_bind. unfold modState at 1. cbv beta iota.
  rewrite run_bind, run_getState. cbv beta iota.
  rewrite run_bind. destruct (getEl el _ s4) as [[[e' st5] s5]|] eqn:E5; [|done].
  apply stateless_getEl in E5 as ->. cbv beta iota. rewrite run_ret.
  intros [= <- <- <-].
  destruct E4 as (H1 & H2 & H3 & H4 & H5 & H6 & H7 & added & H8 & H9).
  rewrite Hst3 in H1, H2, H3, H4, H5, H7, H8. cbn in H1, H2, H3, H4, H5, H7, H8.
  repeat split; cbn; try done.
  exists (added ++ [lit "with(this){return " ++ code ++ lit "}"]).
  split; [by rewrite H8, app_assoc|].
  apply Forall_app. split; [done|]. constructor; [by exists code|constructor].
Qed.

Lemma framed_all n : framed_at env n.
Proof.
  induction n as [|n IH].
  - unfold framed_at. repeat apply conj; intros; apply stateless_framed, stateless_fail.
  - destruct IH as (H1&H2&H3&H4&H5&H6&H7&H8&H9&H11&H12&H13&H14&H15&H16&H17).
    unfold framed_at. split; [|split; [intros; by apply framed_genStatic|]].
    + intros; simpl; repeat framed_step.
    + repeat apply conj; intros; simpl; repeat framed_step.
Qed.

End Framed.

Section GeneratorFrame.
Context (env : Env).

(** X3. Whatever [genElement] returns, the codegen state after it differs
    from the one before only in a run-once counter that is not lower and
    in hoisted programs, each of the form [with(this){return ...}], that
    are appended to the static-program list: the options, the hooks, the
    directive table and the component test are as before, and so is the
    pre flag, which [genStatic] sets while it compiles its element. *)
Theorem X3_genElement_frame n el st s code st' s' :
  genElement env n el st s = Some (code, st', s') ->
  options st' = options st /\ transforms st' = transforms st /\
  dataGenFns st' = dataGenFns st /\ state_directives st' = state_directives st /\
  maybeComponent st' = maybeComponent st /\ state_pre st' = state_pre st /\
  onceId st <= onceId st' /\
  exists added, staticRenderFns st' = staticRenderFns st ++ added /\ Forall wrapped added.
Proof. intros H. destruct (framed_all env n) as (Hall & _). exact (Hall el _ _ _ _ _ H). Qed.

(** X4. Every program that [generate] hands out, the primary one and each
    one of the static-program list, has the form [with(this){return ...}]. *)
Theorem X4_generate_programs_wrapped fuel ast o s res s' :
  generate env fuel ast o s = Some (res, s') ->
  wrapped (render res) /\ Forall wrapped (result_staticRenderFns res).
Proof.
  destruct fuel as [|n]; [done|]. cbn [generate]. destruct ast as [r|].
  - destruct (genElement env n r _ s) as [[[code st'] s1]|] eqn:E; [|done].
    intros [= <- <-]. split; [by exists code|]. cbn [result_staticRenderFns].
    destruct (framed_all env n) as (Hall & _).
    apply Hall in E as (_ & _ & _ & _ & _ & _ & _ & added & -> & Hadded).
    done.
  - intros [= <- <-]. split; [|constructor].
    exists (lit "_c(" ++ dq ++ lit "div" ++ dq ++ lit ")"). vm_compute. reflexivity.
Qed.

(** X5. [genFor] marks the iteration of its element processed and wraps
    what [genElement] then returns for the element in
    [_l((source),function(alias,iterator1,iterator2){return ...})], the
    iterators written when they are present.  Before that, in a build that
    is not the production build, it hands one tip to the sink exactly when
    the element may be a component, is neither a [slot] nor a [template]
    and has no key. *)
Theorem X5_genFor_missing_key n el e st s code st' s' :
  heap s !! el = Some e ->
  let tip := negb (production env) && maybeComponent st e && negb (is_tag e "slot") &&
             negb (is_tag e "template") && negb (truthy (key e)) in
  let s1 := if tip then mkStore (heap s) (log s ++ [mkDiag (forKeyWarning e) true]) else s in
  genElement env n el st (assign el (set_forProcessed true) s1) = Some (code, st', s') ->
  genFor env (S n) el None None st s =
  Some (lit "_l((" ++ show (for_ e) ++ lit ")," ++
        lit "function(" ++ show (alias e) ++
        text_if (truthy (iterator1 e)) (lit "," ++ show (iterator1 e)) ++
        text_if (truthy (iterator2 e)) (lit "," ++ show (iterator2 e)) ++ lit "){" ++
        lit "return " ++ code ++ lit "})", st', s').
Proof.
  intros He tip s1 Hgen. cbn [genFor].
  grun (run_getEl el st s e He). gsimp. fold tip.
  assert (Hwarn : whenG tip (warnG (forKeyWarning e) true) st s = Some (tt, st, s1)).
  { subst s1. by destruct tip. }
  rewrite Hwarn. cbv beta iota.
  assert (He1 : heap s1 !! el = Some e) by (subst s1; by destruct tip).
  grun (run_modEl el (set_forProcessed true) st s1 e He1).
  rewrite run_bind, Hgen. reflexivity.
Qed.

(** X6. Under a codegen state whose directive table holds [bind] for the
    name [bind], the data of an element whose only directive is a
    [v-bind] without argument has no [directives] entry and is wrapped:
    [genData] returns [_b(data,'tag',value,prop)], with [,true] after the
    [prop] flag when the directive has the modifier [sync]; [prop] is
    [true] exactly when the directive has the modifier [prop]. *)
Theorem X6_bind_wraps_data n el e dir st s :
  heap s !! el = Some e ->
  obj_get (lit "bind") (state_directives st) = Some bind ->
  directives e = Some [dir] -> dir_name dir = lit "bind" ->
  scopedSlots e = None -> inlineTemplate e = false -> wrapListeners e = None ->
  let wrap := fun code =>
    lit "_b(" ++ code ++ lit ",'" ++ tag e ++ lit "'," ++ dir_value dir ++ lit "," ++
    (if has_modifier (dir_modifiers dir) "prop" then lit "true" else lit "false") ++
    (if has_modifier (dir_modifiers dir) "sync" then lit ",true" else []) ++ lit ")" in
  let e' := set_wrapData (Some wrap) e in
  genData env (S n) el st s =
  Some (wrap (strip_trailing_comma (lit "{" ++ genData_fields env st e' ++ genData_model e') ++
              lit "}"),
        st, assign el (set_wrapData (Some wrap)) s).
Proof.
  intros He Hbind Hdirs Hname Hslots Hinline Hlisten wrap e'.
  assert (He' : heap (assign el (set_wrapData (Some wrap)) s) !! el = Some e')
    by (by apply assign_lookup).
  assert (Hdir : genDirectives el st s =
                 Some (None, st, assign el (set_wrapData (Some wrap)) s)).
  { unfold genDirectives. grun (run_getEl el st s e He). rewrite Hdirs.
    cbn [genDirectives_loop]. gsimp. rewrite Hname, Hbind.
    unfold liftS, bind. rewrite He. reflexivity. }
  cbn [genData]. grun Hdir.
  gsimp. rewrite (run_getEl el st _ e' He'). gsimp.
  change (scopedSlots e') with (scopedSlots e). rewrite Hslots. gsimp.
  rewrite (run_getEl el st _ e' He'). gsimp.
  change (inlineTemplate e') with (inlineTemplate e). rewrite Hinline. gsimp.
  rewrite (run_getEl el st _ e' He'). gsimp.
  change (wrapListeners e') with (wrapListeners e). rewrite Hlisten.
  cbn [truthy text_if wrapData e' set_wrapData].
  rewrite (app_nil_r (genData_model e')). cbn [app].
  rewrite <- (app_assoc (lit "{")). reflexivity.
Qed.

End GeneratorFrame.

Lemma X1_transformSpecialNewlines_no_separator_witness :
  (8232%N ∉ transformSpecialNewlines [97; 8232; 98]%N) /\
  transformSpecialNewlines (lit "ab") = lit "ab".
Proof.
  destruct (X1_transformSpecialNewlines_no_separator [97; 8232; 98]%N) as (H1 & _).
  destruct (X1_transformSpecialNewlines_no_separator (lit "ab")) as (_ & _ & H3).
  split; [exact H1|].
  apply H3; apply (proj1 (bool_decide_spec _)); vm_compute; exact I.
Defined.

Lemma X3_genElement_frame_witness :
  exists code st' s',
    genElement Sample.env 5 1 Sample.state Sample.twins = Some (code, st', s') /\
    state_pre st' = state_pre Sample.state /\
    exists added,
      staticRenderFns st' = staticRenderFns Sample.state ++ added /\ Forall wrapped added.
Proof.
  destruct (genElement Sample.env 5 1 Sample.state Sample.twins)
    as [[[code st'] s']|] eqn:Hrun.
  2:{ vm_compute in Hrun. discriminate Hrun. }
  destruct (X3_genElement_frame Sample.env 5 1 _ _ _ _ _ Hrun)
    as (_ & _ & _ & _ & _ & Hpre & _ & Hadded).
  exists code, st', s'. split; [reflexivity|]. split; assumption.
Defined.

Lemma X4_generate_programs_wrapped_witness :
  exists res s',
    generate Sample.env 20 (Some 0) Sample.options Sample.nested_static = Some (res, s') /\
    wrapped (render res) /\ Forall wrapped (result_staticRenderFns res).
Proof.
  destruct (generate Sample.env 20 (Some 0) Sample.options Sample.nested_static)
    as [[res s']|] eqn:Hrun.
  2:{ vm_compute in Hrun. discriminate Hrun. }
  exists res, s'. split; [reflexivity|].
  exact (X4_generate_programs_wrapped Sample.env 20 _ _ _ _ _ Hrun).
Defined.

Lemma X5_genFor_missing_key_witness :
  exists st' s',
    genFor Sample.env 5 1 None None component_state Sample.single_for =
      Some (lit "_l((xs),function(x){return _c('span')})", st', s') /\
    exists e, heap Sample.single_for !! 1 = Some e /\
              log s' = [mkDiag (forKeyWarning e) true].
Proof.
  pose (e := set_alias (Some (lit "x"))
               (set_for (Some (lit "xs")) (Sample.el "span" (Some 0) []))).
  pose (s1 := assign 1 (set_forProcessed true)
                (mkStore (heap Sample.single_for) [mkDiag (forKeyWarning e) true])).
  destruct (genElement Sample.env 4 1 component_state s1) as [[[code st'] s']|] eqn:Hrun.
  2:{ vm_compute in Hrun. discriminate Hrun. }
  pose proof (X5_genFor_missing_key Sample.env 4 1 e component_state Sample.single_for
                code st' s' eq_refl Hrun) as H.
  assert (Hc : code = lit "_c('span')" /\ log s' = [mkDiag (forKeyWarning e) true]).
  { vm_compute in Hrun. injection Hrun as <- _ <-. split; reflexivity. }
  destruct Hc as [-> Hlog].
  exists st', s'. split; [exact H|]. exists e. split; [reflexivity|exact Hlog].
Defined.

Lemma X6_bind_wraps_data_witness :
  exists s',
    genData Sample.env 3 0 bound_state (mkStore [bound_element] []) =
    Some (lit "_b({},'a',obj,true)", bound_state, s').
Proof.
  eexists.
  exact (X6_bind_wraps_data Sample.env 2 0 bound_element bound_directive bound_state
           (mkStore [bound_element] []) eq_refl eq_refl eq_refl eq_refl eq_refl eq_refl
           eq_refl).
Defined.

(** ** The tokenizer: end tags *)

Section EndTags.
Context (env : Env) (o : CompilerOptions).

Lemma closing_events_inner dev s e above x :
  closing_events dev true s e (above ++ [x]) =
  (above ≫= fun y => (if dev then [EvWarn (noMatchingEndTag (entry_tag y))] else []) ++
                     [EvEnd (entry_tag y) s e]) ++
  [EvEnd (entry_tag x) s e].
Proof.
  induction above as [|y above IH]; cbn [app closing_events mbind list_bind].
  - cbn [nonempty negb orb]. by rewrite andb_false_r.
  - rewrite IH. assert (Hne : nonempty (above ++ [x]) = true) by (by destruct above).
    rewrite Hne. cbn [orb]. rewrite andb_true_r.
    destruct dev; cbn [app]; by rewrite <- ?app_assoc.
Qed.

(** An end tag that matches an open entry. *)
Lemma parseEndTag_closes name (start end_ : option nat) above x below
    (ts : TState (list Event)) :
  name <> [] ->
  stack ts = above ++ x :: below ->
  entry_lowerCasedTag x = toLowerCase name ->
  Forall (fun y => entry_lowerCasedTag y <> toLowerCase name) above ->
  parseEndTag env (recorder o) (Some name) start end_ ts =
  Some (tt, mkTState (html ts) (index ts) (entry_tag <$> head below) below (reCache ts)
              (user ts ++
               (above ≫= fun y =>
                  (if production env then []
                   else [EvWarn (noMatchingEndTag (entry_tag y))]) ++
                  [EvEnd (entry_tag y) (default (index ts) start) (default (index ts) end_)]) ++
               [EvEnd (entry_tag x) (default (index ts) start) (default (index ts) end_)])).
Proof.
  intros Hname Hstack Hx Habove. rewrite parseEndTag_run.
  destruct name as [|c name]; [done|]. cbn [truthy default show].
  assert (Hmid : stack ts !! length above = Some x) by (by rewrite Hstack, list_lookup_middle).
  destruct (list_find _ (stack ts)) as [[i y]|] eqn:Hfind.
  2:{ apply list_find_None in Hfind. rewrite Forall_lookup in Hfind.
      exfalso. apply (Hfind _ _ Hmid). cbn [show default]. by rewrite Hx. }
  apply list_find_Some in Hfind as (Hi & Hy & Hmin). cbn [show default] in Hy, Hmin.
  assert (i = length above) as ->.
  { destruct (Nat.lt_total i (length above)) as [Hlt|[?|Hgt]]; [|done|].
    - exfalso. rewrite Hstack, lookup_app_l in Hi by done.
      rewrite Forall_lookup in Habove. injection Hy as Hy. by eapply Habove.
    - exfalso. apply (Hmin _ _ Hmid Hgt). by rewrite Hx. }
  assert (y = x) as -> by congruence.
  cbn [fmap option_fmap option_map fst].
  assert (Htake : take (S (length above)) (stack ts) = above ++ [x]).
  { rewrite Hstack. rewrite (take_app_ge above) by lia.
    replace (S (length above) - length above) with 1 by lia. done. }
  assert (Hdrop : drop (S (length above)) (stack ts) = below).
  { rewrite Hstack. rewrite (drop_app_ge above) by lia.
    replace (S (length above) - length above) with 1 by lia. done. }
  rewrite Htake, Hdrop, closing_events_inner.
  unfold set_lastTag, set_stack, set_user. cbn [html index lastTag stack reCache user].
  by destruct (production env).
Qed.

(** X7. An end tag whose lower-cased name is the lower-cased tag of an
    open entry closes that entry and every entry opened inside it, the
    innermost first: each one gets its end event under the tag name of
    its own start tag, each one but the matching entry gets, in a build
    that is not the production build, the diagnostic that it has no
    matching end tag before; the entries are taken off the stack, and the
    last tag is the tag of the entry that is now the innermost, if any. *)
Theorem X7_parseEndTag_closes_inner_tags name start end_ above x below
    (ts : TState (list Event)) :
  name <> [] ->
  stack ts = above ++ x :: below ->
  entry_lowerCasedTag x = toLowerCase name ->
  Forall (fun y => entry_lowerCasedTag y <> toLowerCase name) above ->
  parseEndTag env (recorder o) (Some name) (Some start) (Some end_) ts =
  Some (tt, mkTState (html ts) (index ts) (entry_tag <$> head below) below (reCache ts)
              (user ts ++
               (above ≫= fun y =>
                  (if production env then []
                   else [EvWarn (noMatchingEndTag (entry_tag y))]) ++
                  [EvEnd (entry_tag y) start end_]) ++
               [EvEnd (entry_tag x) start end_])).
Proof. apply (parseEndTag_closes name (Some start) (Some end_)). Qed.

End EndTags.

Lemma X7_parseEndTag_closes_inner_tags_witness :
  parseEndTag Sample.env (recorder Sample.options) (Some (lit "DIV")) (Some 11) (Some 17)
              nested_state =
  Some (tt, mkTState (lit "rest") 20 None [] []
              [EvWarn (noMatchingEndTag (lit "span")); EvEnd (lit "span") 11 17;
               EvEnd (lit "div") 11 17]).
Proof.
  refine (X7_parseEndTag_closes_inner_tags Sample.env Sample.options (lit "DIV") 11 17
            [mkEntry (lit "span") (lit "span") []] (mkEntry (lit "div") (lit "div") []) []
            nested_state _ eq_refl eq_refl _).
  - vm_compute. discriminate.
  - constructor; [vm_compute; discriminate|constructor].
Defined.

(** ** The tokenizer: attributes *)

Lemma span_le p s : span p s <= length s.
Proof. induction s as [|c s IH]; simpl; [lia|]. destruct (p c); simpl; lia. Qed.

Lemma span_forallb p s : forallb p (take (span p s) s) = true.
Proof.
  induction s as [|c s IH]; simpl; [done|].
  destruct (p c) eqn:E; simpl; [by rewrite E|done].
Qed.

Lemma decode_first_entity m s v k :
  m = decodingMap \/ m = decodingMapNewlines ->
  decode_first m s = Some (v, k) ->
  head s = Some 38%N /\ 0 < k /\ k <= length s /\ length v <= k.
Proof.
  assert (Hkey : forall key : str, forall val : str,
            head key = Some 38%N -> length val <= length key ->
            starts_with key s = true ->
            head s = Some 38%N /\ 0 < length key /\ length key <= length s /\
            length val <= length key).
  { intros key val Hhead Hlen Hs. pose proof (starts_with_length _ _ Hs).
    apply starts_with_app in Hs. split; [|split; [|done]].
    - rewrite Hs. by destruct key.
    - destruct key; [done|simpl; lia]. }
  intros [-> | ->]; cbn [decodingMap decodingMapNewlines app decode_first];
    repeat (match goal with
            | |- context [starts_with ?key s] =>
              destruct (starts_with key s) eqn:?;
              [intros [= <- <-]; eapply (Hkey key); [reflexivity|vm_compute; lia|done]|]
            end);
    discriminate.
Qed.

Lemma decode_with_length m b s :
  m = decodingMap \/ m = decodingMapNewlines ->
  length (decode_with b m s) <= length s.
Proof.
  intros Hm. revert s. induction b as [|b IH]; intros s; cbn [decode_with]; [done|].
  destruct s as [|c rest]; [done|].
  destruct (decode_first m (c :: rest)) as [[v k]|] eqn:E.
  - apply (decode_first_entity _ _ _ _ Hm) in E as (_ & Hk & Hle & Hv).
    rewrite length_app. specialize (IH (drop k (c :: rest))).
    rewrite length_drop in IH. lia.
  - cbn [length]. specialize (IH rest). lia.
Qed.

Lemma decode_with_plain m b s :
  m = decodingMap \/ m = decodingMapNewlines ->
  38%N ∉ s -> decode_with b m s = s.
Proof.
  intros Hm. revert s. induction b as [|b IH]; intros s Hs; cbn [decode_with]; [done|].
  destruct s as [|c rest]; [done|].
  destruct (decode_first m (c :: rest)) as [[v k]|] eqn:E.
  - apply (decode_first_entity _ _ _ _ Hm) in E as ([= ->] & _). exfalso. apply Hs. by left.
  - f_equal. apply IH. intros H. apply Hs. by right.
Qed.

Lemma decode_with_budget m b b' s :
  m = decodingMap \/ m = decodingMapNewlines ->
  length s <= b -> length s <= b' -> decode_with b m s = decode_with b' m s.
Proof.
  intros Hm. revert b' s. induction b as [|b IH]; intros b' s Hb Hb'.
  { destruct s; [|simpl in Hb; lia]. by destruct b'. }
  destruct b' as [|b']; [destruct s; [done|simpl in Hb'; lia]|].
  cbn [decode_with]. destruct s as [|c rest]; [done|].
  destruct (decode_first m (c :: rest)) as [[v k]|] eqn:E.
  - apply (decode_first_entity _ _ _ _ Hm) in E as (_ & Hk & Hle & Hv).
    f_equal. apply IH; rewrite length_drop; simpl in *; lia.
  - f_equal. apply IH; simpl in *; lia.
Qed.

Lemma decode_first_prefix m key val rest :
  (m = decodingMap \/ m = decodingMapNewlines) ->
  (key, val) ∈ m -> decode_first m (key ++ rest) = Some (val, length key).
Proof.
  intros [-> | ->] Hin; cbn [decodingMap decodingMapNewlines app] in Hin;
    repeat (apply elem_of_cons in Hin as [[= -> ->]|Hin]; [reflexivity|]);
    by apply elem_of_nil in Hin.
Qed.

(** X8. [decodeAttr] returns an attribute value that holds no ampersand
    as it is; a value that starts with one of the entities of the table
    in use ([&lt;], [&gt;], [&quot;], [&amp;], and with the newline flag
    [&#10;] and [&#9;]) is decoded to the character of the entity followed
    by the decoded rest, which is not looked at again; and the result is
    never longer than the value. *)
Theorem X8_decodeAttr_entities (value : str) (shouldDecodeNewlines : bool) :
  let table := if shouldDecodeNewlines then decodingMapNewlines else decodingMap in
  length (decodeAttr value shouldDecodeNewlines) <= length value /\
  (38%N ∉ value -> decodeAttr value shouldDecodeNewlines = value) /\
  (forall key val rest,
     (key, val) ∈ table -> value = key ++ rest ->
     decodeAttr value shouldDecodeNewlines = val ++ decodeAttr rest shouldDecodeNewlines).
Proof.
  intros table.
  assert (Hm : table = decodingMap \/ table = decodingMapNewlines)
    by (subst table; destruct shouldDecodeNewlines; auto).
  unfold decodeAttr. fold table. split; [|split].
  - by apply decode_with_length.
  - by apply decode_with_plain.
  - intros key val rest Hin ->.
    pose proof (decode_first_prefix table key val rest Hm Hin) as Hfirst.
    pose proof (decode_first_entity _ _ _ _ Hm Hfirst) as (_ & Hk & _ & _).
    destruct key as [|c key]; [simpl in Hk; lia|].
    cbn [app length decode_with]. cbn [app] in Hfirst. rewrite Hfirst.
    f_equal. change (c :: key ++ rest) with ((c :: key) ++ rest).
    rewrite drop_app_length. apply decode_with_budget; [done| |done].
    rewrite length_app. lia.
Qed.

Lemma X8_decodeAttr_entities_witness :
  decodeAttr (lit "a<b") true = lit "a<b" /\
  decodeAttr (lit "&amp;lt;") false = lit "&lt;".
Proof.
  destruct (X8_decodeAttr_entities (lit "a<b") true) as (_ & Hplain & _).
  destruct (X8_decodeAttr_entities (lit "&amp;lt;") false) as (_ & _ & Hentity).
  destruct (X8_decodeAttr_entities (lit "lt;") false) as (_ & Hrest & _).
  split.
  - apply Hplain. apply (proj1 (bool_decide_spec _)). vm_compute. exact I.
  - rewrite (Hentity (lit "&amp;") (lit "&") (lit "lt;")).
    + rewrite Hrest; [reflexivity|].
      apply (proj1 (bool_decide_spec _)). vm_compute. exact I.
    + apply (proj1 (bool_decide_spec _)). vm_compute. exact I.
    + reflexivity.
Defined.

Lemma drop_cons_length {A} k (l : list A) c rest :
  drop k l = c :: rest -> length l = k + S (length rest).
Proof.
  intros H. pose proof (length_drop l k) as Hl. rewrite H in Hl. simpl in Hl. lia.
Qed.

Lemma match_quoted_length q s v k :
  match_quoted q s = Some (v, k) -> k <= length s.
Proof.
  unfold match_quoted.
  destruct (span (N.eqb q) (drop (span (fun c => negb (N.eqb c q)) s) s)) as [|n] eqn:E;
    [done|].
  intros [= <- <-].
  pose proof (span_le (N.eqb q) (drop (span (fun c => negb (N.eqb c q)) s) s)) as H.
  rewrite E, length_drop in H. lia.
Qed.

(** X9. What the attribute pattern matches: the name is not empty and
    holds no white space, quote, [<], [>], [/] or [=]; the match is at
    least one unit long and lies within the text, so advancing by it
    never leaves the text; at most one of the three value captures
    (double-quoted, single-quoted, bare) is present. *)
Theorem X9_match_attribute_name (s : str) (a : AttrMatch) :
  match_attribute s = Some a ->
  am_name a <> [] /\
  forallb is_attr_name_char (am_name a) = true /\
  0 < am_length a <= length s /\
  match am_quoted a, am_single a, am_bare a with
  | Some _, None, None | None, Some _, None | None, None, Some _ | None, None, None => True
  | _, _, _ => False
  end.
Proof.
  unfold match_attribute.
  set (w := span is_ws s). set (s1 := drop w s).
  destruct (span is_attr_name_char s1) as [|n'] eqn:Hn; [done|].
  set (n := S n'). set (s2 := drop n s1). set (w2 := span is_ws s2).
  assert (Hw : w <= length s) by apply span_le.
  assert (Hn1 : n <= length s1) by (unfold n; rewrite <- Hn; apply span_le).
  assert (Hs1 : length s1 = length s - w) by apply length_drop.
  assert (Hs2 : length s2 = length s1 - n) by apply length_drop.
  assert (Hw2 : w2 <= length s2) by apply span_le.
  assert (Hname : take n s1 <> [] /\ forallb is_attr_name_char (take n s1) = true).
  { split.
    - destruct s1; [simpl in Hn1; lia|done].
    - unfold n. rewrite <- Hn. apply span_forallb. }
  assert (Hbare : forall b, b = mkAttrMatch (w + n) (take n s1) None None None ->
            am_name b <> [] /\ forallb is_attr_name_char (am_name b) = true /\
            0 < am_length b <= length s /\
            match am_quoted b, am_single b, am_bare b with
            | Some _, None, None | None, Some _, None | None, None, Some _
            | None, None, None => True
            | _, _, _ => False
            end).
  { intros b ->. cbn. destruct Hname. repeat split; try done; unfold n; lia. }
  destruct (drop w2 s2) as [|c s3] eqn:Hd; [intros [= <-]; by apply Hbare|].
  apply drop_cons_length in Hd.
  destruct (N.eq_dec c 61%N) as [->|Hc].
  2:{ assert (Hgoal : Some (mkAttrMatch (w + n) (take n s1) None None None) = Some a ->
                      _) by (intros [= <-]; by apply Hbare).
      revert Hgoal. clear -Hc. 
      destruct c as [|p]; [auto|]. do 6 (destruct p as [p|p|]; try (by auto)). }
  set (w3 := span is_ws s3). set (s4 := drop w3 s3).
  assert (Hw3 : w3 <= length s3) by apply span_le.
  assert (Hs4 : length s4 = length s3 - w3) by apply length_drop.
  destruct Hname as [Hne Hall].
  destruct s4 as [|c4 s5] eqn:Hs4'.
  { cbn [span]. intros [= <-]. by apply Hbare. }
  destruct (N.eq_dec c4 34%N) as [->|H34].
  { destruct (match_quoted 34 s5) as [[v k]|] eqn:Hq; [|intros [= <-]; by apply Hbare].
    intros [= <-]. cbn [am_name am_length am_quoted am_single am_bare]. repeat split; try done.
    - lia.
    - apply match_quoted_length in Hq. cbn [length] in *. unfold n in *. lia. }
  destruct (N.eq_dec c4 39%N) as [->|H39].
  { destruct (match_quoted 39 s5) as [[v k]|] eqn:Hq; [|intros [= <-]; by apply Hbare].
    intros [= <-]. cbn [am_name am_length am_quoted am_single am_bare]. repeat split; try done.
    - lia.
    - apply match_quoted_length in Hq. cbn [length] in *. unfold n in *. lia. }
  assert (Hrest :
    match span is_bare_value_char (c4 :: s5) with
    | 0 => Some (mkAttrMatch (w + n) (take n s1) None None None)
    | S k' => Some (mkAttrMatch (w + n + w2 + 1 + w3 + S k') (take n s1) None None
                                (Some (take (S k') (c4 :: s5))))
    end = Some a ->
    am_name a <> [] /\ forallb is_attr_name_char (am_name a) = true /\
    0 < am_length a <= length s /\
    match am_quoted a, am_single a, am_bare a with
    | Some _, None, None | None, Some _, None | None, None, Some _
    | None, None, None => True
    | _, _, _ => False
    end).
  { pose proof (span_le is_bare_value_char (c4 :: s5)) as Hb.
    destruct (span is_bare_value_char (c4 :: s5)) as [|k'] eqn:Hk.
    - intros [= <-]. by apply Hbare.
    - intros [= <-]. cbn [am_name am_length am_quoted am_single am_bare].
      repeat split; try done; [lia|].
      cbn [length] in Hb, Hs4. unfold n in *. lia. }
  revert Hrest. clear -H34 H39.
  destruct c4 as [|p]; [auto|]. do 6 (destruct p as [p|p|]; try (by auto)).
Qed.

Lemma X9_match_attribute_name_witness :
  exists a,
    match_attribute (lit " id=x>") = Some a /\ am_name a <> [] /\ 0 < am_length a <= 6.
Proof.
  destruct (match_attribute (lit " id=x>")) as [a|] eqn:Hm.
  2:{ vm_compute in Hm. discriminate Hm. }
  destruct (X9_match_attribute_name _ _ Hm) as (Hname & _ & Hlen & _).
  exists a. split; [reflexivity|]. split; [exact Hname|exact Hlen].
Defined.

(** ** The tokenizer: implied end tags *)

Section ImpliedEndTags.
Context (env : Env) (o : CompilerOptions).

Lemma handleStartTag_tail m (ts1 : TState (list Event)) :
  let tagName := m_tagName m in
  let unary := default (fun _ => false) (opt_isUnaryTag o) tagName ||
               nonempty (m_unarySlash m) in
  let attrs := handleStartTag_attr (recorder o) tagName <$> m_attrs m in
  (_ ← whenT (negb unary)
         (modT (fun ts => set_lastTag (Some tagName)
                 (set_stack (mkEntry tagName (toLowerCase tagName) attrs :: stack ts) ts)));
   callT_opt ((fun f => f tagName attrs unary (m_start m) (m_end m)) <$>
              hp_start (recorder o))) ts1 =
  Some (tt, mkTState (html ts1) (index ts1)
              (if unary then lastTag ts1 else Some tagName)
              (if unary then stack ts1
               else mkEntry tagName (toLowerCase tagName) attrs :: stack ts1)
              (reCache ts1)
              (user ts1 ++ [EvStart tagName attrs unary (m_start m) (m_end m)])).
Proof.
  intros tagName unary attrs. rewrite runT_bind.
  destruct unary; cbn [negb whenT]; tsimp; rewrite run_start;
    unfold set_user, set_lastTag, set_stack;
    cbn [html index lastTag stack reCache user]; by destruct ts1.
Qed.

(** X10. With [expectHTML], a start tag ends open elements first, by two
    rules applied one after the other: when the last tag is [p] and the
    new tag is not phrasing content, the innermost open element is ended;
    when then the new tag may be left open and is the last tag, the
    innermost open element is ended.  Whether the first rule applies
    alone, the second alone, or both (as for [<li><p><li>], where the [p]
    and then the [li] are ended), each element ended gets its end event at
    the current position, without a diagnostic, before the start event of
    the new tag, and the new entry, unless the tag is unary, takes the
    place of the entries that were ended. *)
Theorem X10_handleStartTag_implied_end m t closed rest (ts : TState (list Event)) :
  opt_expectHTML o = true ->
  m_tagName m <> [] ->
  lastTag ts = Some t ->
  stack ts = closed ++ rest ->
  let tagName := m_tagName m in
  let leftOpen := default (fun _ => false) (opt_canBeLeftOpenTag o) tagName in
  (exists x, closed = [x] /\
     t = lit "p" /\ entry_lowerCasedTag x = lit "p" /\ isNonPhrasingTag env tagName = true /\
     leftOpen && bool_decide (entry_tag <$> head rest = Some tagName) = false) \/
  (exists x, closed = [x] /\
     t = tagName /\ entry_lowerCasedTag x = toLowerCase tagName /\ leftOpen = true /\
     bool_decide (t = lit "p") && isNonPhrasingTag env tagName = false) \/
  (exists x y, closed = [x; y] /\
     t = lit "p" /\ entry_lowerCasedTag x = lit "p" /\ isNonPhrasingTag env tagName = true /\
     leftOpen = true /\ entry_tag y = tagName /\
     entry_lowerCasedTag y = toLowerCase tagName) ->
  let unary := default (fun _ => false) (opt_isUnaryTag o) tagName ||
               nonempty (m_unarySlash m) in
  let attrs := handleStartTag_attr (recorder o) tagName <$> m_attrs m in
  handleStartTag env (recorder o) m ts =
  Some (tt, mkTState (html ts) (index ts)
              (if unary then entry_tag <$> head rest else Some tagName)
              (if unary then rest
               else mkEntry tagName (toLowerCase tagName) attrs :: rest)
              (reCache ts)
              (user ts ++
               ((fun z => EvEnd (entry_tag z) (index ts) (index ts)) <$> closed) ++
               [EvStart tagName attrs unary (m_start m) (m_end m)])).
Proof.
  intros Hexpect Hname Hlast Hstack tagName leftOpen Hcase unary attrs.
  assert (Hsome : forall a b : str, bool_decide (Some a = Some b) = bool_decide (a = b)).
  { intros a b. apply bool_decide_ext. split; [by intros [=]|by intros ->]. }
  set (ts2 := mkTState (html ts) (index ts) (entry_tag <$> head rest) rest (reCache ts)
                (user ts ++ ((fun z => EvEnd (entry_tag z) (index ts) (index ts)) <$> closed))).
  assert (Hfirst :
    (lastTag_ ← readT lastTag;
     _ ← whenT (bool_decide (lastTag_ = Some (lit "p")) && isNonPhrasingTag env tagName)
           (parseEndTag env (recorder o) lastTag_ None None);
     lastTag_ ← readT lastTag;
     whenT (leftOpen && bool_decide (lastTag_ = Some tagName))
           (parseEndTag env (recorder o) (Some tagName) None None)) ts = Some (tt, ts2)).
  { tsimp. rewrite Hlast, Hsome.
    destruct Hcase as [(x & -> & -> & Hx & Hnon & Hleft)|
                       [(x & -> & -> & Hx & Hleft & Hp)|
                        (x & y & -> & -> & Hx & Hnon & Hleft & Hy & Hly)]].
    - rewrite Hnon. rewrite bool_decide_eq_true_2 by done. cbn [andb whenT].
      rewrite (parseEndTag_closes env o (lit "p") None None [] x rest ts)
        by (done || constructor).
      tsimp. cbn [lastTag]. fold tagName leftOpen. rewrite Hleft. reflexivity.
    - rewrite Hp. cbn [whenT]. tsimp. rewrite Hlast, Hsome, Hleft.
      rewrite bool_decide_eq_true_2 by done. cbn [andb whenT].
      rewrite (parseEndTag_closes env o tagName None None [] x rest ts)
        by (done || constructor).
      reflexivity.
    - rewrite Hnon. rewrite bool_decide_eq_true_2 by done. cbn [andb whenT].
      rewrite (parseEndTag_closes env o (lit "p") None None [] x (y :: rest) ts)
        by (done || constructor).
      tsimp. cbn [lastTag head fmap option_fmap option_map]. fold tagName leftOpen.
      rewrite Hy, Hsome, Hleft. rewrite bool_decide_eq_true_2 by done. cbn [andb whenT].
      set (ts1 := mkTState _ _ _ _ _ _).
      rewrite (parseEndTag_closes env o tagName None None [] y rest ts1)
        by (done || constructor).
      unfold ts2, ts1. cbn [html index lastTag stack reCache user mbind list_bind app
                             default fmap list_fmap].
      by rewrite <- app_assoc. }
  unfold handleStartTag. fold tagName.
  change (hp_expectHTML (recorder o)) with (opt_expectHTML o).
  change (hp_canBeLeftOpenTag (recorder o)) with (opt_canBeLeftOpenTag o).
  change (hp_isUnaryTag (recorder o)) with (opt_isUnaryTag o).
  rewrite Hexpect. cbn [whenT]. fold leftOpen unary attrs.
  rewrite runT_bind, Hfirst. cbv beta iota.
  etransitivity; [apply (handleStartTag_tail m ts2)|].
  fold tagName unary attrs.
  unfold ts2. cbn [html index lastTag stack reCache user]. by rewrite <- app_assoc.
Qed.

End ImpliedEndTags.

Lemma X10_handleStartTag_implied_end_witness :
  handleStartTag html_env (recorder html_options)
                 (mkStartTagMatch (lit "li") [] 11 [] 15) item_state =
  Some (tt, mkTState (lit "b") 15 (Some (lit "li"))
              [mkEntry (lit "li") (lit "li") []; mkEntry (lit "ul") (lit "ul") []] []
              [EvEnd (lit "p") 15 15; EvEnd (lit "li") 15 15;
               EvStart (lit "li") [] false 11 15]).
Proof.
  refine (X10_handleStartTag_implied_end html_env html_options
            (mkStartTagMatch (lit "li") [] 11 [] 15) (lit "p")
            [mkEntry (lit "p") (lit "p") []; mkEntry (lit "li") (lit "li") []]
            [mkEntry (lit "ul") (lit "ul") []] item_state
            eq_refl _ eq_refl eq_refl _).
  - vm_compute. discriminate.
  - right. right. eexists _, _. split; [reflexivity|]. repeat split.
Defined.

(** ** The AST builder: iteration expressions *)

Lemma span_app_all p a b :
  forallb p a = true -> span p (a ++ b) = length a + span p b.
Proof.
  induction a as [|c a IH]; simpl; [done|].
  intros [Hc Ha]%andb_prop. rewrite Hc. by rewrite IH.
Qed.

Lemma span_all p a : forallb p a = true -> span p a = length a.
Proof.
  intros H. rewrite <- (app_nil_r a) at 1. rewrite span_app_all by done. simpl. lia.
Qed.

Lemma span_none p a : forallb (fun c => negb (p c)) a = true -> span p a = 0.
Proof. destruct a as [|c a]; simpl; [done|]. intros [Hc _]%andb_prop. by destruct (p c). Qed.

Lemma forallb_reverse {A} (p : A -> bool) l : forallb p (reverse l) = forallb p l.
Proof.
  induction l as [|c l IH]; [done|].
  rewrite reverse_cons, forallb_app, IH. simpl. rewrite andb_true_r. apply andb_comm.
Qed.

Lemma trim_start_none s :
  forallb (fun c => negb (is_ws c)) s = true -> trim_start s = s.
Proof. intros H. unfold trim_start. by rewrite span_none. Qed.

Lemma trim_none s : forallb (fun c => negb (is_ws c)) s = true -> trim s = s.
Proof.
  intros H. unfold trim. rewrite (trim_start_none s H), trim_start_none.
  - apply reverse_involutive.
  - by rewrite forallb_reverse.
Qed.

Lemma trim_start_idemp s : trim_start (trim_start s) = trim_start s.
Proof.
  unfold trim_start. induction s as [|c s IH]; [done|]. simpl.
  destruct (is_ws c) eqn:E; simpl; [done|]. by rewrite E.
Qed.

Lemma trim_trim_start s : trim (trim_start s) = trim s.
Proof. unfold trim. by rewrite trim_start_idemp. Qed.

Lemma match_forAlias_skip m1 tail k whole :
  forallb (fun c => negb (is_ws c)) m1 = true ->
  match_forAlias (m1 ++ tail) k whole = match_forAlias tail (k + length m1) whole.
Proof.
  revert k. induction m1 as [|c m1 IH]; intros k H.
  - simpl. by rewrite Nat.add_0_r.
  - simpl in H. apply andb_prop in H as [Hc H].
    change ((c :: m1) ++ tail) with (c :: (m1 ++ tail)).
    cbn [match_forAlias span]. destruct (is_ws c); [done|].
    rewrite IH by done. f_equal. simpl. lia.
Qed.

Lemma match_forAlias_keyword ws1 kw ws2 src k whole :
  ws1 <> [] -> forallb is_ws ws1 = true ->
  ws2 <> [] -> forallb is_ws ws2 = true ->
  kw = lit "in" \/ kw = lit "of" ->
  match_forAlias (ws1 ++ kw ++ ws2 ++ src) k whole = Some (take k whole, trim_start src).
Proof.
  intros Hn1 H1 Hn2 H2 Hkw.
  assert (Hspan : span is_ws (ws1 ++ kw ++ ws2 ++ src) = length ws1).
  { rewrite span_app_all by done. destruct Hkw as [-> | ->]; simpl; lia. }
  assert (Hstart : starts_with (lit "in") (kw ++ ws2 ++ src) ||
                   starts_with (lit "of") (kw ++ ws2 ++ src) = true).
  { destruct Hkw as [-> | ->]; reflexivity. }
  assert (Hafter : drop 2 (kw ++ ws2 ++ src) = ws2 ++ src).
  { destruct Hkw as [-> | ->]; reflexivity. }
  destruct ws1 as [|c1 ws1]; [done|]. destruct ws2 as [|c2 ws2]; [done|].
  change ((c1 :: ws1) ++ kw ++ (c2 :: ws2) ++ src)
    with (c1 :: ws1 ++ kw ++ (c2 :: ws2) ++ src) in *.
  cbn [match_forAlias]. rewrite Hspan.
  change (c1 :: ws1 ++ kw ++ (c2 :: ws2) ++ src)
    with ((c1 :: ws1) ++ kw ++ (c2 :: ws2) ++ src).
  rewrite drop_app_length. cbn [length].
  rewrite Hstart, Hafter. rewrite span_app_all by done. cbn [length Nat.add].
  f_equal. f_equal. unfold trim_start.
  change (S (S (S (length ws2 + span is_ws src))))
    with (2 + (length (c2 :: ws2) + span is_ws src)).
  rewrite <- drop_drop, Hafter, <- drop_drop. by rewrite drop_app_length.
Qed.

Lemma forallb_impl {A} (p q : A -> bool) l :
  (forall c, p c = true -> q c = true) -> forallb p l = true -> forallb q l = true.
Proof.
  intros Hpq. induction l as [|c l IH]; simpl; [done|].
  intros [Hc Hl]%andb_prop. by rewrite (Hpq c Hc), IH.
Qed.

Lemma for_name_char c :
  is_for_name_char c = true ->
  is_ws c = false /\ N.eqb c 44 = false /\ is_iterator_char c = true /\
  N.eqb c 40 = false /\ N.eqb c 41 = false.
Proof.
  unfold is_for_name_char, is_iterator_char.
  destruct (is_ws c), (N.eqb c 44), (N.eqb c 125), (N.eqb c 93), (N.eqb c 40),
    (N.eqb c 41); simpl; intros H; try discriminate H; done.
Qed.

Lemma match_forIterator_skip a tail k :
  forallb (fun c => negb (N.eqb c 44)) a = true ->
  match_forIterator (a ++ tail) k = match_forIterator tail (k + length a).
Proof.
  revert k. induction a as [|c a IH]; intros k H.
  - simpl. by rewrite Nat.add_0_r.
  - simpl in H. apply andb_prop in H as [Hc H].
    change ((c :: a) ++ tail) with (c :: (a ++ tail)).
    cbn [match_forIterator].
    replace (match_forIterator tail (k + length (c :: a)))
      with (match_forIterator (a ++ tail) (S k))
      by (rewrite IH by done; f_equal; simpl; lia).
    destruct c as [|p]; [done|].
    do 6 (destruct p as [p|p|]; try done).
Qed.

Lemma match_forIterator_none a k :
  forallb (fun c => negb (N.eqb c 44)) a = true -> match_forIterator a k = None.
Proof.
  intros H. rewrite <- (app_nil_r a). by rewrite match_forIterator_skip.
Qed.

Lemma match_forIterator_one i1 k :
  forallb is_iterator_char i1 = true ->
  match_forIterator (44%N :: i1) k = Some (k, i1, None).
Proof.
  intros H. cbn [match_forIterator]. rewrite span_all by done.
  by rewrite drop_all, firstn_all.
Qed.

Lemma match_forIterator_two i1 i2 k :
  forallb is_iterator_char i1 = true -> forallb is_iterator_char i2 = true ->
  match_forIterator (44%N :: i1 ++ 44%N :: i2) k = Some (k, i1, Some i2).
Proof.
  intros H1 H2. cbn [match_forIterator]. rewrite span_app_all by done.
  cbn [span is_iterator_char N.eqb Pos.eqb orb negb]. rewrite Nat.add_0_r.
  rewrite drop_app_length, take_app_length. rewrite span_all by done.
  by rewrite drop_all, firstn_all.
Qed.

Lemma stripParens_parens s : stripParens (lit "(" ++ s ++ lit ")") = s.
Proof.
  change (lit "(" ++ s ++ lit ")") with (40%N :: s ++ [41%N]).
  unfold stripParens. cbv beta iota zeta.
  rewrite last_snoc. unfold drop_last. rewrite length_app. simpl.
  replace (length s + 1 - 1) with (length s) by lia. apply take_app_length.
Qed.

Lemma stripParens_plain s :
  forallb (fun c => negb (N.eqb c 40) && negb (N.eqb c 41)) s = true ->
  stripParens s = s.
Proof.
  intros H. unfold stripParens.
  assert (Hs : match s with 40%N :: rest => rest | _ => s end = s).
  { destruct s as [|c s]; [done|]. simpl in H.
    apply andb_prop in H as [[Hc _]%andb_prop _].
    destruct c as [|p]; [done|]. do 6 (destruct p as [p|p|]; try done). }
  rewrite Hs. destruct (last s) as [c|] eqn:El; [|done].
  assert (Hc : N.eqb c 41 = false).
  { apply last_Some_elem_of in El. rewrite forallb_forall in H.
    apply list_elem_of_In, H in El. apply andb_prop in El as [_ El].
    by apply negb_true_iff. }
  destruct c as [|p]; [done|]. do 6 (destruct p as [p|p|]; try done).
Qed.

Lemma for_names_plain (alias : str) (iterators : list str) :
  forallb is_for_name_char alias = true ->
  Forall (fun i => forallb is_for_name_char i = true) iterators ->
  let joined := join (lit ",") (alias :: iterators) in
  forallb (fun c => negb (is_ws c)) joined = true /\
  forallb (fun c => negb (N.eqb c 40) && negb (N.eqb c 41)) joined = true.
Proof.
  intros Ha Hi.
  assert (Hname : forall s, forallb is_for_name_char s = true ->
            forallb (fun c => negb (is_ws c)) s = true /\
            forallb (fun c => negb (N.eqb c 40) && negb (N.eqb c 41)) s = true).
  { intros s Hs. split; (eapply forallb_impl; [|exact Hs]); intros c Hc;
      apply for_name_char in Hc as (H1 & _ & _ & H2 & H3); rewrite ?H1, ?H2, ?H3; done. }
  revert alias Ha. induction Hi as [|i iterators Hi1 Hi IH]; intros alias Ha.
  - by apply Hname.
  - change (join (lit ",") (alias :: i :: iterators))
      with (alias ++ lit "," ++ join (lit ",") (i :: iterators)).
    cbv zeta. rewrite !forallb_app.
    destruct (Hname alias Ha) as [-> ->]. destruct (IH i Hi1) as [-> ->]. done.
Qed.

(** X11. [parseFor] on an iteration expression in its written form: an
    alias and at most two iterators, none of them empty but possibly the
    alias, free of white space, commas, brackets and parentheses, joined
    by commas, with or without the parentheses around them, then the
    keyword [in] or [of] between white space, then the source.  The
    result holds the trimmed source, the alias and the iterators; the
    parentheses are gone. *)
Theorem X11_parseFor_written_form parens alias iterators ws1 kw ws2 src :
  forallb is_for_name_char alias = true ->
  Forall (fun i => forallb is_for_name_char i = true /\ i <> []) iterators ->
  length iterators <= 2 ->
  ws1 <> [] -> forallb is_ws ws1 = true ->
  ws2 <> [] -> forallb is_ws ws2 = true ->
  kw = lit "in" \/ kw = lit "of" ->
  parseFor (for_expression parens alias iterators ws1 kw ws2 src) =
  Some (mkForResult (trim src) alias (iterators !! 0) (iterators !! 1)).
Proof.
  intros Ha Hi Hlen Hn1 H1 Hn2 H2 Hkw.
  assert (Hi' : Forall (fun i => forallb is_for_name_char i = true) iterators)
    by (eapply Forall_impl; [exact Hi|]; by intros i [? _]).
  destruct (for_names_plain alias iterators Ha Hi') as [Hws Hpar].
  set (joined := join (lit ",") (alias :: iterators)) in *.
  set (m1 := (if parens then lit "(" else []) ++ joined ++ (if parens then lit ")" else [])).
  assert (Hm1 : forallb (fun c => negb (is_ws c)) m1 = true).
  { unfold m1. rewrite !forallb_app, Hws. by destruct parens. }
  assert (Hstrip : stripParens m1 = joined).
  { unfold m1. destruct parens; [apply stripParens_parens|].
    rewrite app_nil_r. by apply stripParens_plain. }
  assert (Hexp : for_expression parens alias iterators ws1 kw ws2 src =
                 m1 ++ ws1 ++ kw ++ ws2 ++ src).
  { unfold for_expression, m1. fold joined. by rewrite <- !app_assoc. }
  unfold parseFor. rewrite Hexp at 1.
  rewrite match_forAlias_skip by done.
  rewrite match_forAlias_keyword by done.
  rewrite Hexp. cbn [Nat.add]. rewrite take_app_length.
  rewrite trim_trim_start, (trim_none m1 Hm1), Hstrip.
  assert (Hchars : forall s, forallb is_for_name_char s = true ->
            forallb (fun c => negb (N.eqb c 44)) s = true /\
            forallb is_iterator_char s = true /\
            forallb (fun c => negb (is_ws c)) s = true).
  { intros s Hs. repeat split; (eapply forallb_impl; [|exact Hs]); intros c Hc;
      apply for_name_char in Hc as (Hw & Hc & Hit & _); rewrite ?Hw, ?Hc, ?Hit; done. }
  destruct (Hchars alias Ha) as (Hcomma & _ & Htrim).
  destruct iterators as [|i1 [|i2 [|i3 iterators]]]; [| | |simpl in Hlen; lia].
  - unfold joined. cbn [join]. rewrite match_forIterator_none by done. done.
  - apply Forall_cons in Hi as [[Hi1 _] _].
    destruct (Hchars i1 Hi1) as (_ & Hit1 & Htrim1).
    unfold joined. change (join (lit ",") [alias; i1]) with (alias ++ 44%N :: i1).
    rewrite match_forIterator_skip, match_forIterator_one by done.
    cbn [Nat.add truthy]. rewrite take_app_length.
    by rewrite (trim_none alias), (trim_none i1).
  - apply Forall_cons in Hi as [[Hi1 _] Hi]. apply Forall_cons in Hi as [[Hi2 Hne2] _].
    destruct (Hchars i1 Hi1) as (_ & Hit1 & Htrim1).
    destruct (Hchars i2 Hi2) as (_ & Hit2 & Htrim2).
    unfold joined.
    change (join (lit ",") [alias; i1; i2]) with (alias ++ 44%N :: i1 ++ 44%N :: i2).
    rewrite match_forIterator_skip, match_forIterator_two by done.
    cbn [Nat.add]. rewrite take_app_length.
    rewrite (trim_none alias), (trim_none i1) by done.
    destruct i2 as [|c i2]; [done|]. cbn [truthy].
    change (show (Some (c :: i2))) with (c :: i2).
    by rewrite (trim_none (c :: i2)).
Qed.

Lemma X11_parseFor_written_form_witness :
  parseFor (lit "(item,index) in items") =
  Some (mkForResult (lit "items") (lit "item") (Some (lit "index")) None).
Proof.
  refine (X11_parseFor_written_form true (lit "item") [lit "index"] (lit " ") (lit "in")
            (lit " ") (lit "items") eq_refl _ _ _ eq_refl _ eq_refl (or_introl eq_refl)).
  - repeat constructor; discriminate.
  - simpl. lia.
  - discriminate.
  - discriminate.
Defined.

(** ** The AST builder: modifiers *)

Lemma span_modifier m tail :
  46%N ∉ m -> head tail = Some 46%N \/ tail = [] ->
  span (fun c => negb (N.eqb c 46)) (m ++ tail) = length m.
Proof.
  intros Hm Ht. rewrite span_app_all.
  - destruct Ht as [Ht | ->]; [|simpl; lia].
    destruct tail as [|c tail]; [done|]. injection Ht as ->. simpl. lia.
  - apply forallb_forall. intros c Hc%list_elem_of_In.
    apply negb_true_iff, N.eqb_neq. by intros ->.
Qed.

Lemma dots_tail (ms : list str) :
  head (concat ((fun m => 46%N :: m) <$> ms)) = Some 46%N \/
  concat ((fun m => 46%N :: m) <$> ms) = [].
Proof. destruct ms; [by right|by left]. Qed.

Lemma modifier_matches_skip base budget tail :
  46%N ∉ base ->
  modifier_matches (length base + budget) (base ++ tail) = modifier_matches budget tail.
Proof.
  induction base as [|c base IH]; [done|]. intros [Hc Hb]%not_elem_of_cons.
  cbn [length Nat.add app modifier_matches].
  destruct c as [|p]; [by apply IH|].
  do 6 (destruct p as [p|p|]; try (by apply IH)). done.
Qed.

Lemma modifier_matches_all ms budget :
  Forall (fun m => m <> [] /\ 46%N ∉ m) ms ->
  length (concat ((fun m => 46%N :: m) <$> ms)) <= budget ->
  modifier_matches budget (concat ((fun m => 46%N :: m) <$> ms)) = ms.
Proof.
  intros Hms. revert budget. induction Hms as [|m ms [Hne Hm] Hms IH]; intros budget Hb.
  - by destruct budget.
  - cbn [fmap list_fmap concat] in *. cbn [app length] in Hb. rewrite length_app in Hb.
    destruct budget as [|budget]; [lia|].
    cbn [app modifier_matches].
    rewrite (span_modifier m _ Hm (dots_tail ms)).
    destruct m as [|c m]; [done|]. cbn [length].
    change (S (length m)) with (length (c :: m)).
    rewrite take_app_length, drop_app_length. f_equal. apply IH. lia.
Qed.

Lemma strip_modifiers_skip base budget tail :
  46%N ∉ base ->
  strip_modifiers (length base + budget) (base ++ tail) = base ++ strip_modifiers budget tail.
Proof.
  induction base as [|c base IH]; [done|]. intros [Hc Hb]%not_elem_of_cons.
  cbn [length Nat.add app strip_modifiers].
  destruct c as [|p]; [by rewrite IH|].
  do 6 (destruct p as [p|p|]; try (by rewrite IH)).
Qed.

Lemma strip_modifiers_all ms budget :
  Forall (fun m => m <> [] /\ 46%N ∉ m) ms ->
  length (concat ((fun m => 46%N :: m) <$> ms)) <= budget ->
  strip_modifiers budget (concat ((fun m => 46%N :: m) <$> ms)) = [].
Proof.
  intros Hms. revert budget. induction Hms as [|m ms [Hne Hm] Hms IH]; intros budget Hb.
  - by destruct budget.
  - cbn [fmap list_fmap concat] in *. cbn [app length] in Hb. rewrite length_app in Hb.
    destruct budget as [|budget]; [lia|].
    cbn [app strip_modifiers].
    rewrite (span_modifier m _ Hm (dots_tail ms)).
    destruct m as [|c m]; [done|]. cbn [length].
    change (S (length m)) with (length (c :: m)).
    rewrite drop_app_length. apply IH. lia.
Qed.

Lemma modifiers_object ms acc (m : str) :
  obj_get m (foldl (fun ret m => obj_assign m true ret) acc ms) = Some true <->
  (m ∈ ms /\ m <> lit "__proto__") \/ obj_get m acc = Some true.
Proof.
  revert acc. induction ms as [|m0 ms IH]; intros acc; cbn [foldl].
  - split; [by right|]. intros [[H _]|H]; [by apply elem_of_nil in H|done].
  - rewrite IH, elem_of_cons. unfold obj_assign.
    destruct (decide (m0 = lit "__proto__")) as [E0|E0].
    + rewrite bool_decide_eq_true_2 by done.
      split; [intros [[? ?]|?]; [left; split; [by right|done]|by right]|].
      intros [[[?|?] ?]|?]; [congruence|by left|by right].
    + rewrite bool_decide_eq_false_2 by done. rewrite obj_get_set.
      case_bool_decide as E.
      * split; [intros _; left; split; [by left|congruence]|intros _; by right].
      * split; [intros [[? ?]|?]; [left; split; [by right|done]|by right]|].
        intros [[[?|?] ?]|?]; [done|by left|by right].
Qed.

(** X12. The modifiers of a directive name.  For a name written as a part
    without dots followed by modifiers, each a dot and a non-empty part
    without dots: [parseModifiers] returns an object in which exactly the
    modifiers other than [__proto__] are set (the object is a plain one,
    and an assignment to [__proto__] makes no property), removing the
    modifier pattern gives back the part before the first dot, and a name
    without a dot has no modifiers. *)
Theorem X12_parseModifiers_round_trip (base : str) (ms : list str) :
  46%N ∉ base ->
  Forall (fun m => m <> [] /\ 46%N ∉ m) ms ->
  let name := with_modifiers base ms in
  parseModifiers base = None /\
  strip_modifiers (length name) name = base /\
  (ms <> [] ->
   exists r, parseModifiers name = Some r /\
             forall m, obj_get m r = Some true <-> m ∈ ms /\ m <> lit "__proto__").
Proof.
  intros Hbase Hms name. split; [|split].
  - unfold parseModifiers. rewrite <- (app_nil_r base) at 2.
    rewrite <- (Nat.add_0_r (length base)).
    by rewrite modifier_matches_skip.
  - unfold name, with_modifiers. rewrite length_app.
    rewrite strip_modifiers_skip by done.
    rewrite strip_modifiers_all by done. apply app_nil_r.
  - intros Hne. unfold parseModifiers, name, with_modifiers. rewrite length_app.
    rewrite modifier_matches_skip by done.
    rewrite modifier_matches_all by done.
    destruct ms as [|m0 ms]; [done|].
    eexists. split; [reflexivity|]. intros m.
    rewrite (modifiers_object (m0 :: ms) [] m).
    split; [by intros [?|?]|by left].
Qed.

Lemma X12_parseModifiers_round_trip_witness :
  parseModifiers (lit "v-on:click") = None /\
  strip_modifiers 25 (lit "v-on:click.stop.__proto__") = lit "v-on:click" /\
  exists r, parseModifiers (lit "v-on:click.stop.__proto__") = Some r /\
            forall m, obj_get m r = Some true <->
                      m ∈ [lit "stop"; lit "__proto__"] /\ m <> lit "__proto__".
Proof.
  assert (Hbase : 46%N ∉ lit "v-on:click").
  { intros H%list_elem_of_In. vm_compute in H. intuition discriminate. }
  assert (Hms : Forall (fun m : str => m <> [] /\ 46%N ∉ m) [lit "stop"; lit "__proto__"]).
  { repeat constructor; try discriminate;
      intros H%list_elem_of_In; vm_compute in H; intuition discriminate. }
  destruct (X12_parseModifiers_round_trip (lit "v-on:click") [lit "stop"; lit "__proto__"]
              Hbase Hms) as (H1 & H2 & H3).
  split; [exact H1|]. split; [exact H2|]. apply H3. discriminate.
Defined.

(** ** The AST builder: comments, root diagnostics, attribute maps *)

Section CommentOutsideRoot.
Context (env : Env).

Lemma parseHTML_step_comment template options rest k (ts : TState PState) :
  opt_comments options = true ->
  index_of (lit "-->") (lit "<!--" ++ rest) = Some k ->
  html ts = lit "<!--" ++ rest ->
  lastTag ts = None ->
  currentParent (user ts) = None ->
  parseHTML_step env (htmlOptionsOf env template options) ts = None.
Proof.
  intros Hkeep Hend Hhtml Hlast Hparent.
  unfold parseHTML_step. tsimp. rewrite Hlast, Hhtml. cbn [truthy negb orb].
  change (index_of (lit "<") (lit "<!--" ++ rest)) with (Some 0).
  rewrite bool_decide_eq_true_2 by done.
  rewrite runT_bind. unfold parseTag at 1. tsimp. rewrite Hhtml.
  change (test_comment (lit "<!--" ++ rest)) with true. cbv iota. rewrite Hend.
  rewrite runT_bind.
  change (hp_shouldKeepComment (htmlOptionsOf env template options))
    with (opt_comments options).
  rewrite Hkeep. cbn [whenT htmlOptionsOf hp_comment].
  unfold callT, execP, parse_comment. rewrite runP_bind, runP_read, Hparent. done.
Qed.

(** X13. A comment that is kept is pushed to the children of the current
    parent without a test that there is one: the round of the tokenizer
    that meets a terminated comment outside every element throws when the
    [comments] option is set, and so does [parse] on a template that
    starts with a comment. *)
Theorem X13_parse_comment_outside_root template options rest k g s :
  opt_comments options = true ->
  index_of (lit "-->") (lit "<!--" ++ rest) = Some k ->
  (forall ts : TState PState,
     html ts = lit "<!--" ++ rest -> lastTag ts = None ->
     currentParent (user ts) = None ->
     parseHTML_step env (htmlOptionsOf env template options) ts = None) /\
  parse env (lit "<!--" ++ rest) options g s = None.
Proof.
  intros Hkeep Hend. split.
  - intros ts. by apply parseHTML_step_comment with k.
  - unfold parse, parseHTML. rewrite runT_bind.
    cbn [parseHTML_loop]. tsimp. cbn [html].
    change (nonempty (lit "<!--" ++ rest)) with true. cbv iota.
    rewrite runT_bind.
    by rewrite (parseHTML_step_comment _ options rest k).
Qed.

End CommentOutsideRoot.

Lemma X13_parse_comment_outside_root_witness :
  parse Sample.env (lit "<!--a--><p></p>") keep_comments
        initialGlobals (mkStore [] []) = None.
Proof.
  exact (proj2 (X13_parse_comment_outside_root Sample.env (lit "<!--a--><p></p>")
                 keep_comments (lit "a--><p></p>") 5
                 initialGlobals (mkStore [] []) eq_refl eq_refl)).
Defined.

Lemma obj_get_assign {A} (k k' : str) (v : A) c :
  obj_get k' (obj_assign k v c) =
  if bool_decide (k = lit "__proto__") then obj_get k' c
  else if bool_decide (k' = k) then Some v else obj_get k' c.
Proof. unfold obj_assign. case_bool_decide; [done|apply obj_get_set]. Qed.

Lemma attrs_map_lookup (m : list (str * str)) (l : list Attr) (n : str) :
  obj_get n (foldl (fun m a => obj_assign (attr_name a) (attr_value a) m) m l) =
  if bool_decide (n = lit "__proto__") then obj_get n m
  else match last (filter (fun a => attr_name a = n) l) with
       | Some a => Some (attr_value a)
       | None => obj_get n m
       end.
Proof.
  induction l as [|a l IH] using rev_ind; [by case_bool_decide|].
  rewrite foldl_app, filter_app. cbn [foldl]. rewrite obj_get_assign, IH.
  rewrite filter_cons, filter_nil.
  destruct (decide (attr_name a = lit "__proto__")) as [Ea|Ea].
  - rewrite (bool_decide_eq_true_2 _ Ea). case_bool_decide as En; [done|].
    rewrite decide_False by congruence. by rewrite app_nil_r.
  - rewrite (bool_decide_eq_false_2 _ Ea).
    case_bool_decide as En; case_bool_decide as E; try congruence.
    + subst n. rewrite decide_True by done. by rewrite last_snoc.
    + rewrite decide_False by congruence. by rewrite app_nil_r.
Qed.

Lemma obj_get_assign_ne {A} (k k' : str) (v : A) c :
  k' <> k -> obj_get k' (obj_assign k v c) = obj_get k' c.
Proof.
  intros Hk. rewrite obj_get_assign. case_bool_decide; [done|].
  by rewrite bool_decide_eq_false_2.
Qed.

Section AttrsMap.
Context (env : Env).

Lemma makeAttrsMap_warn_app m l1 l2 p :
  makeAttrsMap_warn env m (l1 ++ l2) p =
  match makeAttrsMap_warn env m l1 p with
  | Some (_, p') =>
    makeAttrsMap_warn env
      (foldl (fun m a => obj_assign (attr_name a) (attr_value a) m) m l1) l2 p'
  | None => None
  end.
Proof.
  revert m p. induction l1 as [|a l1 IH]; intros m p; [done|].
  cbn [app makeAttrsMap_warn foldl]. rewrite !runP_bind.
  destruct (whenP _ _ p) as [[[] p1]|]; [|done]. apply IH.
Qed.

Lemma makeAttrsMap_warn_distinct m l p :
  (forall a, a ∈ l -> obj_get (attr_name a) m = None) ->
  Forall (fun a => inherited (attr_name a) = false) l ->
  NoDup (attr_name <$> l) ->
  makeAttrsMap_warn env m l p = Some (tt, p).
Proof.
  revert m. induction l as [|a l IH]; intros m Hm Hin Hl; [done|].
  apply Forall_cons in Hin as [Ha' Hin].
  cbn [makeAttrsMap_warn]. rewrite runP_bind. unfold member_truthy.
  rewrite (Hm a) by (by left). rewrite Ha'. rewrite andb_false_r. cbn [andb whenP].
  rewrite runP_ret. apply NoDup_cons in Hl as [Ha Hl]. apply IH; [|done|done].
  intros a' Ha0. rewrite obj_get_assign_ne.
  - apply Hm. by right.
  - intros E. apply Ha. rewrite <- E. apply list_elem_of_fmap. by exists a'.
Qed.

(** X15. The attribute map of an element is a plain object.  Looking a
    name up among its own properties gives the value of the last
    attribute of that name, and nothing for [__proto__], which never
    becomes a property.  Building the map issues no diagnostic when the
    names are distinct and none of them is the name of an inherited
    member.  In a build that is not the production build and outside IE
    and Edge, an attribute is reported as a duplicate when it repeats a
    name whose value so far is not empty, and also when its name is the
    name of an inherited member such as [constructor], at its first
    occurrence. *)
Theorem X15_makeAttrsMap_last_value (l : list Attr) (a : Attr) (n : str) (p : PState) :
  obj_get n (attrs_map_of l) =
    (if bool_decide (n = lit "__proto__") then None
     else attr_value <$> last (filter (fun a => attr_name a = n) l)) /\
  (NoDup (attr_name <$> l) ->
   Forall (fun a => inherited (attr_name a) = false) l ->
   makeAttrsMap_warn env [] l p = Some (tt, p)) /\
  (production env = false -> isIE env = false -> isEdge env = false ->
   NoDup (attr_name <$> l) ->
   Forall (fun a => inherited (attr_name a) = false) l ->
   (exists a0, a0 ∈ l /\ attr_name a0 = attr_name a /\ attr_value a0 <> []) \/
   inherited (attr_name a) = true ->
   makeAttrsMap_warn env [] (l ++ [a]) p =
   Some (tt, add_log [mkDiag (lit "duplicate attribute: " ++ attr_name a) false] p)).
Proof.
  split; [|split].
  - unfold attrs_map_of. rewrite attrs_map_lookup. case_bool_decide; [done|].
    by destruct (last _).
  - intros Hl Hin. by apply makeAttrsMap_warn_distinct.
  - intros Hdev Hie Hedge Hl Hin Hcase.
    rewrite makeAttrsMap_warn_app, makeAttrsMap_warn_distinct by done.
    cbn [makeAttrsMap_warn]. rewrite runP_bind. unfold member_truthy.
    rewrite attrs_map_lookup. rewrite Hdev, Hie, Hedge. cbn [negb andb].
    rewrite andb_true_r.
    destruct Hcase as [(a0 & Ha0 & Hname & Hvalue)|Hinh].
    + assert (Hplain : inherited (attr_name a) = false).
      { rewrite <- Hname. rewrite Forall_forall in Hin. by apply Hin. }
      rewrite bool_decide_eq_false_2 by (by intros E; rewrite E in Hplain).
      assert (Hlast : exists a1, last (filter (fun a' => attr_name a' = attr_name a) l) = Some a1 /\
                                 a1 ∈ l /\ attr_name a1 = attr_name a).
      { destruct (last (filter (fun a' => attr_name a' = attr_name a) l)) as [a1|] eqn:El.
        - exists a1. split; [done|]. apply last_Some_elem_of in El.
          by apply list_elem_of_filter in El as [? ?].
        - apply last_None in El. exfalso.
          assert (H : a0 ∈ filter (fun a' => attr_name a' = attr_name a) l)
            by (by apply list_elem_of_filter).
          rewrite El in H. by apply elem_of_nil in H. }
      destruct Hlast as (a1 & -> & Ha1 & Hn1).
      assert (a1 = a0) as ->.
      { apply list_elem_of_lookup in Ha1 as [i Hi]. apply list_elem_of_lookup in Ha0 as [j Hj].
        assert (i = j) as ->; [|congruence].
        eapply NoDup_lookup; [exact Hl| |]; rewrite list_lookup_fmap.
        - by rewrite Hi.
        - rewrite Hj. simpl. congruence. }
      destruct (attr_value a0) as [|c v] eqn:Ev; [done|]. reflexivity.
    + assert (Hnone : last (filter (fun a' => attr_name a' = attr_name a) l) = None).
      { destruct (last (filter (fun a' => attr_name a' = attr_name a) l)) as [a1|] eqn:El;
          [|done].
        apply last_Some_elem_of, list_elem_of_filter in El as [E Ha1].
        rewrite Forall_forall in Hin. apply Hin in Ha1. congruence. }
      rewrite Hnone. cbn [obj_get]. rewrite Hinh.
      by destruct (bool_decide (attr_name a = lit "__proto__")).
Qed.

End AttrsMap.

Lemma X15_makeAttrsMap_last_value_witness :
  obj_get (lit "id") (attrs_map_of [mkAttr (lit "id") (lit "a"); mkAttr (lit "id") (lit "b")]) =
  Some (lit "b") /\
  makeAttrsMap_warn Sample.env [] [mkAttr (lit "id") (lit "a")] else_state =
  Some (tt, else_state) /\
  makeAttrsMap_warn Sample.env [] [mkAttr (lit "id") (lit "a"); mkAttr (lit "id") (lit "b")]
                    else_state =
  Some (tt, add_log [mkDiag (lit "duplicate attribute: id") false] else_state) /\
  makeAttrsMap_warn Sample.env [] [mkAttr (lit "constructor") (lit "x")] else_state =
  Some (tt, add_log [mkDiag (lit "duplicate attribute: constructor") false] else_state).
Proof.
  assert (Hl : NoDup (attr_name <$> [mkAttr (lit "id") (lit "a")])).
  { apply NoDup_singleton. }
  assert (Hin : Forall (fun a => inherited (attr_name a) = false) [mkAttr (lit "id") (lit "a")]).
  { by repeat constructor. }
  split; [|split; [|split]].
  - exact (proj1 (X15_makeAttrsMap_last_value Sample.env
                    [mkAttr (lit "id") (lit "a"); mkAttr (lit "id") (lit "b")]
                    (mkAttr (lit "id") (lit "b")) (lit "id") else_state)).
  - exact (proj1 (proj2 (X15_makeAttrsMap_last_value Sample.env
                    [mkAttr (lit "id") (lit "a")]
                    (mkAttr (lit "id") (lit "b")) (lit "id") else_state)) Hl Hin).
  - refine (proj2 (proj2 (X15_makeAttrsMap_last_value Sample.env
                    [mkAttr (lit "id") (lit "a")]
                    (mkAttr (lit "id") (lit "b")) (lit "id") else_state))
                  eq_refl eq_refl eq_refl Hl Hin (or_introl _)).
    exists (mkAttr (lit "id") (lit "a")). split; [by left|]. split; [reflexivity|discriminate].
  - exact (proj2 (proj2 (X15_makeAttrsMap_last_value Sample.env []
                    (mkAttr (lit "constructor") (lit "x")) (lit "id") else_state))
                  eq_refl eq_refl eq_refl (NoDup_nil_2) (Forall_nil_2 _) (or_intror eq_refl)).
Defined.

(** ** The code generator: text and comments *)








(** ** The AST builder: text outside the root element *)

Section TextOutsideRoot.
Context (env : Env).

Lemma parseEndTag_empty {U} (o : HTMLParserOptions U) (ts : TState U) :
  stack ts = [] -> lastTag ts = None ->
  parseEndTag env o None None None ts = Some (tt, ts).
Proof.
  intros Hs Hl. unfold parseEndTag. tsimp. rewrite Hs. cbn [truthy length take drop].
  tsimp. cbn [closeTags]. tsimp. unfold set_lastTag, set_stack. cbn.
  destruct ts; simpl in *; by subst.
Qed.

Lemma parse_chars_template template options p :
  currentParent p = None -> warned p = false ->
  parse_chars env template options template p =
  Some (tt, if production env then p else add_log [rootRequired] (set_warned true p)).
Proof.
  intros Hparent Hwarned. unfold parse_chars.
  repeat (progress (rewrite ?runP_bind, ?runP_read; cbv beta iota)). rewrite Hparent.
  destruct (production env); [done|]. cbn [negb whenP].
  rewrite bool_decide_eq_true_2 by done.
  unfold warnOnce. rewrite runP_bind, runP_read. cbv beta iota. rewrite Hwarned. done.
Qed.

Lemma parseHTML_step_text_only options c t (ts : TState PState) :
  html ts = c :: t -> index_of (lit "<") (c :: t) = None -> lastTag ts = None ->
  currentParent (user ts) = None -> warned (user ts) = false ->
  parseHTML_step env (htmlOptionsOf env (c :: t) options) ts =
  Some (true, mkTState [] (index ts) None (stack ts) (reCache ts)
                (if production env then user ts
                 else add_log [rootRequired] (set_warned true (user ts)))).
Proof.
  intros Hhtml Htext Hlast Hparent Hwarned.
  assert (Hpart : parseTextPart (htmlOptionsOf env (c :: t) options) None ts =
            Some (tt, mkTState [] (index ts) None (stack ts) (reCache ts)
                        (if production env then user ts
                         else add_log [rootRequired] (set_warned true (user ts))))).
  { unfold parseTextPart. tsimp. rewrite Hhtml. cbn [nonempty whenT].
    cbn [htmlOptionsOf hp_chars fmap option_fmap option_map callT_opt].
    unfold callT, execP, set_html. cbn [html index lastTag stack reCache user].
    rewrite parse_chars_template by done. by rewrite Hlast. }
  unfold parseHTML_step. rewrite runT_bind, runT_read. cbv beta iota.
  rewrite runT_bind, runT_read. cbv beta iota. rewrite Hlast, Hhtml.
  cbn [truthy negb orb]. rewrite Htext. rewrite bool_decide_eq_false_2 by done.
  rewrite runT_bind. rewrite (runT_bind (mret false)), runT_ret. cbv beta iota.
  rewrite runT_bind, Hpart. cbv beta iota. rewrite runT_ret. cbv beta iota.
  rewrite runT_bind, runT_read. cbv beta iota. cbn [html].
  by rewrite bool_decide_eq_false_2.
Qed.

Lemma parseHTML_loop_round {U} (o : HTMLParserOptions U) b (ts : TState U) :
  parseHTML_loop env o (S b) ts =
  match html ts with
  | [] => Some (tt, ts)
  | _ =>
    match parseHTML_step env o ts with
    | Some (true, ts') => parseHTML_loop env o b ts'
    | Some (false, ts') => Some (tt, ts')
    | None => None
    end
  end.
Proof.
  cbn [parseHTML_loop]. rewrite runT_bind, runT_read. cbv beta iota.
  destruct (html ts); [done|]. cbn [nonempty]. rewrite runT_bind.
  destruct (parseHTML_step env o ts) as [[[] ts']|]; done.
Qed.

(** X16. A template without any [<] has no root: [parse] returns no
    element, leaves the AST store and the caches of the modules as they
    were, and, unless the template is empty or the build is the production
    build, reports once that a root element is required. *)
Theorem X16_parse_text_only template options g s :
  index_of (lit "<") template = None ->
  parse env template options g s =
  Some (None,
        mkGlobals (g_reCache g) (g_text g) (g_decodeCache g) (Some (configOf options)),
        mkStore (heap s)
                (log s ++ if production env || negb (nonempty template) then []
                          else [rootRequired])).
Proof.
  intros Htext. unfold parse, parseHTML. rewrite runT_bind.
  destruct template as [|c t].
  - rewrite parseHTML_loop_round. cbn [html].
    rewrite parseEndTag_empty by done. cbn. rewrite orb_true_r, app_nil_r. by destruct s.
  - cbn [length]. rewrite parseHTML_loop_round. cbn [html].
    rewrite (parseHTML_step_text_only options c t) by done.
    rewrite parseHTML_loop_round. cbn [html].
    rewrite parseEndTag_empty by done. cbn [reCache user index stack nonempty negb].
    rewrite orb_false_r.
    destruct (production env); [cbn; rewrite app_nil_r; by destruct s|]. reflexivity.
Qed.

End TextOutsideRoot.

Lemma X16_parse_text_only_witness :
  parse Sample.env (lit "hello") Sample.options initialGlobals (mkStore [] []) =
  Some (None, mkGlobals [] initialGlobals_text [] (Some (configOf Sample.options)),
        mkStore [] [rootRequired]).
Proof.
  exact (X16_parse_text_only Sample.env (lit "hello") Sample.options initialGlobals
           (mkStore [] []) eq_refl).
Defined.

(** ** The tokenizer: raw-text elements *)

Lemma lower_char_idemp c : lower_char (lower_char c) = lower_char c.
Proof.
  unfold lower_char. destruct (is_upper c) eqn:E; [|by rewrite E].
  unfold is_upper in *. apply andb_prop in E as [H1 H2].
  apply N.leb_le in H1, H2.
  destruct (65 <=? c + 32)%N eqn:E1; [|done]. cbn [andb].
  destruct (N.leb_spec (c + 32) 90) as [H|H]; [lia|done].
Qed.

Lemma toLowerCase_idemp s : toLowerCase (toLowerCase s) = toLowerCase s.
Proof.
  unfold toLowerCase. rewrite <- list_fmap_compose. apply list_fmap_ext.
  intros _ c _. apply lower_char_idemp.
Qed.

Lemma starts_with_ci_lower a b r :
  toLowerCase a = toLowerCase b -> starts_with_ci a (b ++ r) = true.
Proof.
  revert b. induction a as [|c a IH]; intros [|d b] H; try done.
  cbn [toLowerCase fmap list_fmap] in H. injection H as Hc H.
  cbn [app starts_with_ci]. rewrite Hc, N.eqb_refl. by apply IH.
Qed.

Lemma lower_char_eq_punct c d :
  N.eqb (lower_char c) (lower_char d) = true -> (c < 65)%N -> d = c.
Proof.
  intros H%N.eqb_eq Hc. unfold lower_char, is_upper in H.
  destruct (N.leb_spec 65 c) as [?|_]; [lia|]. cbn [andb] in H.
  destruct (N.leb_spec 65 d) as [Hd|_]; [|done]. cbn [andb] in H.
  destruct (N.leb_spec d 90); lia.
Qed.

Lemma starts_with_ci_end tag s :
  starts_with_ci (lit "</" ++ tag) s = true -> starts_with (lit "</") s = true.
Proof.
  change (lit "</" ++ tag) with (60%N :: 47%N :: tag).
  destruct s as [|c [|d s]]; cbn [starts_with_ci]; try done.
  - by rewrite andb_false_r.
  - intros [H1 [H2 _]%andb_prop]%andb_prop.
    apply lower_char_eq_punct in H1; [|done]. apply lower_char_eq_punct in H2; [|done].
    by subst.
Qed.

Lemma match_stackedEnd_none tag s :
  starts_with (lit "</") s = false -> match_stackedEnd tag s = None.
Proof.
  intros H. unfold match_stackedEnd.
  destruct (starts_with_ci (lit "</" ++ tag) s) eqn:E; [|done].
  apply starts_with_ci_end in E. congruence.
Qed.

Lemma index_of_none_at p s j :
  p <> [] -> index_of p s = None -> starts_with p (drop j s) = false.
Proof.
  intros Hp. revert j. induction s as [|c s IH]; intros j H.
  - rewrite drop_nil. by destruct p.
  - cbn [index_of] in H. destruct (starts_with p (c :: s)) eqn:E; [done|].
    destruct j as [|j]; [done|]. cbn [drop]. apply IH.
    by destruct (index_of p s).
Qed.

Lemma search_stackedEnd_content tag content tail len :
  index_of (lit "</") content = None ->
  head tail = Some 60%N ->
  match_stackedEnd tag tail = Some len ->
  search_stackedEnd tag (content ++ tail) = Some (length content, len).
Proof.
  intros Hnone Htail Hmatch. induction content as [|c content IH].
  - destruct tail; cbn [app search_stackedEnd]; by rewrite Hmatch.
  - assert (Hc : match_stackedEnd tag ((c :: content) ++ tail) = None).
    { apply match_stackedEnd_none.
      pose proof (index_of_none_at (lit "</") (c :: content) 0 ltac:(done) Hnone) as H0.
      cbn [drop] in H0. destruct content as [|d content].
      - destruct tail as [|e tail]; [done|]. injection Htail as ->.
        change (N.eqb 60 c && false = false). apply andb_false_r.
      - exact H0. }
    cbn [app search_stackedEnd] in *. rewrite Hc, IH; [done|].
    cbn [index_of] in Hnone. destruct (starts_with _ (c :: content)); [done|].
    by destruct (index_of _ content).
Qed.

Lemma match_stackedEnd_closing tag name rest :
  toLowerCase name = toLowerCase tag ->
  match_stackedEnd (toLowerCase tag) (lit "</" ++ name ++ lit ">" ++ rest) =
  Some (length name + 3).
Proof.
  intros Hname. unfold match_stackedEnd.
  assert (Hlen : length (toLowerCase tag) = length name).
  { rewrite <- Hname. unfold toLowerCase. by rewrite length_fmap. }
  assert (Hci : starts_with_ci (lit "</" ++ toLowerCase tag)
                  (lit "</" ++ name ++ lit ">" ++ rest) = true).
  { change (starts_with_ci (toLowerCase tag) (name ++ lit ">" ++ rest) = true).
    apply starts_with_ci_lower. by rewrite toLowerCase_idemp. }
  rewrite Hci, Hlen.
  change (drop (2 + length name) (lit "</" ++ name ++ lit ">" ++ rest))
    with (drop (length name) (name ++ lit ">" ++ rest)).
  rewrite drop_app_length.
  change (span (fun c => negb (N.eqb c 62)) (lit ">" ++ rest)) with 0.
  change (drop 0 (lit ">" ++ rest)) with (62%N :: rest). cbv iota. f_equal. lia.
Qed.

Lemma obj_set_same {A} (k : str) (v : A) c : obj_get k c = Some v -> obj_set k v c = c.
Proof.
  induction c as [|[k' v'] c IH]; [done|]. cbn [obj_get obj_set].
  case_bool_decide as E; [by intros [= ->]; subst|]. intros H. by rewrite IH.
Qed.

Section RawText.
Context (env : Env) (o : CompilerOptions).

Lemma plainText_tag t :
  isPlainTextElement t = true ->
  toLowerCase t = lit "script" \/ toLowerCase t = lit "style" \/ toLowerCase t = lit "textarea".
Proof.
  unfold isPlainTextElement, makeMap_lower. intros H%bool_decide_eq_true.
  repeat (apply elem_of_cons in H as [H|H]; [tauto|]). by apply elem_of_nil in H.
Qed.

(** X17. The content of a raw-text element ([script], [style],
    [textarea]) is not tokenized.  When the last open tag is such an
    element, one round of the loop hands the text up to the first [</],
    which starts the end tag of the element, to the chars callback as it
    is ([textarea] without a leading line feed), then closes the element;
    markup and comments in the text are not looked at. *)
Theorem X17_raw_text_element t x below content name rest (ts : TState (list Event)) :
  lastTag ts = Some t ->
  isPlainTextElement t = true ->
  stack ts = x :: below ->
  entry_lowerCasedTag x = toLowerCase t ->
  re_cache_ok (reCache ts) ->
  html ts = content ++ lit "</" ++ name ++ lit ">" ++ rest ->
  toLowerCase name = toLowerCase t ->
  index_of (lit "</") content = None ->
  let tag := toLowerCase t in
  let text := if bool_decide (tag = lit "textarea") && bool_decide (head content = Some 10%N)
              then drop 1 content else content in
  let stop := index ts + length content in
  let end_ := stop + (length name + 3) in
  parseHTML_step env (recorder o) ts =
  Some (true, mkTState rest end_ (entry_tag <$> head below) below
                (obj_set tag tag (reCache ts))
                (user ts ++ [EvChars text; EvEnd (entry_tag x) stop end_])).
Proof.
  intros Hlast Hplain Hstack Hx Hcache Hhtml Hname Hnone tag text stop end_.
  assert (Htag : tag <> []).
  { destruct (plainText_tag t Hplain) as [H|[H|H]]; unfold tag; rewrite H; done. }
  assert (Ht : truthy (Some t) = true).
  { destruct t; [|done]. by destruct Htag. }
  assert (Hidem : toLowerCase tag = tag) by apply toLowerCase_idemp.
  assert (Hplain' : isPlainTextElement tag = true).
  { unfold isPlainTextElement, makeMap_lower in *. by rewrite Hidem. }
  assert (Hsearch : search_stackedEnd tag (html ts) = Some (length content, length name + 3)).
  { rewrite Hhtml. apply search_stackedEnd_content; [done|done|].
    by apply match_stackedEnd_closing. }
  assert (Hignore : shouldIgnoreFirstNewline (Some tag) content =
                    bool_decide (tag = lit "textarea") && bool_decide (head content = Some 10%N)).
  { unfold shouldIgnoreFirstNewline, isIgnoreNewlineTag, makeMap_lower.
    change (show (Some tag)) with tag. rewrite Hidem.
    destruct (plainText_tag t Hplain) as [H|[H|H]]; fold tag in H; rewrite H; done. }
  assert (Hpattern : stackedPattern tag ts = Some (tag, set_reCache (obj_set tag tag (reCache ts)) ts)).
  { unfold stackedPattern. destruct (obj_get tag (reCache ts)) as [re|] eqn:E; [|done].
    pose proof (Hcache _ _ E) as ->. rewrite (obj_set_same _ _ _ E).
    unfold set_reCache. by destruct ts. }
  set (ts1 := set_reCache (obj_set tag tag (reCache ts)) ts).
  unfold parseHTML_step. rewrite runT_bind, runT_read. cbv beta iota.
  rewrite runT_bind, runT_read. cbv beta iota. rewrite Hlast, Ht.
  change (show (Some t)) with t. rewrite Hplain. cbn [negb orb].
  rewrite runT_bind. rewrite (runT_bind (parsePlainText _ _)).
  unfold parsePlainText. rewrite runT_bind, runT_read. cbv beta iota.
  rewrite Hlast. change (toLowerCase (show (Some t))) with tag.
  rewrite runT_bind, Hpattern. cbv beta iota. fold ts1.
  rewrite runT_bind, runT_read. cbv beta iota.
  change (html ts1) with (html ts). rewrite Hsearch.
  rewrite Hplain'. cbn [negb andb].
  rewrite Hhtml, take_app_length, <- Hhtml. rewrite Hignore. fold text.
  assert (Hrest : drop (length content + (length name + 3)) (html ts) = rest).
  { rewrite Hhtml, <- drop_drop, drop_app_length.
    change (lit "</" ++ name ++ lit ">" ++ rest) with (60%N :: 47%N :: name ++ 62%N :: rest).
    replace (length name + 3) with (S (S (length name + 1))) by lia. cbn [drop].
    rewrite <- drop_drop, drop_app_length. done. }
  assert (Hlen : length (html ts) - length rest = length content + (length name + 3)).
  { rewrite Hhtml, !length_app. simpl. lia. }
  rewrite Hrest.
  rewrite runT_bind, runT_bind, run_chars. cbv beta iota.
  rewrite runT_ret. cbv beta iota. rewrite runT_bind, runT_mod. cbv beta iota.
  rewrite runT_bind, runT_read. cbv beta iota.
  rewrite Hlen.
  set (ts2 := set_html rest _).
  rewrite (parseEndTag_closes env o tag _ _ [] x below ts2 Htag); cycle 1.
  { done. }
  { by rewrite Hidem. }
  { constructor. }
  cbv beta iota. rewrite runT_ret. cbv beta iota.
  rewrite runT_bind, runT_read. cbv beta iota. cbn [html].
  rewrite bool_decide_eq_false_2.
  2:{ intros H. apply (f_equal length) in H. rewrite Hhtml, !length_app in H. simpl in H. lia. }
  rewrite runT_ret. cbn [html index reCache user default app mbind list_bind].
  unfold ts2, ts1, set_html, set_index, set_reCache, set_user.
  cbn [html index lastTag stack reCache user].
  unfold id, end_, stop. rewrite <- app_assoc. cbn [app].
  replace (index ts + (length content + (length name + 3)) - (length name + 3))
    with (index ts + length content) by lia.
  replace (index ts + (length content + (length name + 3)))
    with (index ts + length content + (length name + 3)) by lia.
  reflexivity.
Qed.

End RawText.

Lemma X17_raw_text_element_witness :
  parseHTML_step Sample.env (recorder Sample.options) script_state =
  Some (true, mkTState (lit "x") 20 None [] [(lit "script", lit "script")]
                [EvChars (lit "a<b"); EvEnd (lit "script") 11 20]).
Proof.
  refine (X17_raw_text_element Sample.env Sample.options (lit "script")
            (mkEntry (lit "script") (lit "script") []) [] (lit "a<b") (lit "script")
            (lit "x") script_state eq_refl eq_refl eq_refl eq_refl _ eq_refl eq_refl eq_refl).
  intros k v H. discriminate H.
Defined.

(** ** The tokenizer: the open-tag stack *)

Lemma keeps_stack_bind {U A B} (m : T U A) (f : A -> T U B) :
  keeps_stack m -> (forall a, keeps_stack (f a)) -> keeps_stack (m ≫= f).
Proof.
  intros Hm Hf ts b ts' Hok H. rewrite runT_bind in H.
  destruct (m ts) as [[a ts1]|] eqn:E; [|done].
  eapply Hf; [|exact H]. by eapply Hm.
Qed.

Lemma keeps_stack_ret {U A} (a : A) : keeps_stack (mret a : T U A).
Proof. intros ts b ts' Hok [= _ <-]. done. Qed.

Lemma keeps_stack_read {U A} (f : TState U -> A) : keeps_stack (readT f).
Proof. intros ts b ts' Hok [= _ <-]. done. Qed.

Lemma keeps_stack_fail {U A} : keeps_stack (failT : T U A).
Proof. intros ts b ts' Hok [=]. Qed.

Lemma keeps_stack_mod {U} (f : TState U -> TState U) :
  (forall ts, stack (f ts) = stack ts /\ lastTag (f ts) = lastTag ts) ->
  keeps_stack (modT f).
Proof.
  intros Hf ts b ts' [H1 H2] [= _ <-]. destruct (Hf ts) as [Hs Hl].
  unfold stack_ok. by rewrite Hs, Hl.
Qed.

Lemma keeps_stack_call {U} (f : U -> option U) : keeps_stack (callT f).
Proof.
  intros ts b ts' Hok H. unfold callT in H. destruct (f (user ts)); [|done].
  injection H as _ <-. exact Hok.
Qed.

Lemma keeps_stack_call_opt {U} (f : option (U -> option U)) : keeps_stack (callT_opt f).
Proof. destruct f; [apply keeps_stack_call|apply keeps_stack_ret]. Qed.

Lemma keeps_stack_when {U} b (m : T U unit) : keeps_stack m -> keeps_stack (whenT b m).
Proof. destruct b; [done|]. intros _. apply keeps_stack_ret. Qed.

Ltac stack_step :=
  match goal with
  | |- keeps_stack (_ ≫= _) => apply keeps_stack_bind; [|intros ?]
  | |- keeps_stack (whenT _ _) => apply keeps_stack_when
  | |- keeps_stack (mret _) => apply keeps_stack_ret
  | |- keeps_stack (readT _) => apply keeps_stack_read
  | |- keeps_stack failT => apply keeps_stack_fail
  | |- keeps_stack (callT_opt _) => apply keeps_stack_call_opt
  | |- keeps_stack (callT _) => apply keeps_stack_call
  | |- keeps_stack (modT _) => apply keeps_stack_mod; intros ?; by split
  | |- keeps_stack (match ?x with _ => _ end) => destruct x
  | |- keeps_stack (if ?b then _ else _) => destruct b
  | |- keeps_stack (let '(_, _) := ?x in _) => destruct x
  end.

Section StackInvariant.
Context (env : Env) {U : Type} (o : HTMLParserOptions U).

Lemma keeps_stack_advance n : keeps_stack (advance (U:=U) n).
Proof. unfold advance. stack_step. Qed.

Lemma keeps_stack_closeTags named s e entries :
  keeps_stack (closeTags env o named s e entries).
Proof. induction entries as [|x entries IH]; cbn [closeTags]; repeat stack_step; done. Qed.

Lemma keeps_stack_parseEndTag tagName s e : keeps_stack (parseEndTag env o tagName s e).
Proof.
  intros ts b ts' Hok H. unfold parseEndTag in H.
  rewrite runT_bind, runT_read in H. cbv beta iota in H.
  rewrite runT_bind, runT_read in H. cbv beta iota zeta in H. revert H.
  destruct (if truthy tagName then _ else _) as [cnt|].
  - rewrite runT_bind.
    destruct (closeTags _ _ _ _ _ _ ts) as [[[] ts1]|] eqn:E; [|done].
    intros [= _ <-]. split; [done|]. cbn [stack set_lastTag set_stack].
    apply Forall_drop, Hok.
  - intros H.
    match type of H with
    | ?m ts = _ => assert (K : keeps_stack m) by (repeat stack_step)
    end.
    exact (K ts b ts' Hok H).
Qed.

Ltac stack_auto :=
  repeat (stack_step || apply keeps_stack_parseEndTag || apply keeps_stack_advance).

Lemma keeps_stack_parseStartTag_attrs b acc : keeps_stack (parseStartTag_attrs (U:=U) b acc).
Proof. revert acc. induction b as [|b IH]; intros acc; cbn [parseStartTag_attrs]; stack_auto. apply IH. Qed.

Lemma keeps_stack_parseStartTag : keeps_stack (parseStartTag (U:=U)).
Proof.
  unfold parseStartTag. stack_auto. 1: apply keeps_stack_parseStartTag_attrs.
  all: stack_auto.
Qed.

Lemma keeps_stack_push tagName attrs :
  keeps_stack (modT (fun ts : TState U =>
                 set_lastTag (Some tagName)
                   (set_stack (mkEntry tagName (toLowerCase tagName) attrs :: stack ts) ts))).
Proof.
  intros ts b ts' [H1 H2] [= _ <-]. split; [done|]. cbn [stack set_lastTag set_stack].
  by constructor.
Qed.

Lemma keeps_stack_handleStartTag m : keeps_stack (handleStartTag env o m).
Proof.
  unfold handleStartTag. stack_auto. apply keeps_stack_push.
Qed.

Lemma keeps_stack_parseTag : keeps_stack (parseTag env o).
Proof.
  unfold parseTag. stack_auto.
  all: try apply keeps_stack_parseStartTag; try apply keeps_stack_handleStartTag; stack_auto.
Qed.

Lemma keeps_stack_parseTextPart textEnd : keeps_stack (parseTextPart o textEnd).
Proof. unfold parseTextPart. stack_auto. Qed.

Lemma keeps_stack_stackedPattern tag : keeps_stack (stackedPattern (U:=U) tag).
Proof.
  intros ts b ts' Hok H. unfold stackedPattern in H.
  destruct (obj_get tag (reCache ts)); injection H as _ <-; done.
Qed.

Lemma keeps_stack_parsePlainText : keeps_stack (parsePlainText env o).
Proof.
  unfold parsePlainText. stack_auto; try apply keeps_stack_stackedPattern; stack_auto.
Qed.

Lemma keeps_stack_parseHTML_step : keeps_stack (parseHTML_step env o).
Proof.
  unfold parseHTML_step. stack_auto.
  all: try apply keeps_stack_parseTag; try apply keeps_stack_parseTextPart;
    try apply keeps_stack_parsePlainText; stack_auto.
Qed.

Lemma keeps_stack_parseHTML_loop budget : keeps_stack (parseHTML_loop env o budget).
Proof.
  induction budget as [|b IH]; cbn [parseHTML_loop]; stack_auto; try done.
  apply keeps_stack_parseHTML_step.
Qed.

End StackInvariant.

(** X18. The open-tag stack and the last tag go together.  From a state
    in which the last tag is the tag of the innermost open entry (absent
    when nothing is open) and every entry carries the lower-cased form of
    its tag, every round of the loop that returns, and the loop itself,
    whatever the callbacks do, ends in such a state.  The first state of
    [parseHTML] is of this kind. *)
Theorem X18_open_tag_stack (env : Env) {U : Type} (o : HTMLParserOptions U)
    (budget : nat) (ts : TState U) :
  stack_ok ts ->
  (forall continue ts', parseHTML_step env o ts = Some (continue, ts') -> stack_ok ts') /\
  (forall ts', parseHTML_loop env o budget ts = Some (tt, ts') -> stack_ok ts') /\
  (forall h cache (u : U), stack_ok (mkTState h 0 None [] cache u)).
Proof.
  intros Hok. split; [|split].
  - intros c ts' H. by eapply keeps_stack_parseHTML_step.
  - intros ts' H. by eapply keeps_stack_parseHTML_loop.
  - intros h cache u. split; [done|constructor].
Qed.

Lemma X18_open_tag_stack_witness : stack_ok opened_state.
Proof.
  refine (proj1 (proj2 (X18_open_tag_stack Sample.env (recorder Sample.options) 10
                          open_state _)) opened_state _).
  - split; [reflexivity|constructor].
  - vm_compute. reflexivity.
Defined.

(** ** The AST builder: closing an element *)

(** X19. The end callback and a trailing space.  When the last child of
    the element that is closed is a text node whose text is one space,
    the node is removed unless the builder is inside a [pre] element; the
    test does not look at the comment flag, so a kept comment whose text
    is one space is removed as well.  The element is then popped and
    closed, and its parent becomes the current parent.  With no open
    element the callback throws. *)
Theorem X19_parse_end_trailing_space (p : PState) :
  (pstack p = [] -> parse_end p = None) /\
  (forall element rest e cs isComment,
     pstack p = element :: rest ->
     heap (store p) !! element = Some e ->
     children e = cs ++ [NText (lit " ") isComment] ->
     parse_end p =
     closeElement element
       (set_currentParent (head rest)
          (set_pstack rest
             (if inPre p then p
              else set_store (mkStore (<[element := set_children cs e]> (heap (store p)))
                                      (log (store p))) p)))).
Proof.
  split.
  - intros Hs. unfold parse_end. rewrite runP_bind, runP_read. cbv beta iota.
    rewrite runP_bind, runP_read. cbv beta iota. by rewrite Hs.
  - intros element rest e cs isComment Hs He Hcs. unfold parse_end.
    rewrite runP_bind, runP_read. cbv beta iota.
    rewrite runP_bind, runP_read. cbv beta iota. rewrite Hs.
    rewrite runP_bind, (runP_getEl _ _ _ He). cbv beta iota.
    rewrite Hcs, last_snoc. rewrite bool_decide_eq_true_2 by done. cbn [andb].
    rewrite length_app. cbn [length]. replace (length cs + 1 - 1) with (length cs) by lia.
    rewrite take_app_length.
    rewrite runP_bind. destruct (inPre p); cbn [negb whenP].
    + rewrite runP_ret. cbv beta iota. reflexivity.
    + unfold setElP. rewrite bool_decide_eq_true_2 by (by eapply lookup_lt_Some).
      cbv beta iota. reflexivity.
Qed.

Lemma X19_parse_end_trailing_space_witness :
  parse_end else_state =
  closeElement 0
    (set_currentParent None
       (set_pstack []
          (set_store (mkStore (<[0 := set_children [NElement 1] (Sample.el "div" None [NElement 1; NText (lit " ") false])]>
                                 (heap (store else_state)))
                              (log (store else_state))) else_state))).
Proof.
  exact (proj2 (X19_parse_end_trailing_space else_state) 0 []
           (Sample.el "div" None [NElement 1; NText (lit " ") false])
           [NElement 1] false eq_refl eq_refl eq_refl).
Defined.

(** ** The tokenizer: a start tag that is not closed *)

Lemma lower_is_ncname c : is_lower c = true -> is_ncname_start c = true /\ is_ncname_char c = true.
Proof.
  intros H. unfold is_ncname_start, is_ncname_char, is_word. rewrite H.
  by rewrite !orb_true_r.
Qed.

Lemma match_qname_lower name :
  name <> [] -> forallb is_lower name = true -> match_qname name = Some (length name).
Proof.
  intros Hne Hl. destruct name as [|c name]; [done|]. cbn [forallb] in Hl.
  apply andb_prop in Hl as [Hc Hl]. unfold match_qname, match_ncname.
  rewrite (proj1 (lower_is_ncname c Hc)).
  rewrite (span_all is_ncname_char name).
  2:{ eapply forallb_impl; [|exact Hl]. intros d Hd. by apply lower_is_ncname. }
  change (S (length name)) with (length (c :: name)). by rewrite drop_all.
Qed.

Lemma lower_first_tests c name :
  is_lower c = true ->
  test_comment (60%N :: c :: name) = false /\
  test_conditionalComment (60%N :: c :: name) = false /\
  match_doctype (60%N :: c :: name) = None /\
  match_endTag (60%N :: c :: name) = None.
Proof.
  intros Hc. unfold is_lower in Hc. apply andb_prop in Hc as [H1 H2].
  apply N.leb_le in H1, H2.
  assert (H33 : N.eqb 33 c = false) by (apply N.eqb_neq; lia).
  assert (Hup : is_upper c = false).
  { unfold is_upper. destruct (N.leb_spec c 90); [lia|]. apply andb_false_r. }
  repeat split.
  - unfold test_comment. change (starts_with (lit "<!--") (60%N :: c :: name))
      with (N.eqb 33 c && starts_with (lit "--") name). by rewrite H33.
  - unfold test_conditionalComment.
    change (starts_with (lit "<![") (60%N :: c :: name))
      with (N.eqb 33 c && starts_with (lit "[") name). by rewrite H33.
  - unfold match_doctype.
    change (starts_with_ci (lit "<!DOCTYPE ") (60%N :: c :: name))
      with (N.eqb 33 (lower_char c) && starts_with_ci (lit "DOCTYPE ") name).
    unfold lower_char. by rewrite Hup, H33.
  - unfold match_endTag. destruct c as [|p]; [done|].
    do 6 (destruct p as [p|p|]; try done); lia.
Qed.

Section OpenStartTag.
Context (env : Env).

Lemma parseStartTag_unclosed {U} name (ts : TState U) :
  name <> [] -> forallb is_lower name = true ->
  html ts = 60%N :: name ->
  parseStartTag ts = Some (None, set_html [] (set_index (index ts + S (length name)) ts)).
Proof.
  intros Hne Hl Hhtml. unfold parseStartTag.
  rewrite runT_bind, runT_read. cbv beta iota. rewrite Hhtml.
  unfold match_startTagOpen. rewrite match_qname_lower by done.
  rewrite runT_bind, runT_read. cbv beta iota.
  rewrite runT_bind. unfold advance at 1. rewrite runT_mod. cbv beta iota.
  rewrite Hhtml. change (S (length name)) with (length (60%N :: name)).
  rewrite drop_all.
  rewrite runT_bind, runT_read. cbv beta iota. cbn [html set_html].
  rewrite runT_bind. cbn [length parseStartTag_attrs].
  rewrite runT_bind, runT_read. cbv beta iota. cbn [html set_html].
  change (match_startTagClose []) with (@None (str * nat)).
  change (match_attribute []) with (@None AttrMatch). cbv beta iota.
  rewrite runT_ret. cbv beta iota. by rewrite runT_ret.
Qed.

Lemma parseHTML_step_unclosed {U} (o : HTMLParserOptions U) name (ts : TState U) :
  name <> [] -> forallb is_lower name = true ->
  html ts = 60%N :: name -> lastTag ts = None ->
  parseHTML_step env o ts =
  Some (true, set_html [] (set_index (index ts + S (length name) + 0) ts)).
Proof.
  intros Hne Hl Hhtml Hlast.
  destruct name as [|c name']; [done|]. set (name := c :: name') in *.
  assert (Hc : is_lower c = true) by (by apply andb_prop in Hl as [? _]).
  destruct (lower_first_tests c name' Hc) as (Hcomment & Hcond & Hdoc & Hend).
  fold name in Hcomment, Hcond, Hdoc, Hend.
  assert (Htag : parseTag env o ts =
                 Some (false, set_html [] (set_index (index ts + S (length name)) ts))).
  { unfold parseTag. rewrite runT_bind, runT_read. cbv beta iota.
    rewrite Hhtml, Hcomment, Hcond, Hdoc, Hend.
    rewrite runT_bind, (parseStartTag_unclosed name) by done. cbv beta iota.
    by rewrite runT_ret. }
  unfold parseHTML_step. rewrite runT_bind, runT_read. cbv beta iota.
  rewrite runT_bind, runT_read. cbv beta iota. rewrite Hlast, Hhtml.
  cbn [truthy negb orb].
  change (index_of (lit "<") (60%N :: name)) with (Some 0).
  rewrite bool_decide_eq_true_2 by done.
  rewrite runT_bind, runT_bind, Htag. cbv beta iota.
  rewrite runT_bind. unfold parseTextPart. rewrite runT_bind, runT_read. cbv beta iota.
  cbn [html set_html length].
  change (textEnd_scan 1 [] 0) with (Some 0).
  rewrite runT_bind, runT_bind. unfold advance at 1. rewrite runT_mod. cbv beta iota.
  rewrite runT_ret. cbv beta iota.
  change (nonempty (substring 0 0 [])) with false. cbn [whenT].
  rewrite runT_ret. cbv beta iota. rewrite runT_ret. cbv beta iota.
  rewrite runT_bind, runT_read. cbv beta iota.
  cbn [html set_html set_index drop].
  by rewrite bool_decide_eq_false_2.
Qed.

(** X20. A start tag that the template ends in is dropped without a
    word: on a template that is [<] and a name of lower-case letters, the
    tokenizer consumes the tag and calls no callback, whatever the
    options, so that [parse] returns no root and issues no diagnostic,
    not even the one of a missing root element. *)
Theorem X20_unclosed_start_tag_dropped (name : str) (options : CompilerOptions)
    (g : Globals) (s : Store) :
  name <> [] -> forallb is_lower name = true ->
  (forall U (o : HTMLParserOptions U) cache (u : U),
     parseHTML env o (lit "<" ++ name) cache u = Some (cache, u)) /\
  parse env (lit "<" ++ name) options g s =
  Some (None,
        mkGlobals (g_reCache g) (g_text g) (g_decodeCache g) (Some (configOf options)),
        s).
Proof.
  intros Hne Hl.
  assert (Hrun : forall U (o : HTMLParserOptions U) cache (u : U),
            parseHTML env o (lit "<" ++ name) cache u = Some (cache, u)).
  { intros U o cache u. unfold parseHTML. rewrite runT_bind.
    change (lit "<" ++ name) with (60%N :: name). cbn [length].
    rewrite parseHTML_loop_round. cbn [html].
    rewrite (parseHTML_step_unclosed o name) by done.
    rewrite parseHTML_loop_round. cbn [html set_html].
    by rewrite parseEndTag_empty. }
  split; [exact Hrun|]. unfold parse. rewrite Hrun. cbn. by destruct s.
Qed.

End OpenStartTag.

Lemma X20_unclosed_start_tag_dropped_witness :
  parseHTML Sample.env (recorder Sample.options) (lit "<div") [] [] = Some ([], []) /\
  parse Sample.env (lit "<div") Sample.options initialGlobals (mkStore [] []) =
  Some (None, mkGlobals [] initialGlobals_text [] (Some (configOf Sample.options)),
        mkStore [] []).
Proof.
  assert (Hne : lit "div" <> []) by discriminate.
  destruct (X20_unclosed_start_tag_dropped Sample.env (lit "div") Sample.options
              initialGlobals (mkStore [] []) Hne eq_refl) as [H1 H2].
  split; [exact (H1 _ (recorder Sample.options) [] [])|exact H2].
Defined.

(** ** The code generator: slot outlets *)

Section SlotOutlet.
Context (env : Env).

Lemma slot_arguments (name : str) (c a b : option str) :
  (lit "_t(" ++ name ++ text_if (truthy c) (lit "," ++ show c)) ++
  text_if ((truthy a || truthy b) && negb (truthy c)) (lit ",null") ++
  text_if (truthy a) (lit "," ++ show a) ++
  text_if (truthy b) ((if truthy a then [] else lit ",null") ++ lit "," ++ show b) ++
  lit ")" =
  lit "_t(" ++ join (lit ",") (name :: positional [c; a; b]) ++ lit ")".
Proof.
  destruct c as [[|c0 c]|]; destruct a as [[|a0 a]|]; destruct b as [[|b0 b]|];
    cbn [truthy text_if positional orb andb negb join];
    rewrite <- ?app_assoc, ?app_nil_r; reflexivity.
Qed.

Lemma genSlot_tail_positional e name (children : option str) :
  genSlot_tail env e (lit "_t(" ++ name ++ text_if (truthy children) (lit "," ++ show children))
               children =
  lit "_t(" ++
  join (lit ",") (name :: positional [children; slot_attrs env e;
                                      obj_get (lit "v-bind") (attrsMap e)]) ++
  lit ")".
Proof.
  rewrite <- slot_arguments. unfold genSlot_tail, slot_attrs.
  destruct (attrs e); cbn [fmap option_fmap option_map]; by rewrite <- !app_assoc.
Qed.

(** X21. The arguments of a slot outlet are positional.  [genSlot]
    returns the call [_t] with the slot name, the fallback children, the
    attribute object and the [v-bind] object in this order; an argument
    that is absent is written [null] when a later one is present and is
    left out otherwise, so that each argument keeps its position. *)
Theorem X21_genSlot_positional n el e e' st s c st' s' :
  heap s !! el = Some e ->
  genChildren env n el false None None st s = Some (c, st', s') ->
  heap s' !! el = Some e' ->
  genSlot env (S n) el st s =
  Some (lit "_t(" ++
        join (lit ",")
          (or_else (slotName e) (dq ++ lit "default" ++ dq) ::
           positional [c; slot_attrs env e'; obj_get (lit "v-bind") (attrsMap e')]) ++
        lit ")", st', s').
Proof.
  intros He Hc He'. cbn [genSlot].
  grun (run_getEl el st s e He).
  rewrite run_bind, Hc. cbv beta iota.
  grun (run_getEl el st' s' e' He').
  by rewrite genSlot_tail_positional.
Qed.

End SlotOutlet.

Lemma X21_genSlot_positional_witness :
  genSlot Sample.env 3 0 Sample.state outlet =
  Some (lit "_t(n,null,{a:x})", Sample.state, outlet).
Proof.
  exact (X21_genSlot_positional Sample.env 2 0 _ _ Sample.state outlet None Sample.state outlet
           eq_refl eq_refl eq_refl).
Defined.
